(** * Camel Race: the simulation core of [game.js]

    A shallow embedding of the classes [Player], [Obstacle] and [Game] of
    [src/game.js], followed by the properties of the simulation that the
    design document states about them.

    Conventions of the embedding.
    - A JavaScript number is an exact rational ([Q]); [===], [<], [<=] on
      numbers are [Qeq_bool], [Qlt_bool], [Qle_bool].  Rounding, NaN and
      the infinities of IEEE doubles are outside the model; the one
      literal [-Infinity] of the source ([endGame]) is [None] in an
      [option Q].  Where a rounded result of the source could reach a
      bound that the exact one stays below, the bound is stated as
      included.  Integer-valued counters ([lives], indices) are [Z] or
      [nat].
    - [Math.random()] reads the next element of an oracle
      [draws : nat -> Q]; the cursor into the oracle is threaded through
      every function that draws, in the order of the source.
    - Objects mutated in place become records rebuilt field by field
      ([set_f v r] is [r.f = v]).
    - Canvas painting and DOM updates have no effect on the simulation
      state and are left out; the parallax background is kept because it
      consumes random draws. *)

From Stdlib Require Import QArith Qround Lqa ZArith Lia List String Bool.
From Stdlib Require Import DecimalString Relations Permutation Sorted.
Import ListNotations.
Open Scope Q_scope.

(** ** Numbers *)

(** [a < b] on numbers. *)
Definition Qlt_bool (a b : Q) : bool := negb (Qle_bool b a).

(** ** The random source *)

(** [Math.random()]: the draw under the cursor, and the cursor advanced. *)
Definition random (draws : nat -> Q) (n : nat) : Q * nat := (draws n, S n).

(** Every draw of a well-behaved source lies in [0, 1). *)
Definition unit_draws (draws : nat -> Q) : Prop :=
  forall n, 0 <= draws n /\ draws n < 1.

(** ** Player (game.js, class Player) *)

Module Player.

Record t : Type := mk {
  name : string;
  lane : nat;
  isBot : bool;
  errorRate : Q;
  x : Q;
  y : Q;
  vy : Q;
  width : Q;
  height : Q;
  gravity : Q;
  jumpVelocity : Q;
  doubleJumpAvailable : bool;
  lives : Z;
  invulnerable : bool;
  invulnTimer : Q;
  time : Q;
  out : bool;
  passedObstacles : Z
}.

Definition set_y (v : Q) (r : t) : t :=
  mk (name r) (lane r) (isBot r) (errorRate r) (x r) v (vy r) (width r)
     (height r) (gravity r) (jumpVelocity r) (doubleJumpAvailable r)
     (lives r) (invulnerable r) (invulnTimer r) (time r) (out r)
     (passedObstacles r).
Definition set_vy (v : Q) (r : t) : t :=
  mk (name r) (lane r) (isBot r) (errorRate r) (x r) (y r) v (width r)
     (height r) (gravity r) (jumpVelocity r) (doubleJumpAvailable r)
     (lives r) (invulnerable r) (invulnTimer r) (time r) (out r)
     (passedObstacles r).
Definition set_doubleJumpAvailable (v : bool) (r : t) : t :=
  mk (name r) (lane r) (isBot r) (errorRate r) (x r) (y r) (vy r) (width r)
     (height r) (gravity r) (jumpVelocity r) v (lives r) (invulnerable r)
     (invulnTimer r) (time r) (out r) (passedObstacles r).
Definition set_lives (v : Z) (r : t) : t :=
  mk (name r) (lane r) (isBot r) (errorRate r) (x r) (y r) (vy r) (width r)
     (height r) (gravity r) (jumpVelocity r) (doubleJumpAvailable r) v
     (invulnerable r) (invulnTimer r) (time r) (out r) (passedObstacles r).
Definition set_invulnerable (v : bool) (r : t) : t :=
  mk (name r) (lane r) (isBot r) (errorRate r) (x r) (y r) (vy r) (width r)
     (height r) (gravity r) (jumpVelocity r) (doubleJumpAvailable r)
     (lives r) v (invulnTimer r) (time r) (out r) (passedObstacles r).
Definition set_invulnTimer (v : Q) (r : t) : t :=
  mk (name r) (lane r) (isBot r) (errorRate r) (x r) (y r) (vy r) (width r)
     (height r) (gravity r) (jumpVelocity r) (doubleJumpAvailable r)
     (lives r) (invulnerable r) v (time r) (out r) (passedObstacles r).
Definition set_time (v : Q) (r : t) : t :=
  mk (name r) (lane r) (isBot r) (errorRate r) (x r) (y r) (vy r) (width r)
     (height r) (gravity r) (jumpVelocity r) (doubleJumpAvailable r)
     (lives r) (invulnerable r) (invulnTimer r) v (out r)
     (passedObstacles r).
Definition set_out (v : bool) (r : t) : t :=
  mk (name r) (lane r) (isBot r) (errorRate r) (x r) (y r) (vy r) (width r)
     (height r) (gravity r) (jumpVelocity r) (doubleJumpAvailable r)
     (lives r) (invulnerable r) (invulnTimer r) (time r) v
     (passedObstacles r).

(** [constructor(name, lane, isBot = false, errorRate = 0.1)]; the
    default arguments are supplied by the callers below. *)
Definition constructor (name : string) (lane : nat) (isBot : bool)
    (errorRate : Q) : t :=
  mk name lane isBot errorRate
     150 (* x *) 0 (* y *) 0 (* vy *) 60 (* width *) 40 (* height *)
     2000 (* gravity *) 700 (* jumpVelocity *)
     true (* doubleJumpAvailable *) 3 (* lives *)
     false (* invulnerable *) 0 (* invulnTimer *) 0 (* time *)
     false (* out *) 0 (* passedObstacles *).

(** [jump()] *)
Definition jump (p : t) : t :=
  if out p then p
  else if Qeq_bool (y p) 0 then
    (* initial jump *)
    set_doubleJumpAvailable true (set_vy (- jumpVelocity p) p)
  else if doubleJumpAvailable p then
    (* double jump resets vertical velocity *)
    set_doubleJumpAvailable false (set_vy (- jumpVelocity p) p)
  else p.

(** [updatePhysics(dt)] *)
Definition updatePhysics (dt : Q) (p : t) : t :=
  if out p then p
  else
    (* apply gravity *)
    let p := set_vy (vy p + gravity p * dt) p in
    let p := set_y (y p + vy p * dt) p in
    (* clamp to ground *)
    let p :=
      if Qlt_bool 0 (y p)
      then set_doubleJumpAvailable true (set_vy 0 (set_y 0 p))
      else p in
    (* invulnerability timer after collision *)
    let p :=
      if invulnerable p then
        let p := set_invulnTimer (invulnTimer p - dt) p in
        if Qle_bool (invulnTimer p) 0 then set_invulnerable false p else p
      else p in
    (* increment survival time *)
    set_time (time p + dt) p.

End Player.

(** ** Obstacle (game.js, class Obstacle) *)

Module Obstacle.

(** The CSS colour strings built by the constructor: [hsl(h, s%, l%)] and
    a literal hex code. *)
Inductive colour : Type :=
| hsl (hue : Q) (saturation lightness : Z)
| hex (code : string).

(** The [type] argument is whatever the caller passes: a string, or
    [undefined] ([None]) when [spawnObstacle] indexes outside its table. *)
Record t : Type := mk {
  x : Q;
  type : option string;
  width : Q;
  height : Q;
  color : colour
}.

Definition set_x (v : Q) (o : t) : t :=
  mk v (type o) (width o) (height o) (color o).

Definition is_type (tag : string) (type : option string) : bool :=
  match type with
  | Some s => String.eqb s tag
  | None => false
  end.

Section Construct.
Variable draws : nat -> Q.

(** [constructor(x, type)]: the [switch] on [type]; ["spike"] shares the
    [default] arm. *)
Definition constructor (x : Q) (type : option string) (n : nat) : t * nat :=
  if is_type "snake" type then
    let '(r, n) := random draws n in let width := 50 + r * 30 in
    let '(r, n) := random draws n in let height := 20 + r * 10 in
    let '(r, n) := random draws n in let hue := 90 + r * 60 in
    (mk x type width height (hsl hue 50 40), n)
  else if is_type "rock" type then
    let '(r, n) := random draws n in let width := 40 + r * 30 in
    let '(r, n) := random draws n in let height := 30 + r * 20 in
    let '(r, n) := random draws n in let hue := 20 + r * 20 in
    (mk x type width height (hsl hue 30 40), n)
  else if is_type "hole" type then
    let '(r, n) := random draws n in let width := 70 + r * 50 in
    (mk x type width 1 (hex "000000"), n)
  else
    let '(r, n) := random draws n in let width := 50 + r * 30 in
    let '(r, n) := random draws n in let height := 40 + r * 20 in
    let '(r, n) := random draws n in let hue := 330 + r * 30 in
    (mk x type width height (hsl hue 60 50), n).

End Construct.

End Obstacle.

(** ** Completion of a call *)

(** How a call that contains a [while] loop or an indexed read ends. *)
Inductive outcome (A : Type) : Type :=
| Normal (a : A)         (* the call returned *)
| Throw (e : string)     (* an exception propagated out of the call *)
| Beyond (why : string). (* execution left what the model covers: a loop
                            still running when the fuel ran out, or a
                            value that is not a rational number *)
Arguments Normal {A} a.
Arguments Throw {A} e.
Arguments Beyond {A} why.

Definition bind {A B : Type} (m : outcome A) (k : A -> outcome B)
    : outcome B :=
  match m with
  | Normal a => k a
  | Throw e => Throw e
  | Beyond why => Beyond why
  end.

(** [l[i] = v] for an index inside the array. *)
Fixpoint assign {A : Type} (i : nat) (v : A) (l : list A) : list A :=
  match l, i with
  | [], _ => []
  | _ :: rest, O => v :: rest
  | a :: rest, S i => a :: assign i v rest
  end.

(** The decimal text of a loop counter inside a template string. *)
Definition decimal (k : nat) : string :=
  NilZero.string_of_uint (Nat.to_uint k).

(** ** Game (game.js, class Game) *)

Module Game.

Record t : Type := mk {
  laneCount : nat;
  playerCount : nat;
  players : list Player.t;
  obstacles : list Obstacle.t;
  speed : Q;
  baseSpeed : Q;
  elapsedTime : Q;
  nextSpeedIncreaseAt : Q;
  speedIncreaseFactor : Q;
  gameOver : bool;
  lastTime : option Q;
  spawnGapMin : Q;
  spawnGapMax : Q;
  baseSpawnGapMin : Q;
  baseSpawnGapMax : Q;
  spawnTimer : Q;
  baseMinSpawnTime : Q;
  baseMaxSpawnTime : Q;
  nextSpawnInterval : Q;
  winnerIndex : option Z;
  bgOffsets : list Q;
  bgSpeedFactor : Q;
  bgPatternWidth : Q;
  bgBaseRadius : Q;
  bgRadii : list (list Q)
}.

Definition set_players (v : list Player.t) (r : t) : t :=
  mk (laneCount r) (playerCount r) v (obstacles r) (speed r) (baseSpeed r)
     (elapsedTime r) (nextSpeedIncreaseAt r) (speedIncreaseFactor r)
     (gameOver r) (lastTime r) (spawnGapMin r) (spawnGapMax r)
     (baseSpawnGapMin r) (baseSpawnGapMax r) (spawnTimer r)
     (baseMinSpawnTime r) (baseMaxSpawnTime r) (nextSpawnInterval r)
     (winnerIndex r) (bgOffsets r) (bgSpeedFactor r) (bgPatternWidth r)
     (bgBaseRadius r) (bgRadii r).
Definition set_obstacles (v : list Obstacle.t) (r : t) : t :=
  mk (laneCount r) (playerCount r) (players r) v (speed r) (baseSpeed r)
     (elapsedTime r) (nextSpeedIncreaseAt r) (speedIncreaseFactor r)
     (gameOver r) (lastTime r) (spawnGapMin r) (spawnGapMax r)
     (baseSpawnGapMin r) (baseSpawnGapMax r) (spawnTimer r)
     (baseMinSpawnTime r) (baseMaxSpawnTime r) (nextSpawnInterval r)
     (winnerIndex r) (bgOffsets r) (bgSpeedFactor r) (bgPatternWidth r)
     (bgBaseRadius r) (bgRadii r).
Definition set_speed (v : Q) (r : t) : t :=
  mk (laneCount r) (playerCount r) (players r) (obstacles r) v (baseSpeed r)
     (elapsedTime r) (nextSpeedIncreaseAt r) (speedIncreaseFactor r)
     (gameOver r) (lastTime r) (spawnGapMin r) (spawnGapMax r)
     (baseSpawnGapMin r) (baseSpawnGapMax r) (spawnTimer r)
     (baseMinSpawnTime r) (baseMaxSpawnTime r) (nextSpawnInterval r)
     (winnerIndex r) (bgOffsets r) (bgSpeedFactor r) (bgPatternWidth r)
     (bgBaseRadius r) (bgRadii r).
Definition set_elapsedTime (v : Q) (r : t) : t :=
  mk (laneCount r) (playerCount r) (players r) (obstacles r) (speed r)
     (baseSpeed r) v (nextSpeedIncreaseAt r) (speedIncreaseFactor r)
     (gameOver r) (lastTime r) (spawnGapMin r) (spawnGapMax r)
     (baseSpawnGapMin r) (baseSpawnGapMax r) (spawnTimer r)
     (baseMinSpawnTime r) (baseMaxSpawnTime r) (nextSpawnInterval r)
     (winnerIndex r) (bgOffsets r) (bgSpeedFactor r) (bgPatternWidth r)
     (bgBaseRadius r) (bgRadii r).
Definition set_nextSpeedIncreaseAt (v : Q) (r : t) : t :=
  mk (laneCount r) (playerCount r) (players r) (obstacles r) (speed r)
     (baseSpeed r) (elapsedTime r) v (speedIncreaseFactor r) (gameOver r)
     (lastTime r) (spawnGapMin r) (spawnGapMax r) (baseSpawnGapMin r)
     (baseSpawnGapMax r) (spawnTimer r) (baseMinSpawnTime r)
     (baseMaxSpawnTime r) (nextSpawnInterval r) (winnerIndex r) (bgOffsets r)
     (bgSpeedFactor r) (bgPatternWidth r) (bgBaseRadius r) (bgRadii r).
Definition set_gameOver (v : bool) (r : t) : t :=
  mk (laneCount r) (playerCount r) (players r) (obstacles r) (speed r)
     (baseSpeed r) (elapsedTime r) (nextSpeedIncreaseAt r)
     (speedIncreaseFactor r) v (lastTime r) (spawnGapMin r) (spawnGapMax r)
     (baseSpawnGapMin r) (baseSpawnGapMax r) (spawnTimer r)
     (baseMinSpawnTime r) (baseMaxSpawnTime r) (nextSpawnInterval r)
     (winnerIndex r) (bgOffsets r) (bgSpeedFactor r) (bgPatternWidth r)
     (bgBaseRadius r) (bgRadii r).
Definition set_lastTime (v : option Q) (r : t) : t :=
  mk (laneCount r) (playerCount r) (players r) (obstacles r) (speed r)
     (baseSpeed r) (elapsedTime r) (nextSpeedIncreaseAt r)
     (speedIncreaseFactor r) (gameOver r) v (spawnGapMin r) (spawnGapMax r)
     (baseSpawnGapMin r) (baseSpawnGapMax r) (spawnTimer r)
     (baseMinSpawnTime r) (baseMaxSpawnTime r) (nextSpawnInterval r)
     (winnerIndex r) (bgOffsets r) (bgSpeedFactor r) (bgPatternWidth r)
     (bgBaseRadius r) (bgRadii r).
Definition set_spawnTimer (v : Q) (r : t) : t :=
  mk (laneCount r) (playerCount r) (players r) (obstacles r) (speed r)
     (baseSpeed r) (elapsedTime r) (nextSpeedIncreaseAt r)
     (speedIncreaseFactor r) (gameOver r) (lastTime r) (spawnGapMin r)
     (spawnGapMax r) (baseSpawnGapMin r) (baseSpawnGapMax r) v
     (baseMinSpawnTime r) (baseMaxSpawnTime r) (nextSpawnInterval r)
     (winnerIndex r) (bgOffsets r) (bgSpeedFactor r) (bgPatternWidth r)
     (bgBaseRadius r) (bgRadii r).
Definition set_nextSpawnInterval (v : Q) (r : t) : t :=
  mk (laneCount r) (playerCount r) (players r) (obstacles r) (speed r)
     (baseSpeed r) (elapsedTime r) (nextSpeedIncreaseAt r)
     (speedIncreaseFactor r) (gameOver r) (lastTime r) (spawnGapMin r)
     (spawnGapMax r) (baseSpawnGapMin r) (baseSpawnGapMax r) (spawnTimer r)
     (baseMinSpawnTime r) (baseMaxSpawnTime r) v (winnerIndex r)
     (bgOffsets r) (bgSpeedFactor r) (bgPatternWidth r) (bgBaseRadius r)
     (bgRadii r).
Definition set_winnerIndex (v : option Z) (r : t) : t :=
  mk (laneCount r) (playerCount r) (players r) (obstacles r) (speed r)
     (baseSpeed r) (elapsedTime r) (nextSpeedIncreaseAt r)
     (speedIncreaseFactor r) (gameOver r) (lastTime r) (spawnGapMin r)
     (spawnGapMax r) (baseSpawnGapMin r) (baseSpawnGapMax r) (spawnTimer r)
     (baseMinSpawnTime r) (baseMaxSpawnTime r) (nextSpawnInterval r) v
     (bgOffsets r) (bgSpeedFactor r) (bgPatternWidth r) (bgBaseRadius r)
     (bgRadii r).
Definition set_bgOffsets (v : list Q) (r : t) : t :=
  mk (laneCount r) (playerCount r) (players r) (obstacles r) (speed r)
     (baseSpeed r) (elapsedTime r) (nextSpeedIncreaseAt r)
     (speedIncreaseFactor r) (gameOver r) (lastTime r) (spawnGapMin r)
     (spawnGapMax r) (baseSpawnGapMin r) (baseSpawnGapMax r) (spawnTimer r)
     (baseMinSpawnTime r) (baseMaxSpawnTime r) (nextSpawnInterval r)
     (winnerIndex r) v (bgSpeedFactor r) (bgPatternWidth r) (bgBaseRadius r)
     (bgRadii r).
Definition set_bgRadii (v : list (list Q)) (r : t) : t :=
  mk (laneCount r) (playerCount r) (players r) (obstacles r) (speed r)
     (baseSpeed r) (elapsedTime r) (nextSpeedIncreaseAt r)
     (speedIncreaseFactor r) (gameOver r) (lastTime r) (spawnGapMin r)
     (spawnGapMax r) (baseSpawnGapMin r) (baseSpawnGapMax r) (spawnTimer r)
     (baseMinSpawnTime r) (baseMaxSpawnTime r) (nextSpawnInterval r)
     (winnerIndex r) (bgOffsets r) (bgSpeedFactor r) (bgPatternWidth r)
     (bgBaseRadius r) v.

Section Methods.
Variable draws : nat -> Q.

(** [randomSpawnInterval()] *)
Definition randomSpawnInterval (g : t) (n : nat) : Q * nat :=
  let '(r, n) := random draws n in
  (baseMinSpawnTime g + r * (baseMaxSpawnTime g - baseMinSpawnTime g), n).

(** One [radii] array of [initBackgroundRadii]: the inner [for] loop. *)
Fixpoint radiiRow (segments : nat) (base : Q) (n : nat) : list Q * nat :=
  match segments with
  | O => ([], n)
  | S segments =>
      let '(r, n) := random draws n in
      let variation := 0.7 + r * 0.8 in
      let '(rest, n) := radiiRow segments base n in
      (base * variation :: rest, n)
  end.

(** The outer [for] loop of [initBackgroundRadii], one row per lane. *)
Fixpoint radiiRows (lanes segments : nat) (base : Q) (n : nat)
    : list (list Q) * nat :=
  match lanes with
  | O => ([], n)
  | S lanes =>
      let '(radii, n) := radiiRow segments base n in
      let '(rest, n) := radiiRows lanes segments base n in
      (radii :: rest, n)
  end.

(** [initBackgroundRadii()]; [canvasWidth] is [canvas.width]. *)
Definition initBackgroundRadii (canvasWidth : Q) (g : t) (n : nat)
    : t * nat :=
  let segmentsNeeded := (Qceiling (canvasWidth / bgPatternWidth g) + 2)%Z in
  let '(rows, n) :=
    radiiRows (laneCount g) (Z.to_nat segmentsNeeded) (bgBaseRadius g) n in
  (set_bgRadii rows g, n).

(** [initializePlayers]: the loop over the human names. *)
Fixpoint addHumans (i : nat) (names : list string)
    (players : list Player.t) : list Player.t :=
  match names with
  | [] => players
  | name :: names =>
      addHumans (S i) names
        (players ++ [Player.constructor name i false 0.1])
  end.

(** [initializePlayers]: the loop over [b < botCount] (here [b] counts
    up from its argument, [todo] iterations remain). *)
Fixpoint addBots (todo b : nat) (players : list Player.t)
    : list Player.t :=
  match todo with
  | O => players
  | S todo =>
      let lane := List.length players in
      let botName := ("Bot " ++ decimal (b + 1))%string in
      addBots todo (S b)
        (players ++ [Player.constructor botName lane true 0.05])
  end.

(** [initializePlayers]: [while (players.length < laneCount)]; the body
    runs [laneCount - players.length] times, which is [todo]. *)
Fixpoint fillLanes (todo : nat) (players : list Player.t)
    : list Player.t :=
  match todo with
  | O => players
  | S todo =>
      let lane := List.length players in
      fillLanes todo
        (players ++
         [Player.constructor ("Bot " ++ decimal (lane + 1))%string
            lane true 1.0])
  end.

(** [initializePlayers(playerNames, botCount)] *)
Definition initializePlayers (playerNames : list string) (botCount : nat)
    (g : t) : t :=
  let players := addHumans 0 playerNames (players g) in
  let players := addBots botCount 0 players in
  let players := fillLanes (laneCount g - List.length players) players in
  set_players players g.

(** [constructor(playerNames, botCount)].  The fields are listed in the
    order of the record; [nextSpawnInterval], [players] and [bgRadii] are
    filled in by the three calls that follow, in the order of the source. *)
Definition constructor (playerNames : list string) (botCount : nat)
    (canvasWidth : Q) (n : nat) : t * nat :=
  let laneCount := 3%nat in
  let speed := 400 in
  let spawnGapMin := 300 in
  let spawnGapMax := 800 in
  let g :=
    mk laneCount (List.length playerNames + botCount) [] []
       speed speed (* baseSpeed *) 0 (* elapsedTime *)
       5 (* nextSpeedIncreaseAt *) 1.3 (* speedIncreaseFactor *)
       false (* gameOver *) None (* lastTime *)
       spawnGapMin spawnGapMax
       spawnGapMin (* baseSpawnGapMin *) spawnGapMax (* baseSpawnGapMax *)
       0 (* spawnTimer *)
       (spawnGapMin / speed) (* baseMinSpawnTime *)
       (spawnGapMax / speed) (* baseMaxSpawnTime *)
       0 (* nextSpawnInterval, assigned next *)
       None (* winnerIndex *)
       (repeat 0 laneCount) (* bgOffsets *) 0.6 (* bgSpeedFactor *)
       300 (* bgPatternWidth *) 60 (* bgBaseRadius *) [] (* bgRadii *) in
  let '(interval, n) := randomSpawnInterval g n in
  let g := set_nextSpawnInterval interval g in
  let g := initializePlayers playerNames botCount g in
  initBackgroundRadii canvasWidth g n.

(** [spawnObstacle()] *)
Definition spawnObstacle (canvasWidth : Q) (g : t) (n : nat) : t * nat :=
  let types := ["snake"; "rock"; "hole"; "spike"]%string in
  let '(r, n) := random draws n in
  let index := Qfloor (r * inject_Z (Z.of_nat (List.length types))) in
  let type :=
    if (index <? 0)%Z then None else nth_error types (Z.to_nat index) in
  let x := canvasWidth + 50 in
  let '(obs, n) := Obstacle.constructor draws x type n in
  (set_obstacles (obstacles g ++ [obs]) g, n).

(** [start()]; scheduling the first frame is the host's business. *)
Definition start (g : t) (n : nat) : t * nat :=
  let g := set_spawnTimer 0 g in
  let '(interval, n) := randomSpawnInterval g n in
  (set_nextSpawnInterval interval g, n).

(** [handleBot(bot)]: the [for] loop over the obstacles, left at the first
    obstacle whose right edge is ahead of the bot.  The division is that
    of [Q], which is the source's for every speed other than 0; the speed
    of a match starts at 400 and only grows. *)
Fixpoint handleBotScan (obstacles : list Obstacle.t) (speed : Q)
    (bot : Player.t) (n : nat) : Player.t * nat :=
  match obstacles with
  | [] => (bot, n)
  | obs :: rest =>
      if Qlt_bool (Player.x bot) (Obstacle.x obs + Obstacle.width obs) then
        let distance := Obstacle.x obs - Player.x bot in
        let threshold := (Player.jumpVelocity bot / speed) * 200 in
        if Qlt_bool distance threshold && Qeq_bool (Player.y bot) 0 then
          (* decide whether to jump or fail *)
          let '(r, n) := random draws n in
          if Qlt_bool (Player.errorRate bot) r
          then (Player.jump bot, n)
          else (bot, n)
        else (bot, n)
      else handleBotScan rest speed bot n
  end.

Definition handleBot (g : t) (bot : Player.t) (n : nat) : Player.t * nat :=
  handleBotScan (obstacles g) (speed g) bot n.

(** [update]: the horizontal overlap test of the collision loop. *)
Definition overlaps (obs : Obstacle.t) (player : Player.t) : bool :=
  Qlt_bool (Obstacle.x obs) (Player.x player + Player.width player)
  && Qlt_bool (Player.x player) (Obstacle.x obs + Obstacle.width obs).

(** [update]: what a collision does to the player. *)
Definition hit (player : Player.t) : Player.t :=
  (* reduce life *)
  let player := Player.set_lives (Player.lives player - 1) player in
  let player := Player.set_invulnerable true player in
  let player := Player.set_invulnTimer 0.7 player in
  if (Player.lives player <=? 0)%Z then
    let player := Player.set_out true player in
    Player.set_time (Player.time player) player (* freeze time *)
  else player.

(** [update]: the collision loop over the obstacles for one player, left
    by [break] at the first hit. *)
Fixpoint collide (obstacles : list Obstacle.t) (player : Player.t)
    : Player.t :=
  match obstacles with
  | [] => player
  | obs :: rest =>
      if overlaps obs player then
        if Qle_bool 0 (Player.y player) then hit player
        else collide rest player
      else collide rest player
  end.

(** [update]: the body of the loop over the players, for one player. *)
Definition playerTick (g : t) (dt : Q) (player : Player.t) (n : nat)
    : Player.t * nat :=
  if Player.out player then (player, n)
  else
    (* bot decision *)
    let '(player, n) :=
      if Player.isBot player then handleBot g player n else (player, n) in
    let player := Player.updatePhysics dt player in
    (* collision detection if not invulnerable *)
    let player :=
      if negb (Player.invulnerable player)
      then collide (obstacles g) player
      else player in
    (player, n).

(** [update]: the loop over the players, counting those that are out. *)
Fixpoint updatePlayers (g : t) (dt : Q) (players : list Player.t)
    (n outCount : nat) : list Player.t * nat * nat :=
  match players with
  | [] => ([], n, outCount)
  | player :: rest =>
      let '(player, n) := playerTick g dt player n in
      let outCount := if Player.out player then S outCount else outCount in
      let '(rest, n, outCount) := updatePlayers g dt rest n outCount in
      (player :: rest, n, outCount)
  end.

(** [endGame]: the [forEach] that looks for the longest time;
    [bestTime = None] is [-Infinity]. *)
Fixpoint longestTime (players : list Player.t) (idx : Z)
    (bestTime : option Q) (winnerIndex : Z) : Z :=
  match players with
  | [] => winnerIndex
  | player :: rest =>
      let better :=
        match bestTime with
        | None => true
        | Some best => Qlt_bool best (Player.time player)
        end in
      if better
      then longestTime rest (idx + 1) (Some (Player.time player)) idx
      else longestTime rest (idx + 1) bestTime winnerIndex
  end.

(** [endGame()]; the delayed results overlay is presentation only. *)
Definition endGame (g : t) : t :=
  let g := set_gameOver true g in
  set_winnerIndex (Some (longestTime (players g) 0 None (-1))) g.

(** [update]: the [while] loop that wraps one lane's background offset,
    shifting one radius out and pushing a fresh one per pattern width. *)
Fixpoint bgScroll (fuel : nat) (patternWidth base offset : Q)
    (radii : list Q) (n : nat) : outcome (Q * list Q * nat) :=
  if Qle_bool offset (- patternWidth) then
    match fuel with
    | O => Beyond "fuel"
    | S fuel =>
        let offset := offset + patternWidth in
        let radii := tl radii in
        let '(r, n) := random draws n in
        let variation := 0.7 + r * 0.8 in
        bgScroll fuel patternWidth base offset
          (radii ++ [base * variation]) n
    end
  else Normal (offset, radii, n).

(** [update]: the loop over the lanes that scrolls the background;
    [todo] lanes remain, starting at [laneIndex]. *)
Fixpoint bgLanes (fuel todo laneIndex : nat) (dt : Q) (g : t) (n : nat)
    : outcome (t * nat) :=
  match todo with
  | O => Normal (g, n)
  | S todo =>
      match nth_error (bgRadii g) laneIndex with
      | None => Throw "TypeError" (* bgRadii[laneIndex] is undefined *)
      | Some radii =>
          match nth_error (bgOffsets g) laneIndex with
          | None => Beyond "NaN" (* undefined minus a number *)
          | Some offset =>
              let offset := offset - speed g * bgSpeedFactor g * dt in
              bind (bgScroll fuel (bgPatternWidth g) (bgBaseRadius g)
                      offset radii n)
                (fun '(offset, radii, n) =>
                   let g :=
                     set_bgOffsets (assign laneIndex offset (bgOffsets g))
                       g in
                   let g :=
                     set_bgRadii (assign laneIndex radii (bgRadii g)) g in
                   bgLanes fuel todo (S laneIndex) dt g n)
          end
      end
  end.

(** [update]: obstacles move left by [speed * dt]. *)
Definition advance (speed dt : Q) (obs : Obstacle.t) : Obstacle.t :=
  Obstacle.set_x (Obstacle.x obs - speed * dt) obs.

(** [update]: obstacles that have gone off screen leave from the front. *)
Fixpoint cull (obstacles : list Obstacle.t) : list Obstacle.t :=
  match obstacles with
  | [] => []
  | obs :: rest =>
      if Qlt_bool (Obstacle.x obs + Obstacle.width obs) 0
      then cull rest
      else obstacles
  end.

(** [update]: the [while] loop that spawns one obstacle per elapsed
    interval. *)
Fixpoint spawnLoop (fuel : nat) (canvasWidth : Q) (g : t) (n : nat)
    : outcome (t * nat) :=
  if Qle_bool (nextSpawnInterval g) (spawnTimer g) then
    match fuel with
    | O => Beyond "fuel"
    | S fuel =>
        let g := set_spawnTimer (spawnTimer g - nextSpawnInterval g) g in
        let '(g, n) := spawnObstacle canvasWidth g n in
        let '(interval, n) := randomSpawnInterval g n in
        spawnLoop fuel canvasWidth (set_nextSpawnInterval interval g) n
    end
  else Normal (g, n).

(** [update]: accumulate elapsed time and raise the speed when the next
    threshold has been reached. *)
Definition difficulty (dt : Q) (g : t) : t :=
  let g := set_elapsedTime (elapsedTime g + dt) g in
  if Qle_bool (nextSpeedIncreaseAt g) (elapsedTime g) then
    let g := set_speed (speed g * speedIncreaseFactor g) g in
    (* schedule next increase after 5 seconds *)
    set_nextSpeedIncreaseAt (nextSpeedIncreaseAt g + 5) g
  else g.

(** [!this.lastTime]: [null] and [0] are falsy. *)
Definition noLastTime (g : t) : bool :=
  match lastTime g with
  | None => true
  | Some t => Qeq_bool t 0
  end.

(** [dt] as [update] computes it from the frame's timestamp. *)
Definition frameDt (timestamp : Q) (g : t) : Q :=
  let last :=
    match lastTime g with
    | Some t => if noLastTime g then timestamp else t
    | None => timestamp
    end in
  (timestamp - last) / 1000.

(** [update(timestamp)].  [fuel] bounds the iterations of each [while]
    loop; asking for the next frame is left to the host. *)
Definition update (fuel : nat) (timestamp canvasWidth : Q) (g : t)
    (n : nat) : outcome (t * nat) :=
  if gameOver g then Normal (g, n)
  else
    let dt := frameDt timestamp g in (* convert to seconds *)
    let g := set_lastTime (Some timestamp) g in
    (* accumulate elapsed time for difficulty scaling *)
    let g := difficulty dt g in
    bind (bgLanes fuel (laneCount g) 0 dt g n) (fun '(g, n) =>
    (* update obstacles, remove those that have gone off screen *)
    let g :=
      set_obstacles (cull (map (advance (speed g) dt) (obstacles g))) g in
    let g := set_spawnTimer (spawnTimer g + dt) g in
    bind (spawnLoop fuel canvasWidth g n) (fun '(g, n) =>
    (* update players *)
    let '(players, n, outCount) := updatePlayers g dt (players g) n 0 in
    let g := set_players players g in
    (* check game over: when all players are out *)
    let g := if (laneCount g <=? outCount)%nat then endGame g else g in
    Normal (g, n))).

End Methods.

End Game.

(** ** The page: one game, the canvas and the random source *)

(** What the handlers of [startGame] and [resizeCanvas] share: the running
    game, [canvas.width], and the cursor into the random source. *)
Record World : Type := mkWorld {
  game : Game.t;
  canvasWidth : Q;
  cursor : nat
}.

(** What the browser can deliver to the page once a game runs.  The
    handlers of the snippet [unnamed/part_000] are not among them: its
    [handleJump] reads a variable [game] that is local to [startGame]
    here, and it registers on an element ['game-canvas'] that the page
    does not have. *)
Inductive event : Type :=
| Frame (timestamp : Q)  (* requestAnimationFrame calls [update] *)
| Press                  (* onKeydown / onTouch of [startGame] *)
| Resize (width : Q).    (* resizeCanvas *)

(** [game.players.find(p => !p.isBot)], and [jump()] on the player found. *)
Fixpoint jumpFirstHuman (players : list Player.t) : list Player.t :=
  match players with
  | [] => []
  | p :: rest =>
      if negb (Player.isBot p) then Player.jump p :: rest
      else p :: jumpFirstHuman rest
  end.

Section Page.
Variable draws : nat -> Q.

(** [startGame(playerNames, botCount)]: [new Game] and [game.start()]. *)
Definition startGame (playerNames : list string) (botCount : nat)
    (canvasWidth : Q) (n : nat) : World :=
  let '(g, n) := Game.constructor draws playerNames botCount canvasWidth n in
  let '(g, n) := Game.start draws g n in
  mkWorld g canvasWidth n.

(** The handler of one event. *)
Definition handle (fuel : nat) (e : event) (w : World) : outcome World :=
  match e with
  | Frame timestamp =>
      bind (Game.update draws fuel timestamp (canvasWidth w) (game w)
              (cursor w))
        (fun '(g, n) => Normal (mkWorld g (canvasWidth w) n))
  | Press =>
      let g := game w in
      Normal (mkWorld (Game.set_players (jumpFirstHuman (Game.players g)) g)
                (canvasWidth w) (cursor w))
  | Resize width =>
      let '(g, n) :=
        Game.initBackgroundRadii draws width (game w) (cursor w) in
      Normal (mkWorld g width n)
  end.

(** One event handled to completion. *)
Definition step (w w' : World) : Prop :=
  exists fuel e, handle fuel e w = Normal w'.

(** The states a match can be in: those reached from [startGame] by
    handling events. *)
Definition reachable (w : World) : Prop :=
  exists playerNames botCount width n,
    clos_refl_trans World step (startGame playerNames botCount width n) w.

End Page.

(** ** The rest of the page *)

(** [s.charAt(i)]: the character at [i] as a string, empty outside the
    string. *)
Definition charAt (s : string) (i : Z) : string :=
  if (i <? 0)%Z then EmptyString
  else
    match String.get (Z.to_nat i) s with
    | Some c => String c EmptyString
    | None => EmptyString
    end.

(** The alphabet of [randomString]. *)
Definition chars : string :=
  "ABCDEFGHIJKLMNOPQRSTUVWXYZabcdefghijklmnopqrstuvwxyz0123456789".

Section RoomCode.
Variable draws : nat -> Q.

(** [randomString(length)]: the loop, [todo] iterations remain and
    [result] holds the characters drawn so far. *)
Fixpoint randomStringLoop (todo : nat) (result : string) (n : nat)
    : string * nat :=
  match todo with
  | O => (result, n)
  | S todo =>
      let '(r, n) := random draws n in
      let index := Qfloor (r * inject_Z (Z.of_nat (String.length chars))) in
      randomStringLoop todo (result ++ charAt chars index)%string n
  end.

Definition randomString (length : nat) (n : nat) : string * nat :=
  randomStringLoop length EmptyString n.

End RoomCode.

(** [updateScoreboard(player)]: the background colours given to the
    [hearts] heart elements of a player, in order. *)
Definition heartColours (hearts : nat) (player : Player.t) : list string :=
  map (fun i =>
         if (Z.of_nat i <? Player.lives player)%Z
         then "red"%string else "#ccc"%string)
    (seq 0 hearts).

(** [setupScoreboard] gives every player three hearts. *)
Definition heartCount : nat := 3.

(** One row of the final results: [{ idx, name, time }]. *)
Record entry : Type := mkEntry {
  idx : nat;
  entryName : string;
  entryTime : Q
}.

(** [players.map((p, idx) => ({ idx, name: p.name, time: p.time }))],
    with [i] the index of the first player of the list. *)
Fixpoint entries (i : nat) (players : list Player.t) : list entry :=
  match players with
  | [] => []
  | p :: rest =>
      mkEntry i (Player.name p) (Player.time p) :: entries (S i) rest
  end.

(** [sort((a, b) => b.time - a.time)].  [Array.prototype.sort] is stable:
    with this comparator it orders by descending time and keeps entries
    of equal time in their order.  That order is unique; it is computed
    here by insertion from the right. *)
Fixpoint insertByTime (e : entry) (sorted : list entry) : list entry :=
  match sorted with
  | [] => [e]
  | x :: rest =>
      if Qlt_bool (entryTime e) (entryTime x)
      then x :: insertByTime e rest
      else e :: sorted
  end.

Definition sortByTime (l : list entry) : list entry :=
  fold_right insertByTime [] l.

(** [endGame]: the rows of the final list, in the order shown. *)
Definition finalRanking (g : Game.t) : list entry :=
  sortByTime (entries 0 (Game.players g)).

(** [endGame]: whether a row gets the trophy. *)
Definition hasTrophy (g : Game.t) (e : entry) : bool :=
  match Game.winnerIndex g with
  | Some winner => (Z.of_nat (idx e) =? winner)%Z
  | None => false
  end.

(** * Vocabulary of the properties *)

(** ** Views of a game *)

(** The game with its background fields blanked: what the background
    loop leaves alone. *)
Definition no_bg (g : Game.t) : Game.t :=
  Game.set_bgRadii [] (Game.set_bgOffsets [] g).

(** The game with its clock and speed blanked: what the difficulty step
    leaves alone. *)
Definition no_clock (g : Game.t) : Game.t :=
  Game.set_nextSpeedIncreaseAt 0
    (Game.set_speed 0
       (Game.set_elapsedTime 0 (Game.set_lastTime None g))).

(** The game with the fields of the spawn scheduler blanked: what the
    spawn loop leaves alone. *)
Definition no_spawn (g : Game.t) : Game.t :=
  Game.set_nextSpawnInterval 0
    (Game.set_spawnTimer 0 (Game.set_obstacles [] g)).

(** The game with its players and its result blanked: what the end of
    the player loop leaves alone. *)
Definition no_result (g : Game.t) : Game.t :=
  Game.set_winnerIndex None
    (Game.set_gameOver false (Game.set_players [] g)).

(** The constants of a game: what no handler writes after the
    constructor. *)
Definition constants (g : Game.t) : Game.t :=
  no_result (no_bg (no_spawn (no_clock g))).

(** ** The phases of [update] *)

(** The game as it stands when [update] reaches its background loop. *)
Definition before_bg (timestamp : Q) (g : Game.t) : Game.t :=
  Game.difficulty (Game.frameDt timestamp g)
    (Game.set_lastTime (Some timestamp) g).

(** The game as it stands when [update] reaches its spawn loop. *)
Definition before_spawn (dt : Q) (g : Game.t) : Game.t :=
  Game.set_spawnTimer (Game.spawnTimer g + dt)
    (Game.set_obstacles
       (Game.cull (map (Game.advance (Game.speed g) dt) (Game.obstacles g)))
       g).

(** The game when [update] has run its player loop. *)
Definition after_players (players : list Player.t) (outCount : nat)
    (g : Game.t) : Game.t :=
  if (Game.laneCount g <=? outCount)%nat
  then Game.endGame (Game.set_players players g)
  else Game.set_players players g.

(** ** Players *)

(** The sum of a list of numbers. *)
Definition Qsum (l : list Q) : Q := fold_right Qplus 0 l.

(** The position after integration, before the clamp. *)
Definition integrated_y (dt : Q) (p : Player.t) : Q :=
  Player.y p + (Player.vy p + Player.gravity p * dt) * dt.

(** The number of players that are out. *)
Definition count_out (players : list Player.t) : nat :=
  List.length (filter Player.out players).

(** The player as the collision loop of a frame sees it: after the bot
    decision and the physics. *)
Definition after_physics (draws : nat -> Q) (g : Game.t) (dt : Q)
    (p : Player.t) (n : nat) : Player.t :=
  Player.updatePhysics dt
    (fst (if Player.isBot p then Game.handleBot draws g p n else (p, n))).

(** One player before and after the player loop of a frame. *)
Definition ticked (draws : nat -> Q) (g : Game.t) (dt : Q)
    (p p' : Player.t) : Prop :=
  exists n, p' = fst (Game.playerTick draws g dt p n).

(** One player before and after a key press or a touch: untouched, or
    after a call of [jump()]. *)
Definition pressed (p p' : Player.t) : Prop :=
  p' = p \/ p' = Player.jump p.

(** One player before and after one event handled by the page: pressed,
    or taken through the player loop of a frame whose game ends as [g']. *)
Definition moved (draws : nat -> Q) (g' : Game.t) (p p' : Player.t) : Prop :=
  pressed p p' \/ exists dt, ticked draws g' dt p p'.

(** The collision that costs a life: the player [q], as the physics of
    this frame left it, is vulnerable, on the ground and over an
    obstacle of the game [g']. *)
Definition collided (g' : Game.t) (p q : Player.t) : Prop :=
  (exists dt,
     q = Player.updatePhysics dt p \/
     (Player.isBot p = true /\
      q = Player.updatePhysics dt (Player.jump p))) /\
  Player.invulnerable q = false /\
  0 <= Player.y q /\
  exists obs, In obs (Game.obstacles g') /\ Game.overlaps obs q = true.

(** What can happen to one player between two moments of a match: the
    player loop of a frame, or a call of [jump()]. *)
Inductive agent_move : Type :=
| Ticks (g : Game.t) (dt : Q) (n : nat)
| Jumps.

Definition move (draws : nat -> Q) (p : Player.t) (m : agent_move)
    : Player.t :=
  match m with
  | Ticks g dt n => fst (Game.playerTick draws g dt p n)
  | Jumps => Player.jump p
  end.

Definition moves (draws : nat -> Q) (ms : list agent_move) (p : Player.t)
    : Player.t :=
  fold_left (move draws) ms p.

(** The time a move takes. *)
Definition duration (m : agent_move) : Q :=
  match m with
  | Ticks _ dt _ => dt
  | Jumps => 0
  end.

(** The time a list of moves takes. *)
Definition elapsed (ms : list agent_move) : Q := Qsum (map duration ms).

(** [k] is the index of the first player, in the order of the list,
    whose time is the longest. *)
Definition first_longest (players : list Player.t) (k : nat) : Prop :=
  exists p,
    nth_error players k = Some p /\
    (forall j q, nth_error players j = Some q ->
                 Player.time q <= Player.time p) /\
    (forall j q, (j < k)%nat -> nth_error players j = Some q ->
                 Player.time q < Player.time p).

(** ** Loops *)

(** An interval of the scheduler lies between the two base spawn times. *)
Definition in_spawn_range (g : Game.t) (interval : Q) : Prop :=
  Game.baseMinSpawnTime g <= interval /\
  interval <= Game.baseMaxSpawnTime g.

(** [interval] is what [randomSpawnInterval] returns for some draw. *)
Definition fresh_interval (draws : nat -> Q) (g : Game.t) (interval : Q)
    : Prop :=
  exists n, interval = fst (Game.randomSpawnInterval draws g n).

(** What the spawn loop needs of the scheduler to come to an end: a
    positive lower bound under every interval. *)
Definition scheduler_ok (g : Game.t) : Prop :=
  0 < Game.baseMinSpawnTime g /\
  Game.baseMinSpawnTime g <= Game.baseMaxSpawnTime g /\
  Game.baseMinSpawnTime g <= Game.nextSpawnInterval g /\
  Game.nextSpawnInterval g <= Game.baseMaxSpawnTime g.

(** What the background loop needs to come to an end without reading
    past the end of its arrays. *)
Definition background_ok (g : Game.t) : Prop :=
  0 < Game.bgPatternWidth g /\
  (Game.laneCount g <= List.length (Game.bgOffsets g))%nat /\
  (Game.laneCount g <= List.length (Game.bgRadii g))%nat.

(** [fuel] iterations suffice to bring [x] above [-width] in steps of
    [width]. *)
Definition scroll_fuel (fuel : nat) (width x : Q) : Prop :=
  - (width * (inject_Z (Z.of_nat fuel) + 1)) < x.

(** What one run of the spawn loop did, from [g] to [g']: [intervals]
    are the intervals that had elapsed, [news] the obstacles spawned for
    them, in order.  The intervals, followed by the one the loop leaves
    behind, start with the interval the loop found, and each of the
    others was drawn afresh. *)
Definition spawned (draws : nat -> Q) (cw : Q) (g g' : Game.t)
    (intervals : list Q) (news : list Obstacle.t) : Prop :=
  Game.obstacles g' = Game.obstacles g ++ news /\
  List.length news = List.length intervals /\
  Forall (fun o => Obstacle.x o = cw + 50) news /\
  Forall (in_spawn_range g) intervals /\
  hd_error (intervals ++ [Game.nextSpawnInterval g'])
  = Some (Game.nextSpawnInterval g) /\
  Forall (fresh_interval draws g)
    (tl (intervals ++ [Game.nextSpawnInterval g'])) /\
  Game.spawnTimer g == Qsum intervals + Game.spawnTimer g' /\
  (intervals <> [] \/ 0 <= Game.spawnTimer g -> 0 <= Game.spawnTimer g') /\
  Game.spawnTimer g' < Game.nextSpawnInterval g' /\
  scheduler_ok g' /\
  no_spawn g' = no_spawn g.

(** What the obstacle and spawn steps of one frame did, from the game
    [g] at the start of the frame to the game [g'] at its end: the old
    obstacles moved left and were culled, [intervals] are the spawn
    intervals that had elapsed, [news] the obstacles spawned for them.
    The intervals, followed by the one the frame leaves behind, start
    with the interval the frame found, and each of the others was drawn
    afresh. *)
Definition frame_spawned (draws : nat -> Q) (cw dt : Q) (g g' : Game.t)
    (intervals : list Q) (news : list Obstacle.t) : Prop :=
  Game.obstacles g'
  = Game.cull (map (Game.advance (Game.speed g') dt) (Game.obstacles g))
    ++ news /\
  List.length news = List.length intervals /\
  Forall (fun o => Obstacle.x o = cw + 50) news /\
  Forall (in_spawn_range g) intervals /\
  hd_error (intervals ++ [Game.nextSpawnInterval g'])
  = Some (Game.nextSpawnInterval g) /\
  Forall (fresh_interval draws g)
    (tl (intervals ++ [Game.nextSpawnInterval g'])) /\
  Game.spawnTimer g + dt == Qsum intervals + Game.spawnTimer g' /\
  (intervals <> [] \/ 0 <= Game.spawnTimer g + dt ->
   0 <= Game.spawnTimer g') /\
  Game.spawnTimer g' < Game.nextSpawnInterval g' /\
  in_spawn_range g (Game.nextSpawnInterval g').


(** ** The invariant of a match *)

(** What holds of every player of a match: between 0 and 3 lives, out
    exactly when no life is left, never below the ground, and the jump
    impulse of the constructor. *)
Definition player_ok (p : Player.t) : Prop :=
  (0 <= Player.lives p <= 3)%Z /\
  (Player.out p = true <-> Player.lives p = 0%Z) /\
  Player.y p <= 0 /\
  Player.jumpVelocity p = 700.

(** A player as the constructor makes it, before anything happened. *)
Definition fresh (p : Player.t) : Prop :=
  player_ok p /\ Player.out p = false.

(** What holds of the game in every state of a match. *)
Definition game_ok (g : Game.t) : Prop :=
  Game.laneCount g = 3%nat /\
  Game.baseMinSpawnTime g = 300 / 400 /\
  Game.baseMaxSpawnTime g = 800 / 400 /\
  in_spawn_range g (Game.nextSpawnInterval g) /\
  Game.bgPatternWidth g = 300 /\
  List.length (Game.bgOffsets g) = Game.laneCount g /\
  List.length (Game.bgRadii g) = Game.laneCount g /\
  Game.speedIncreaseFactor g = 1.3 /\
  0 < Game.speed g /\
  (3 <= List.length (Game.players g))%nat /\
  Forall player_ok (Game.players g) /\
  (Game.gameOver g = true <->
   (Game.laneCount g <= count_out (Game.players g))%nat).

(** ** Runs *)

(** Handling a list of events, one after the other. *)
Definition replay (draws : nat -> Q) (fuel : nat) (events : list event)
    (w : World) : outcome World :=
  fold_left (fun o e => bind o (handle draws fuel e)) events (Normal w).

(** The state a replay ends in, or the state it started from when it did
    not return. *)
Definition replayed (draws : nat -> Q) (fuel : nat) (events : list event)
    (w : World) : World :=
  match replay draws fuel events w with
  | Normal w' => w'
  | _ => w
  end.

(** [count] frames, [every] milliseconds apart, the first at [first]. *)
Definition frames (first every : Z) (count : nat) : list event :=
  map (fun i => Frame (inject_Z (first + every * Z.of_nat i)))
    (seq 0 count).

(** ** Sample matches *)

(** A random source that always draws one half. *)
Definition half : nat -> Q := fun _ => 1 # 2.

(** One human and two bots on an 800 pixel canvas, as the page starts
    them. *)
Definition w_start : World := startGame half ["Player"%string] 2 800 0.

(** The sample match after its first frame, at 1 s. *)
Definition w_first : World := replayed half 100 [Frame 1000] w_start.

(** The sample match after a first frame at 1 s and a second at 5 s:
    four seconds have elapsed. *)
Definition w_4s : World := replayed half 100 [Frame 1000; Frame 5000] w_start.

(** The sample match with its human player jumping at 1 s, jumping
    again in the air 0.21 s later, and a frame 0.42 s after that. *)
Definition w_landed : World :=
  replayed half 100 [Frame 1000; Press; Frame 1210; Press; Frame 1630]
    w_start.

(** Three lanes filled with the bots that never react. *)
Definition w_bots : World := startGame half [] 0 800 0.

(** The match of the three bots after twelve frames, half a second
    apart: the first obstacle is about to reach them. *)
Definition w_bots_6s : World :=
  replayed half 100 (frames 1000 500 12) w_bots.

(** The match of the three bots one frame after [w_bots_6s]: the
    obstacle has reached them. *)
Definition w_bots_hit : World :=
  replayed half 100 (frames 1000 500 13) w_bots.

(** The first bot of the match, before that frame. *)
Definition bot_before_hit : Player.t :=
  hd (Player.constructor "" 0 true 1.0) (Game.players (game w_bots_6s)).

(** The same match after seventeen frames: every bot is down to its
    last life, with an obstacle one frame away. *)
Definition w_bots_8s : World :=
  replayed half 100 (frames 1000 500 17) w_bots.

(** The match of the three bots one frame after [w_bots_8s]. *)
Definition w_bots_over : World :=
  replayed half 100 [Frame 9500] w_bots_8s.

(** ** Obstacles *)

(** The four tags [spawnObstacle] chooses from. *)
Definition types : list string := ["snake"; "rock"; "hole"; "spike"]%string.

(** The range of width and height the constructor draws from, by tag.
    The upper ends are included: a draw just below 1 can round up to
    them in the floating-point arithmetic of the source. *)
Definition geometry (tag : string) (o : Obstacle.t) : Prop :=
  if String.eqb tag "snake" then
    (50 <= Obstacle.width o /\ Obstacle.width o <= 80) /\
    (20 <= Obstacle.height o /\ Obstacle.height o <= 30)
  else if String.eqb tag "rock" then
    (40 <= Obstacle.width o /\ Obstacle.width o <= 70) /\
    (30 <= Obstacle.height o /\ Obstacle.height o <= 50)
  else if String.eqb tag "hole" then
    (70 <= Obstacle.width o /\ Obstacle.width o <= 120) /\
    Obstacle.height o = 1
  else
    (50 <= Obstacle.width o /\ Obstacle.width o <= 80) /\
    (40 <= Obstacle.height o /\ Obstacle.height o <= 60).

(** An obstacle with one of the four tags and the geometry of its tag. *)
Definition obstacle_ok (o : Obstacle.t) : Prop :=
  exists tag,
    Obstacle.type o = Some tag /\ In tag types /\ geometry tag o.

(** ** Players of a new match *)

(** The players [initializePlayers] makes for the human names, for
    [botCount] bots after [humans] humans, and for [todo] lanes left
    empty from lane [first] on. *)
Definition humanPlayers (names : list string) : list Player.t :=
  map (fun '(i, name) => Player.constructor name i false 0.1)
    (combine (seq 0 (List.length names)) names).

Definition botPlayers (humans botCount : nat) : list Player.t :=
  map (fun b =>
         Player.constructor ("Bot " ++ decimal (b + 1))%string
           (humans + b) true 0.05)
    (seq 0 botCount).

Definition fillerPlayers (first todo : nat) : list Player.t :=
  map (fun k =>
         Player.constructor ("Bot " ++ decimal (first + k + 1))%string
           (first + k) true 1.0)
    (seq 0 todo).

(** An obstacle wholly left of the screen. *)
Definition off_screen (o : Obstacle.t) : Prop :=
  Obstacle.x o + Obstacle.width o < 0.

(** ** The difficulty ladder *)

(** The speed after [k] increases, and the threshold of the next one. *)
Definition bumps (k : nat) : Q := Nat.iter k (fun s => s * 1.3) 400.

Definition threshold (k : nat) : Q := Nat.iter k (fun t => t + 5) 5.

(** A player as [new Player] leaves it, but for its identity. *)
Definition at_rest (p : Player.t) : Prop :=
  Player.y p == 0 /\ Player.vy p == 0 /\ Player.time p == 0 /\
  Player.lives p = 3%Z /\ Player.out p = false /\
  Player.invulnerable p = false /\ Player.doubleJumpAvailable p = true.

(** ** What a match never writes *)

(** The fields of a player that no method assigns after the
    constructor. *)
Definition identity (p : Player.t)
    : string * nat * bool * Q * Q * Q * Q * Q * Q * Z :=
  (Player.name p, Player.lane p, Player.isBot p, Player.errorRate p,
   Player.x p, Player.width p, Player.height p, Player.gravity p,
   Player.jumpVelocity p, Player.passedObstacles p).

(** The body the constructor gives every player, in lane [i]. *)
Definition body (i : nat) (p : Player.t) : Prop :=
  Player.lane p = i /\ Player.x p = 150 /\ Player.width p = 60 /\
  Player.height p = 40 /\ Player.gravity p = 2000 /\
  Player.jumpVelocity p = 700 /\ Player.passedObstacles p = 0%Z.

(** The invulnerability timer runs: it is positive while the player is
    invulnerable. *)
Definition timer_runs (p : Player.t) : Prop :=
  Player.invulnerable p = true -> 0 < Player.invulnTimer p.

(** The survival time of a player still in the match is the clock of
    the match. *)
Definition on_clock (g : Game.t) (p : Player.t) : Prop :=
  Player.out p = false -> Player.time p == Game.elapsedTime g.

(** The first bot of the match of three bots, just hit. *)
Definition bot_after_hit : Player.t :=
  hd (Player.constructor "Bot" 0 true 1.0) (Game.players (game w_bots_hit)).

(** ** The page around the match *)

(** [a] is listed before [b]: by longer time, and by position among
    equal times. *)
Definition listed_before (a b : entry) : Prop :=
  entryTime b < entryTime a \/
  (entryTime a == entryTime b /\ (idx a < idx b)%nat).

(** The characters of a string. *)
Definition letters (s : string) : list Ascii.ascii := list_ascii_of_string s.

(** ** The dunes of the background *)

(** A radius as the background draws it: 70% to 150% of the base
    radius of 60, both ends included. *)
Definition dune (r : Q) : Prop := 42 <= r /\ r <= 90.

(** [segmentsNeeded] for a canvas of width [cw]. *)
Definition segments (cw : Q) : nat := Z.to_nat (Qceiling (cw / 300) + 2).

(** One lane's dunes for [k] segments: a lane made without any segment
    gains one dune the first time it scrolls. *)
Definition row_ok (k : nat) (row : list Q) : Prop :=
  Forall dune row /\
  (List.length row = k \/ (k = 0%nat /\ List.length row = 1%nat)).

(** The background of a match in good order. *)
Definition dunes_ok (w : World) : Prop :=
  Game.bgBaseRadius (game w) = 60 /\
  Forall (fun offset => - (300) < offset) (Game.bgOffsets (game w)) /\
  Forall (row_ok (segments (canvasWidth w))) (Game.bgRadii (game w)).

(** ** Flight *)

(** 4000 times the height of the apex that a player's position and
    velocity predict under gravity 2000: [y - vy² / (2 * 2000)]. *)
Definition apex (p : Player.t) : Q :=
  4000 * Player.y p - Player.vy p * Player.vy p.

(** A player within reach of two jumps from the ground, and of one
    while the double jump is still to come. *)
Definition flight_ok (p : Player.t) : Prop :=
  - (980000) <= apex p /\
  (Player.doubleJumpAvailable p = true -> - (490000) <= apex p).

(** The strip of the track that every player occupies. *)
Definition in_strip (obs : Obstacle.t) : Prop :=
  Obstacle.x obs < 210 /\ 150 < Obstacle.x obs + Obstacle.width obs.

(** The human player of the sample match after its two jumps. *)
Definition human_landed : Player.t :=
  hd (Player.constructor "Player" 0 false 0.1)
    (Game.players (game w_landed)).

(** ** Frames that run no loop *)

(** What a frame needs to find so that a [dt] below zero takes it
    through neither of its two [while] loops: a parallax factor of 0.6,
    and a spawn timer short of the next interval. *)
Definition frame_ready (w : World) : Prop :=
  Game.bgSpeedFactor (game w) = 0.6 /\
  Game.spawnTimer (game w) < Game.nextSpawnInterval (game w).

(** ** The spawn scheduler, as the design describes it *)







(** * Properties *)

(** ** Comparisons *)

Lemma Qlt_bool_iff (a b : Q) : Qlt_bool a b = true <-> a < b.
Proof.
  unfold Qlt_bool. rewrite negb_true_iff.
  split; intro H.
  - apply Qnot_le_lt. intro Hle. apply Qle_bool_iff in Hle. congruence.
  - destruct (Qle_bool b a) eqn:E; [|reflexivity].
    apply Qle_bool_iff in E. exfalso. exact (Qlt_not_le _ _ H E).
Qed.

Lemma Qlt_bool_false (a b : Q) : Qlt_bool a b = false <-> b <= a.
Proof.
  unfold Qlt_bool. rewrite negb_false_iff. apply Qle_bool_iff.
Qed.

Lemma Qle_bool_false (a b : Q) : Qle_bool a b = false <-> b < a.
Proof.
  rewrite <- Qlt_bool_iff. unfold Qlt_bool.
  destruct (Qle_bool a b); simpl; intuition congruence.
Qed.

Lemma Qeq_bool_false (a b : Q) : Qeq_bool a b = false <-> ~ a == b.
Proof.
  rewrite <- Qeq_bool_iff. destruct (Qeq_bool a b); intuition congruence.
Qed.

(** Turn every boolean comparison in the context into its proposition. *)
Ltac reflect_cmp :=
  repeat match goal with
  | H : Qlt_bool _ _ = true |- _ => apply Qlt_bool_iff in H
  | H : Qlt_bool _ _ = false |- _ => apply Qlt_bool_false in H
  | H : Qle_bool _ _ = true |- _ => apply Qle_bool_iff in H
  | H : Qle_bool _ _ = false |- _ => apply Qle_bool_false in H
  | H : Qeq_bool _ _ = true |- _ => apply Qeq_bool_iff in H
  | H : Qeq_bool _ _ = false |- _ => apply Qeq_bool_false in H
  end.

(** ** Player.jump *)

Lemma jump_out (p : Player.t) : Player.out p = true -> Player.jump p = p.
Proof. unfold Player.jump. intros ->. reflexivity. Qed.

Lemma jump_grounded (p : Player.t) :
  Player.out p = false -> Player.y p == 0 ->
  Player.jump p =
  Player.set_doubleJumpAvailable true
    (Player.set_vy (- Player.jumpVelocity p) p).
Proof.
  intros Ho Hy. unfold Player.jump. rewrite Ho.
  apply Qeq_bool_iff in Hy. rewrite Hy. reflexivity.
Qed.

Lemma jump_double (p : Player.t) :
  Player.out p = false -> ~ Player.y p == 0 ->
  Player.doubleJumpAvailable p = true ->
  Player.jump p =
  Player.set_doubleJumpAvailable false
    (Player.set_vy (- Player.jumpVelocity p) p).
Proof.
  intros Ho Hy Hd. unfold Player.jump. rewrite Ho.
  apply Qeq_bool_false in Hy. rewrite Hy, Hd. reflexivity.
Qed.

Lemma jump_spent (p : Player.t) :
  ~ Player.y p == 0 -> Player.doubleJumpAvailable p = false ->
  Player.jump p = p.
Proof.
  intros Hy Hd. unfold Player.jump.
  apply Qeq_bool_false in Hy. rewrite Hy, Hd.
  destruct (Player.out p); reflexivity.
Qed.

(** [jump] writes [vy] and [doubleJumpAvailable] and nothing else. *)
Lemma jump_frame (p : Player.t) :
  Player.jump p =
  Player.set_doubleJumpAvailable (Player.doubleJumpAvailable (Player.jump p))
    (Player.set_vy (Player.vy (Player.jump p)) p).
Proof.
  unfold Player.jump.
  destruct (Player.out p), (Qeq_bool (Player.y p) 0),
    (Player.doubleJumpAvailable p) eqn:E; destruct p; simpl in *;
    try rewrite E; reflexivity.
Qed.

(** ** Player.updatePhysics *)

Lemma updatePhysics_out (dt : Q) (p : Player.t) :
  Player.out p = true -> Player.updatePhysics dt p = p.
Proof. unfold Player.updatePhysics. intros ->. reflexivity. Qed.

Lemma updatePhysics_clamped (dt : Q) (p : Player.t) :
  Player.out p = false -> 0 < integrated_y dt p ->
  let p' := Player.updatePhysics dt p in
  Player.y p' = 0 /\ Player.vy p' = 0 /\
  Player.doubleJumpAvailable p' = true.
Proof.
  intros Ho Hy. unfold Player.updatePhysics. rewrite Ho. simpl.
  apply Qlt_bool_iff in Hy. unfold integrated_y in Hy. rewrite Hy. simpl.
  destruct (Player.invulnerable p); simpl;
    [destruct (Qle_bool _ _)|]; simpl; auto.
Qed.

Lemma updatePhysics_free (dt : Q) (p : Player.t) :
  Player.out p = false -> integrated_y dt p <= 0 ->
  let p' := Player.updatePhysics dt p in
  Player.y p' = integrated_y dt p /\
  Player.vy p' = Player.vy p + Player.gravity p * dt /\
  Player.doubleJumpAvailable p' = Player.doubleJumpAvailable p.
Proof.
  intros Ho Hy. unfold Player.updatePhysics. rewrite Ho. simpl.
  apply Qlt_bool_false in Hy. unfold integrated_y in *. rewrite Hy. simpl.
  destruct (Player.invulnerable p); simpl;
    [destruct (Qle_bool _ _)|]; simpl; auto.
Qed.

Lemma updatePhysics_y_le (dt : Q) (p : Player.t) :
  Player.out p = false -> Player.y (Player.updatePhysics dt p) <= 0.
Proof.
  intros Ho. destruct (Qlt_le_dec 0 (integrated_y dt p)) as [H|H].
  - destruct (updatePhysics_clamped dt p Ho H) as (-> & _). lra.
  - destruct (updatePhysics_free dt p Ho H) as (-> & _). exact H.
Qed.

Lemma updatePhysics_out_same (dt : Q) (p : Player.t) :
  Player.out (Player.updatePhysics dt p) = Player.out p.
Proof.
  unfold Player.updatePhysics. destruct (Player.out p) eqn:Ho; [exact Ho|].
  simpl. destruct (Qlt_bool _ _); simpl;
    destruct (Player.invulnerable p); simpl;
    try destruct (Qle_bool _ _); simpl; exact Ho.
Qed.

Lemma jump_jumpVelocity (p : Player.t) :
  Player.jumpVelocity (Player.jump p) = Player.jumpVelocity p.
Proof. rewrite jump_frame. reflexivity. Qed.

Lemma jump_out_same (p : Player.t) :
  Player.out (Player.jump p) = Player.out p.
Proof. rewrite jump_frame. reflexivity. Qed.

Lemma jump_y (p : Player.t) : Player.y (Player.jump p) = Player.y p.
Proof. rewrite jump_frame. reflexivity. Qed.

Lemma updatePhysics_jumpVelocity (dt : Q) (p : Player.t) :
  Player.jumpVelocity (Player.updatePhysics dt p) = Player.jumpVelocity p.
Proof.
  unfold Player.updatePhysics. destruct (Player.out p); [reflexivity|].
  simpl. destruct (Qlt_bool _ _); simpl;
    destruct (Player.invulnerable p); simpl;
    try destruct (Qle_bool _ _); reflexivity.
Qed.

(** Without a clamp the flag for the double jump survives the update. *)
Lemma updatePhysics_airborne (dt : Q) (p : Player.t) :
  ~ Player.y (Player.updatePhysics dt p) == 0 ->
  Player.doubleJumpAvailable (Player.updatePhysics dt p)
  = Player.doubleJumpAvailable p.
Proof.
  intros Hy. destruct (Player.out p) eqn:Ho.
  - rewrite updatePhysics_out by exact Ho. reflexivity.
  - destruct (Qlt_le_dec 0 (integrated_y dt p)) as [H|H].
    + destruct (updatePhysics_clamped dt p Ho H) as (E & _).
      exfalso. apply Hy. rewrite E. reflexivity.
    + apply (updatePhysics_free dt p Ho H).
Qed.

(** C5. [jump()] does nothing for a player that is out; on the ground
    ([y == 0]) it sets [vy = -jumpVelocity] and grants the double jump; in
    the air with the double jump available it sets [vy = -jumpVelocity]
    and consumes the double jump; in the air without it, it changes
    nothing.  [jumpVelocity] is 700 for every constructed player.  Hence,
    from the ground, a jump and a second jump in the air both set [vy],
    and a third call before landing leaves the player as it is. *)
Theorem jump_double_jump_limit (p : Player.t) :
  (Player.out p = true -> Player.jump p = p) /\
  (Player.out p = false -> Player.y p == 0 ->
     Player.vy (Player.jump p) = - Player.jumpVelocity p /\
     Player.doubleJumpAvailable (Player.jump p) = true) /\
  (Player.out p = false -> ~ Player.y p == 0 ->
   Player.doubleJumpAvailable p = true ->
     Player.vy (Player.jump p) = - Player.jumpVelocity p /\
     Player.doubleJumpAvailable (Player.jump p) = false) /\
  (~ Player.y p == 0 -> Player.doubleJumpAvailable p = false ->
     Player.jump p = p) /\
  (forall name lane isBot errorRate,
     Player.jumpVelocity (Player.constructor name lane isBot errorRate)
     = 700) /\
  (forall dt1 dt2,
     Player.out p = false -> Player.y p == 0 ->
     let p1 := Player.jump p in
     let p2 := Player.updatePhysics dt1 p1 in
     let p3 := Player.jump p2 in
     let p4 := Player.updatePhysics dt2 p3 in
     ~ Player.y p2 == 0 -> ~ Player.y p4 == 0 ->
     Player.vy p1 = - Player.jumpVelocity p /\
     Player.vy p3 = - Player.jumpVelocity p /\
     Player.doubleJumpAvailable p3 = false /\
     Player.jump p3 = p3 /\
     Player.vy (Player.jump p4) = Player.vy p4 /\
     Player.jump p4 = p4).
Proof.
  split; [apply jump_out|].
  split; [intros Ho Hy; rewrite jump_grounded by assumption; split;
          reflexivity|].
  split; [intros Ho Hy Hd; rewrite jump_double by assumption; split;
          reflexivity|].
  split; [apply jump_spent|].
  split; [reflexivity|].
  intros dt1 dt2 Ho Hy p1 p2 p3 p4 Hy2 Hy4.
  assert (Hd1 : Player.doubleJumpAvailable p1 = true).
  { unfold p1. rewrite jump_grounded by assumption. reflexivity. }
  assert (Ho2 : Player.out p2 = false).
  { unfold p2, p1. rewrite updatePhysics_out_same, jump_out_same.
    exact Ho. }
  assert (Hd2 : Player.doubleJumpAvailable p2 = true).
  { unfold p2. rewrite updatePhysics_airborne by exact Hy2. exact Hd1. }
  assert (Hj2 : Player.jumpVelocity p2 = Player.jumpVelocity p).
  { unfold p2, p1.
    rewrite updatePhysics_jumpVelocity, jump_jumpVelocity. reflexivity. }
  assert (E3 : p3 = Player.set_doubleJumpAvailable false
                      (Player.set_vy (- Player.jumpVelocity p2) p2)).
  { unfold p3. apply jump_double; assumption. }
  assert (Hd3 : Player.doubleJumpAvailable p3 = false).
  { rewrite E3. reflexivity. }
  assert (Hy3 : ~ Player.y p3 == 0).
  { unfold p3. rewrite jump_y. exact Hy2. }
  assert (Hd4 : Player.doubleJumpAvailable p4 = false).
  { unfold p4. rewrite updatePhysics_airborne by exact Hy4. exact Hd3. }
  assert (E4 : Player.jump p4 = p4) by (apply jump_spent; assumption).
  repeat split.
  - unfold p1. rewrite jump_grounded by assumption. reflexivity.
  - rewrite E3, <- Hj2. reflexivity.
  - exact Hd3.
  - apply jump_spent; assumption.
  - rewrite E4. reflexivity.
  - exact E4.
Qed.

(** A run of the scenario of C5: jump, 0.1 s, jump, 0.1 s, jump. *)
Lemma jump_double_jump_limit_witness :
  let p := Player.constructor "Player" 0 false 0.1 in
  let p4 :=
    Player.updatePhysics 0.1
      (Player.jump (Player.updatePhysics 0.1 (Player.jump p))) in
  Player.jump p4 = p4.
Proof.
  intros p p4.
  destruct (jump_double_jump_limit p) as (_ & _ & _ & _ & _ & H).
  apply (H 0.1 0.1).
  - reflexivity.
  - reflexivity.
  - vm_compute. discriminate.
  - vm_compute. discriminate.
Defined.

(** ** Obstacle.constructor *)

Lemma is_type_false (tag : string) (type : option string) :
  type <> Some tag -> Obstacle.is_type tag type = false.
Proof.
  destruct type as [s|]; simpl; [|reflexivity].
  intros H. apply String.eqb_neq. congruence.
Qed.

(** C9. The obstacle constructor returns an obstacle for every [type]
    argument; for a tag other than ["snake"], ["rock"] and ["hole"], known
    or not, it takes the spike arm: width in [50, 80], height in
    [40, 60]. *)
Theorem obstacle_default_is_spike (draws : nat -> Q) (x : Q)
    (type : option string) (n : nat) :
  unit_draws draws ->
  type <> Some "snake"%string -> type <> Some "rock"%string ->
  type <> Some "hole"%string ->
  exists o n',
    Obstacle.constructor draws x type n = (o, n') /\
    Obstacle.x o = x /\ Obstacle.type o = type /\
    Obstacle.width o = 50 + draws n * 30 /\
    Obstacle.height o = 40 + draws (S n) * 20 /\
    Obstacle.color o = Obstacle.hsl (330 + draws (S (S n)) * 30) 60 50 /\
    (50 <= Obstacle.width o /\ Obstacle.width o <= 80) /\
    (40 <= Obstacle.height o /\ Obstacle.height o <= 60).
Proof.
  intros Hd Hs Hr Hh. unfold Obstacle.constructor.
  rewrite (is_type_false _ _ Hs), (is_type_false _ _ Hr),
    (is_type_false _ _ Hh).
  simpl. eexists. eexists. split; [reflexivity|]. simpl.
  destruct (Hd n) as [H0 H1]. destruct (Hd (S n)) as [H2 H3].
  repeat split; try reflexivity; lra.
Qed.

(** An unknown tag and the missing tag both give a spike-sized obstacle. *)
Lemma obstacle_default_is_spike_witness :
  exists o n',
    Obstacle.constructor (fun _ => 1 # 2) 850 (Some "cactus"%string) 0
    = (o, n') /\
    Obstacle.x o = 850 /\ Obstacle.type o = Some "cactus"%string /\
    Obstacle.width o = 50 + (1 # 2) * 30 /\
    Obstacle.height o = 40 + (1 # 2) * 20 /\
    Obstacle.color o = Obstacle.hsl (330 + (1 # 2) * 30) 60 50 /\
    (50 <= Obstacle.width o /\ Obstacle.width o <= 80) /\
    (40 <= Obstacle.height o /\ Obstacle.height o <= 60).
Proof.
  apply (obstacle_default_is_spike (fun _ => 1 # 2) 850
           (Some "cactus"%string) 0).
  - intros k. split; simpl; lra.
  - discriminate.
  - discriminate.
  - discriminate.
Defined.

(** ** Game.handleBot *)

(** What [handleBot] does, read off its loop: either the bot is returned
    as it came, or [jump()] was called on it, and then the bot stood on
    the ground, the first obstacle whose right edge is ahead of it is
    closer than the threshold, and the draw exceeded [errorRate]. *)
Lemma handleBotScan_cases (draws : nat -> Q) (obstacles : list Obstacle.t)
    (speed : Q) (bot : Player.t) (n : nat) :
  (exists n', Game.handleBotScan draws obstacles speed bot n = (bot, n')) \/
  (Game.handleBotScan draws obstacles speed bot n = (Player.jump bot, S n) /\
   Player.y bot == 0 /\
   Player.errorRate bot < draws n /\
   exists passed obs rest,
     obstacles = passed ++ obs :: rest /\
     Forall (fun o => Obstacle.x o + Obstacle.width o <= Player.x bot)
       passed /\
     Player.x bot < Obstacle.x obs + Obstacle.width obs /\
     Obstacle.x obs - Player.x bot
     < (Player.jumpVelocity bot / speed) * 200).
Proof.
  induction obstacles as [|obs rest IH]; simpl.
  - left. eexists. reflexivity.
  - destruct (Qlt_bool (Player.x bot) _) eqn:Eahead.
    + destruct (Qlt_bool (Obstacle.x obs - Player.x bot) _) eqn:Enear;
        simpl; [|left; eexists; reflexivity].
      destruct (Qeq_bool (Player.y bot) 0) eqn:Ey;
        simpl; [|left; eexists; reflexivity].
      destruct (Qlt_bool (Player.errorRate bot) (draws n)) eqn:Er;
        [|left; eexists; reflexivity].
      right. reflect_cmp. repeat split; try assumption.
      exists [], obs, rest. repeat split; auto.
    + destruct IH as [IH | (E & Hy & Hr & passed & o & rest' & -> & Hp & Ha & Hn)].
      * left. exact IH.
      * right. repeat split; try assumption.
        exists (obs :: passed), o, rest'. reflect_cmp.
        repeat split; auto.
Qed.

(** C8. A bot whose [errorRate] is 1.0 is never made to jump by
    [handleBot], whatever the obstacles, the speed and the draw in
    [0, 1), so that the physics of every frame run on the bot as it
    was; in general [handleBot] calls [jump()] only for a bot on the
    ground ([y == 0]) whose nearest upcoming obstacle has its leading edge
    closer than [(jumpVelocity / speed) * 200], and only when the draw
    strictly exceeds [errorRate]. *)
Theorem bot_jumps_only_when (draws : nat -> Q) (g : Game.t)
    (bot : Player.t) (n : nat) :
  (unit_draws draws -> Player.errorRate bot == 1 ->
     (exists n', Game.handleBot draws g bot n = (bot, n')) /\
     forall dt,
       after_physics draws g dt bot n = Player.updatePhysics dt bot) /\
  ((exists n', Game.handleBot draws g bot n = (bot, n')) \/
   (Game.handleBot draws g bot n = (Player.jump bot, S n) /\
    Player.y bot == 0 /\
    Player.errorRate bot < draws n /\
    exists passed obs rest,
      Game.obstacles g = passed ++ obs :: rest /\
      Forall (fun o => Obstacle.x o + Obstacle.width o <= Player.x bot)
        passed /\
      Player.x bot < Obstacle.x obs + Obstacle.width obs /\
      Obstacle.x obs - Player.x bot
      < (Player.jumpVelocity bot / Game.speed g) * 200)).
Proof.
  unfold Game.handleBot.
  pose proof (handleBotScan_cases draws (Game.obstacles g) (Game.speed g)
                bot n) as H.
  split; [|exact H].
  intros Hd He. destruct H as [[n' H] | (_ & _ & Hr & _)].
  - split; [exists n'; exact H|].
    intros dt. unfold after_physics, Game.handleBot. rewrite H.
    destruct (Player.isBot bot); reflexivity.
  - exfalso. destruct (Hd n) as [_ H1]. rewrite He in Hr. lra.
Qed.

(** ** What each phase of [update] leaves alone *)

Lemma bgLanes_frame (draws : nat -> Q) (fuel todo : nat) :
  forall laneIndex dt g n g' n',
    Game.bgLanes draws fuel todo laneIndex dt g n = Normal (g', n') ->
    no_bg g' = no_bg g.
Proof.
  induction todo as [|todo IH]; intros laneIndex dt g n g' n' H; simpl in H.
  - injection H as <- <-. reflexivity.
  - destruct (nth_error (Game.bgRadii g) laneIndex) as [radii|];
      [|discriminate].
    destruct (nth_error (Game.bgOffsets g) laneIndex) as [offset|];
      [|discriminate].
    destruct (Game.bgScroll _ _ _ _ _ _ _) as [[[offset' radii'] n1]| |];
      simpl in H; try discriminate.
    apply IH in H. rewrite H. destruct g. reflexivity.
Qed.

Lemma spawnObstacle_frame (draws : nat -> Q) (cw : Q) (g : Game.t)
    (n : nat) :
  no_spawn (fst (Game.spawnObstacle draws cw g n)) = no_spawn g.
Proof.
  unfold Game.spawnObstacle. simpl.
  destruct (Obstacle.constructor _ _ _ _) as [obs n1]. simpl.
  destruct g. reflexivity.
Qed.

Lemma spawnLoop_frame (draws : nat -> Q) (fuel : nat) :
  forall cw g n g' n',
    Game.spawnLoop draws fuel cw g n = Normal (g', n') ->
    no_spawn g' = no_spawn g.
Proof.
  induction fuel as [|fuel IH]; intros cw g n g' n' H; simpl in H.
  - destruct (Qle_bool _ _); [discriminate|]. injection H as <- <-.
    reflexivity.
  - destruct (Qle_bool _ _); [|injection H as <- <-; reflexivity].
    pose proof (spawnObstacle_frame draws cw
                  (Game.set_spawnTimer
                     (Game.spawnTimer g - Game.nextSpawnInterval g) g) n)
      as Hs.
    destruct (Game.spawnObstacle _ _ _ _) as [g1 n1]. simpl in Hs.
    destruct (Game.randomSpawnInterval draws g1 n1) as [interval n2] eqn:Er.
    apply IH in H. rewrite H.
    transitivity (no_spawn g1); [destruct g1; reflexivity|].
    rewrite Hs. destruct g. reflexivity.
Qed.

Lemma updatePlayers_spec (draws : nat -> Q) (g : Game.t) (dt : Q) :
  forall players n outCount players' n' outCount',
    Game.updatePlayers draws g dt players n outCount
    = (players', n', outCount') ->
    Forall2 (ticked draws g dt) players players' /\
    outCount' = (outCount + count_out players')%nat.
Proof.
  induction players as [|p rest IH];
    intros n outCount players' n' outCount' H; simpl in H.
  - injection H as <- <- <-. split; [constructor|].
    unfold count_out. simpl. lia.
  - destruct (Game.playerTick draws g dt p n) as [p1 n1] eqn:Et.
    destruct (Game.updatePlayers draws g dt rest n1 _)
      as [[rest1 n2] oc2] eqn:Er.
    injection H as <- <- <-.
    apply IH in Er. destruct Er as [HF Hc]. split.
    + constructor; [|exact HF]. exists n. rewrite Et. reflexivity.
    + rewrite Hc. unfold count_out. simpl.
      destruct (Player.out p1); simpl; lia.
Qed.

(** [update] on a game that is over returns at once. *)
Lemma update_gameOver (draws : nat -> Q) (fuel : nat) (ts cw : Q)
    (g : Game.t) (n : nat) :
  Game.gameOver g = true ->
  Game.update draws fuel ts cw g n = Normal (g, n).
Proof. unfold Game.update. intros ->. reflexivity. Qed.

(** [update] on a running game, phase by phase. *)
Lemma update_inv (draws : nat -> Q) (fuel : nat) (ts cw : Q) (g : Game.t)
    (n : nat) (g' : Game.t) (n' : nat) :
  Game.gameOver g = false ->
  Game.update draws fuel ts cw g n = Normal (g', n') ->
  let dt := Game.frameDt ts g in
  let gd := before_bg ts g in
  exists gb nb gs ns players outCount,
    Game.bgLanes draws fuel (Game.laneCount gd) 0 dt gd n = Normal (gb, nb) /\
    Game.spawnLoop draws fuel cw (before_spawn dt gb) nb = Normal (gs, ns) /\
    Game.updatePlayers draws gs dt (Game.players gs) ns 0
    = (players, n', outCount) /\
    g' = after_players players outCount gs.
Proof.
  intros Hover H dt gd. unfold Game.update in H. rewrite Hover in H.
  match type of H with bind ?m _ = _ =>
    destruct m as [[gb nb]| |] eqn:Eb; simpl in H; try discriminate end.
  match type of H with bind ?m _ = _ =>
    destruct m as [[gs ns]| |] eqn:Es; simpl in H; try discriminate end.
  destruct (Game.updatePlayers draws gs (Game.frameDt ts g)
              (Game.players gs) ns 0)
    as [[players n1] outCount] eqn:Ep.
  injection H as <- <-.
  exists gb, nb, gs, ns, players, outCount.
  repeat split; assumption || reflexivity.
Qed.

Lemma no_spawn_before_spawn (dt : Q) (g : Game.t) :
  no_spawn (before_spawn dt g) = no_spawn g.
Proof. destruct g. reflexivity. Qed.

Lemma no_bg_no_spawn (g : Game.t) : no_bg (no_spawn g) = no_spawn (no_bg g).
Proof. destruct g. reflexivity. Qed.

Lemma before_bg_players (ts : Q) (g : Game.t) :
  Game.players (before_bg ts g) = Game.players g.
Proof.
  unfold before_bg, Game.difficulty. simpl.
  destruct (Qle_bool _ _); reflexivity.
Qed.

(** A frame of a running game: the player loop runs on a game [gs] that
    differs from the game after the difficulty step only in its
    background and spawn fields. *)
Lemma update_running (draws : nat -> Q) (fuel : nat) (ts cw : Q)
    (g : Game.t) (n : nat) (g' : Game.t) (n' : nat) :
  Game.gameOver g = false ->
  Game.update draws fuel ts cw g n = Normal (g', n') ->
  exists gs players,
    no_bg (no_spawn gs) = no_bg (no_spawn (before_bg ts g)) /\
    Forall2 (ticked draws gs (Game.frameDt ts g)) (Game.players g) players /\
    g' = after_players players (count_out players) gs.
Proof.
  intros Hover H.
  destruct (update_inv _ _ _ _ _ _ _ _ Hover H)
    as (gb & nb & gs & ns & players & outCount & Hb & Hs & Hp & ->).
  apply bgLanes_frame in Hb. apply spawnLoop_frame in Hs.
  rewrite no_spawn_before_spawn in Hs.
  apply updatePlayers_spec in Hp. destruct Hp as [HF ->].
  assert (Hcore : no_bg (no_spawn gs) = no_bg (no_spawn (before_bg ts g))).
  { rewrite Hs, !no_bg_no_spawn, Hb. reflexivity. }
  exists gs, players. split; [exact Hcore|]. split; [|reflexivity].
  apply (f_equal Game.players) in Hcore. simpl in Hcore.
  rewrite before_bg_players in Hcore. rewrite <- Hcore. exact HF.
Qed.

(** ** The [while] loops of [update] come to an end *)

Lemma randomSpawnInterval_eq (draws : nat -> Q) (g : Game.t) (n : nat) :
  Game.randomSpawnInterval draws g n
  = (Game.baseMinSpawnTime g
     + draws n * (Game.baseMaxSpawnTime g - Game.baseMinSpawnTime g), S n).
Proof. reflexivity. Qed.


Lemma inject_nat_S (k : nat) :
  inject_Z (Z.of_nat (S k)) == inject_Z (Z.of_nat k) + 1.
Proof. rewrite Nat2Z.inj_succ. unfold Z.succ. rewrite inject_Z_plus. reflexivity. Qed.

Lemma inject_nat_nonneg (k : nat) : 0 <= inject_Z (Z.of_nat k).
Proof.
  change 0 with (inject_Z 0). rewrite <- Zle_Qle. lia.
Qed.

Lemma inject_nat_le (a b : nat) :
  (a <= b)%nat -> inject_Z (Z.of_nat a) <= inject_Z (Z.of_nat b).
Proof. intros H. rewrite <- Zle_Qle. lia. Qed.

(** Every number is below some natural number of steps of a positive
    length. *)
Lemma steps_above (m x : Q) :
  0 < m -> exists k : nat, x < inject_Z (Z.of_nat k) * m.
Proof.
  intros Hm. exists (Z.to_nat (Z.max 0 (Qfloor (x / m) + 1))).
  pose proof (Qlt_floor (x / m)) as Hf.
  assert (Hx : x == (x / m) * m) by (field; lra).
  rewrite Z2Nat.id by apply Z.le_max_l.
  assert (Hk : inject_Z (Qfloor (x / m) + 1)
               <= inject_Z (Z.max 0 (Qfloor (x / m) + 1))).
  { rewrite <- Zle_Qle. apply Z.le_max_r. }
  nra.
Qed.

Lemma obstacle_x (draws : nat -> Q) (x : Q) (type : option string)
    (n : nat) :
  Obstacle.x (fst (Obstacle.constructor draws x type n)) = x.
Proof.
  unfold Obstacle.constructor.
  destruct (Obstacle.is_type "snake" type); [reflexivity|].
  destruct (Obstacle.is_type "rock" type); [reflexivity|].
  destruct (Obstacle.is_type "hole" type); reflexivity.
Qed.

Lemma spawnObstacle_eq (draws : nat -> Q) (cw : Q) (g : Game.t) (n : nat) :
  exists obs n',
    Game.spawnObstacle draws cw g n
    = (Game.set_obstacles (Game.obstacles g ++ [obs]) g, n') /\
    Obstacle.x obs = cw + 50.
Proof.
  unfold Game.spawnObstacle. simpl.
  match goal with |- context [Obstacle.constructor ?d ?x ?t ?k] =>
    pose proof (obstacle_x d x t k) as Hx;
    destruct (Obstacle.constructor d x t k) as [obs n'] end.
  exists obs, n'. split; [reflexivity|exact Hx].
Qed.

Lemma spawnLoop_step (draws : nat -> Q) (fuel : nat) (cw : Q) (g : Game.t)
    (n : nat) :
  Qle_bool (Game.nextSpawnInterval g) (Game.spawnTimer g) = true ->
  Game.spawnLoop draws (S fuel) cw g n
  = let g1 := Game.set_spawnTimer
                (Game.spawnTimer g - Game.nextSpawnInterval g) g in
    let '(g2, n2) := Game.spawnObstacle draws cw g1 n in
    let '(interval, n3) := Game.randomSpawnInterval draws g2 n2 in
    Game.spawnLoop draws fuel cw (Game.set_nextSpawnInterval interval g2) n3.
Proof. intros E. simpl. rewrite E. reflexivity. Qed.

Lemma spawnLoop_done (draws : nat -> Q) (fuel : nat) (cw : Q) (g : Game.t)
    (n : nat) :
  Qle_bool (Game.nextSpawnInterval g) (Game.spawnTimer g) = false ->
  Game.spawnLoop draws fuel cw g n = Normal (g, n).
Proof. intros E. destruct fuel; simpl; rewrite E; reflexivity. Qed.

(** The spawn loop: with enough fuel it returns, having appended one
    obstacle at the right edge per completed interval and having left a
    timer that is short of the next interval. *)
Lemma spawnLoop_spec (draws : nat -> Q) (cw : Q) :
  unit_draws draws ->
  forall k fuel g n,
    scheduler_ok g ->
    Game.spawnTimer g < inject_Z (Z.of_nat k) * Game.baseMinSpawnTime g ->
    (k <= fuel)%nat ->
    exists g' n' intervals news,
      Game.spawnLoop draws fuel cw g n = Normal (g', n') /\
      spawned draws cw g g' intervals news.
Proof.
  intros Hd. unfold spawned.
  induction k as [|k IH]; intros fuel g n Hok Hk Hfuel.
  - (* no interval can have elapsed *)
    destruct Hok as (Hm & Hmm & Hi & Hx).
    change (inject_Z (Z.of_nat 0)) with 0 in Hk.
    assert (Et : Qle_bool (Game.nextSpawnInterval g) (Game.spawnTimer g)
                 = false) by (apply Qle_bool_false; lra).
    exists g, n, [], [].
    split; [apply spawnLoop_done; exact Et|].
    rewrite app_nil_r. unfold Qsum. simpl.
    repeat split; auto; try lra.
    intros [H|H]; [congruence|exact H].
  - destruct (Qle_bool (Game.nextSpawnInterval g) (Game.spawnTimer g))
      eqn:Et.
    + destruct fuel as [|fuel]; [lia|]. rewrite spawnLoop_step by exact Et.
      cbv zeta.
      set (g1 := Game.set_spawnTimer
                   (Game.spawnTimer g - Game.nextSpawnInterval g) g).
      destruct (spawnObstacle_eq draws cw g1 n) as (obs & n1 & -> & Hobs).
      set (g2 := Game.set_obstacles (Game.obstacles g1 ++ [obs]) g1).
      assert (Hfresh : forall i, fresh_interval draws g2 i ->
                                 fresh_interval draws g i).
      { intros i [m ->]. exists m. reflexivity. }
      rewrite randomSpawnInterval_eq.
      set (interval := Game.baseMinSpawnTime g2
             + draws n1 * (Game.baseMaxSpawnTime g2
                           - Game.baseMinSpawnTime g2)).
      set (g3 := Game.set_nextSpawnInterval interval g2).
      destruct Hok as (Hm & Hmm & Hi & Hx).
      apply Qle_bool_iff in Et.
      assert (Hr : in_spawn_range g interval).
      { destruct (Hd n1) as [H0 H1]. unfold in_spawn_range, interval.
        simpl. split; nra. }
      assert (Hok3 : scheduler_ok g3).
      { unfold scheduler_ok. simpl. destruct Hr. repeat split; assumption. }
      assert (Hk3 : Game.spawnTimer g3
                    < inject_Z (Z.of_nat k) * Game.baseMinSpawnTime g3).
      { simpl. rewrite inject_nat_S in Hk. nra. }
      destruct (IH fuel g3 (S n1) Hok3 Hk3 ltac:(lia))
        as (g' & n' & intervals & news & Hrun & Hobs' & Hlen & Hxs & Hrs
            & Hhd & Htl & Hsum & Hpos & Hshort & Hok' & Hframe).
      exists g', n', (Game.nextSpawnInterval g :: intervals), (obs :: news).
      split; [exact Hrun|].
      split; [rewrite Hobs'; simpl; rewrite <- app_assoc; reflexivity|].
      split; [simpl; congruence|].
      split; [constructor; assumption|].
      split; [constructor; [split; assumption|exact Hrs]|].
      split; [reflexivity|].
      split.
      { simpl.
        destruct (intervals ++ [Game.nextSpawnInterval g']) as [|i rest];
          [constructor|].
        simpl in Hhd, Htl. injection Hhd as ->. constructor.
        - exists n1. reflexivity.
        - eapply Forall_impl; [|exact Htl]. exact Hfresh. }
      split; [unfold Qsum in *; simpl in *; lra|].
      split; [intros _; apply Hpos; right; simpl; lra|].
      split; [exact Hshort|].
      split; [exact Hok'|].
      rewrite Hframe. destruct g. reflexivity.
    + exists g, n, [], [].
      split; [apply spawnLoop_done; exact Et|].
      apply Qle_bool_false in Et.
      rewrite app_nil_r. unfold Qsum. simpl.
      repeat split; auto; try lra; try apply Hok.
      intros [H|H]; [congruence|exact H].
Qed.

Lemma scroll_fuel_mono (k k' : nat) (width x : Q) :
  0 < width -> (k <= k')%nat ->
  scroll_fuel k width x -> scroll_fuel k' width x.
Proof.
  unfold scroll_fuel. intros Hw Hk H.
  pose proof (inject_nat_le k k' Hk). nra.
Qed.

Lemma scroll_fuel_exists (width x : Q) :
  0 < width -> exists k, scroll_fuel k width x.
Proof.
  intros Hw. destruct (steps_above width (- x) Hw) as [k Hk].
  exists k. unfold scroll_fuel. nra.
Qed.

Lemma scroll_fuel_all (width c : Q) (l : list Q) :
  0 < width ->
  exists N, forall fuel, (N <= fuel)%nat ->
    Forall (fun offset => scroll_fuel fuel width (offset - c)) l.
Proof.
  intros Hw. induction l as [|x l [N IH]].
  - exists 0%nat. constructor.
  - destruct (scroll_fuel_exists width (x - c) Hw) as [k Hk].
    exists (Nat.max k N). intros fuel Hf. constructor.
    + apply (scroll_fuel_mono k); [exact Hw|lia|exact Hk].
    + apply IH. lia.
Qed.

Lemma bgScroll_total (draws : nat -> Q) (width base : Q) :
  0 < width ->
  forall k fuel offset radii n,
    scroll_fuel k width offset -> (k <= fuel)%nat ->
    exists offset' radii' n',
      Game.bgScroll draws fuel width base offset radii n
      = Normal (offset', radii', n').
Proof.
  intros Hw. induction k as [|k IH]; intros fuel offset radii n Hk Hf.
  - unfold scroll_fuel in Hk. change (inject_Z (Z.of_nat 0)) with 0 in Hk.
    assert (E : Qle_bool offset (- width) = false)
      by (apply Qle_bool_false; lra).
    destruct fuel; simpl; rewrite E; eauto.
  - destruct (Qle_bool offset (- width)) eqn:E.
    + destruct fuel as [|fuel]; [lia|]. simpl. rewrite E.
      apply IH; [|lia]. unfold scroll_fuel in *.
      rewrite inject_nat_S in Hk. lra.
    + destruct fuel; simpl; rewrite E; eauto.
Qed.

Lemma assign_length {A : Type} (i : nat) (v : A) (l : list A) :
  List.length (assign i v l) = List.length l.
Proof.
  revert i. induction l as [|a l IH]; intros [|i]; simpl; auto.
Qed.

Lemma assign_other {A : Type} (i j : nat) (v : A) (l : list A) :
  i <> j -> nth_error (assign i v l) j = nth_error l j.
Proof.
  revert i j. induction l as [|a l IH]; intros [|i] [|j] H; simpl; auto.
  congruence.
Qed.

Lemma bgLanes_lengths (draws : nat -> Q) (fuel todo : nat) :
  forall laneIndex dt g n g' n',
    Game.bgLanes draws fuel todo laneIndex dt g n = Normal (g', n') ->
    List.length (Game.bgOffsets g') = List.length (Game.bgOffsets g) /\
    List.length (Game.bgRadii g') = List.length (Game.bgRadii g).
Proof.
  induction todo as [|todo IH]; intros laneIndex dt g n g' n' H; simpl in H.
  - injection H as <- <-. split; reflexivity.
  - destruct (nth_error (Game.bgRadii g) laneIndex) as [radii|];
      [|discriminate].
    destruct (nth_error (Game.bgOffsets g) laneIndex) as [offset|];
      [|discriminate].
    destruct (Game.bgScroll _ _ _ _ _ _ _) as [[[offset' radii'] n1]| |];
      simpl in H; try discriminate.
    apply IH in H. simpl in H. rewrite !assign_length in H. exact H.
Qed.

Lemma bgLanes_total (draws : nat -> Q) (fuel : nat) (dt : Q) :
  forall todo laneIndex g n,
    0 < Game.bgPatternWidth g ->
    (laneIndex + todo <= List.length (Game.bgOffsets g))%nat ->
    (laneIndex + todo <= List.length (Game.bgRadii g))%nat ->
    (forall j offset, (laneIndex <= j)%nat ->
       nth_error (Game.bgOffsets g) j = Some offset ->
       scroll_fuel fuel (Game.bgPatternWidth g)
         (offset - Game.speed g * Game.bgSpeedFactor g * dt)) ->
    exists g' n',
      Game.bgLanes draws fuel todo laneIndex dt g n = Normal (g', n').
Proof.
  induction todo as [|todo IH]; intros laneIndex g n Hw Ho Hr Hfuel; simpl.
  - eauto.
  - destruct (nth_error (Game.bgRadii g) laneIndex) as [radii|] eqn:Er.
    2:{ apply nth_error_None in Er. lia. }
    destruct (nth_error (Game.bgOffsets g) laneIndex) as [offset|] eqn:Eo.
    2:{ apply nth_error_None in Eo. lia. }
    destruct (bgScroll_total draws (Game.bgPatternWidth g)
                (Game.bgBaseRadius g) Hw fuel fuel
                (offset - Game.speed g * Game.bgSpeedFactor g * dt)
                radii n (Hfuel _ _ (le_n _) Eo) (le_n _))
      as (offset' & radii' & n' & ->).
    simpl. apply IH; simpl.
    + exact Hw.
    + rewrite assign_length. lia.
    + rewrite assign_length. lia.
    + intros j off Hj Hn. rewrite assign_other in Hn by lia.
      apply (Hfuel j off); [lia|exact Hn].
Qed.

(** [update] on a running game, put together from its phases. *)
Lemma update_eq (draws : nat -> Q) (fuel : nat) (ts cw : Q) (g : Game.t)
    (n : nat) gb nb gs ns players n' outCount :
  Game.gameOver g = false ->
  Game.bgLanes draws fuel (Game.laneCount (before_bg ts g)) 0
    (Game.frameDt ts g) (before_bg ts g) n = Normal (gb, nb) ->
  Game.spawnLoop draws fuel cw (before_spawn (Game.frameDt ts g) gb) nb
  = Normal (gs, ns) ->
  Game.updatePlayers draws gs (Game.frameDt ts g) (Game.players gs) ns 0
  = (players, n', outCount) ->
  Game.update draws fuel ts cw g n
  = Normal (after_players players outCount gs, n').
Proof.
  intros Hover Hb Hs Hp. unfold Game.update. rewrite Hover.
  unfold before_bg, before_spawn in *.
  rewrite Hb. simpl. rewrite Hs. simpl. rewrite Hp. reflexivity.
Qed.

Lemma before_bg_frame (ts : Q) (g : Game.t) :
  no_clock (before_bg ts g) = no_clock g.
Proof.
  unfold before_bg, Game.difficulty. simpl.
  destruct (Qle_bool _ _); destruct g; reflexivity.
Qed.

(** From an equation between two views of a game, the equation between
    the values of a field that the view keeps. *)
Tactic Notation "field_eq" constr(H) constr(f) "as" ident(E) :=
  pose proof (f_equal f H) as E; simpl in E.

(** A frame of a running game returns once the fuel covers its two
    loops, and this is how its result is made. *)
Lemma update_total (draws : nat -> Q) (ts cw : Q) (g : Game.t) (n : nat) :
  unit_draws draws ->
  Game.gameOver g = false -> scheduler_ok g -> background_ok g ->
  exists N, forall fuel, (N <= fuel)%nat ->
    exists g' n' gb gs players intervals news,
      Game.update draws fuel ts cw g n = Normal (g', n') /\
      no_bg gb = no_bg (before_bg ts g) /\
      List.length (Game.bgOffsets gb) = List.length (Game.bgOffsets g) /\
      List.length (Game.bgRadii gb) = List.length (Game.bgRadii g) /\
      spawned draws cw (before_spawn (Game.frameDt ts g) gb) gs intervals
        news /\
      Forall2 (ticked draws gs (Game.frameDt ts g)) (Game.players g)
        players /\
      g' = after_players players (count_out players) gs.
Proof.
  intros Hd Hover (Hm & Hmm & Hi & Hx) (Hw & Hlo & Hlr).
  set (dt := Game.frameDt ts g). set (gd := before_bg ts g).
  pose proof (before_bg_frame ts g) as Hgd. fold gd in Hgd.
  field_eq Hgd Game.bgPatternWidth as Ew. field_eq Hgd Game.bgOffsets as Eo.
  field_eq Hgd Game.bgRadii as Er. field_eq Hgd Game.laneCount as El.
  field_eq Hgd Game.baseMinSpawnTime as Emin.
  field_eq Hgd Game.baseMaxSpawnTime as Emax.
  field_eq Hgd Game.nextSpawnInterval as Enext.
  field_eq Hgd Game.spawnTimer as Etimer.
  destruct (scroll_fuel_all (Game.bgPatternWidth gd)
              (Game.speed gd * Game.bgSpeedFactor gd * dt)
              (Game.bgOffsets gd) ltac:(rewrite Ew; exact Hw)) as [N1 HN1].
  destruct (steps_above (Game.baseMinSpawnTime g) (Game.spawnTimer g + dt)
              Hm) as [N2 HN2].
  exists (Nat.max N1 N2). intros fuel Hfuel.
  destruct (bgLanes_total draws fuel dt (Game.laneCount gd) 0 gd n)
    as (gb & nb & Hb).
  { rewrite Ew. exact Hw. }
  { rewrite Eo, El. exact Hlo. }
  { rewrite Er, El. exact Hlr. }
  { intros j offset _ Hj.
    pose proof (HN1 fuel ltac:(lia)) as HF.
    rewrite Forall_forall in HF. apply HF.
    apply nth_error_In with j. exact Hj. }
  pose proof (bgLanes_frame _ _ _ _ _ _ _ _ _ Hb) as Hfb.
  pose proof (bgLanes_lengths _ _ _ _ _ _ _ _ _ Hb) as [Hlb1 Hlb2].
  field_eq Hfb Game.baseMinSpawnTime as Bmin.
  field_eq Hfb Game.baseMaxSpawnTime as Bmax.
  field_eq Hfb Game.nextSpawnInterval as Bnext.
  field_eq Hfb Game.spawnTimer as Btimer.
  destruct (spawnLoop_spec draws cw Hd N2 fuel (before_spawn dt gb) nb)
    as (gs & ns & intervals & news & Hs & Hsp).
  { unfold scheduler_ok. simpl. rewrite Bmin, Bmax, Bnext, Emin, Emax, Enext.
    repeat split; assumption. }
  { simpl. rewrite Bmin, Btimer, Emin, Etimer. exact HN2. }
  { lia. }
  destruct (Game.updatePlayers draws gs dt (Game.players gs) ns 0)
    as [[players n'] outCount] eqn:Hp.
  pose proof (update_eq _ _ _ _ _ _ _ _ _ _ _ _ _ Hover Hb Hs Hp) as Hu.
  apply updatePlayers_spec in Hp. destruct Hp as [HF ->].
  exists (after_players players (0 + count_out players) gs), n', gb, gs,
    players, intervals, news.
  split; [exact Hu|]. split; [exact Hfb|].
  split; [rewrite Hlb1, Eo; reflexivity|].
  split; [rewrite Hlb2, Er; reflexivity|].
  split; [exact Hsp|]. split; [|reflexivity].
  destruct Hsp as (_ & _ & _ & _ & _ & _ & _ & _ & _ & _ & Hfs).
  rewrite no_spawn_before_spawn in Hfs.
  assert (Hpl : Game.players gs = Game.players g).
  { field_eq Hfs Game.players as P1. field_eq Hfb Game.players as P2.
    field_eq Hgd Game.players as P3. congruence. }
  rewrite <- Hpl. exact HF.
Qed.

(** ** More fuel does not change a result *)

Lemma bgScroll_mono (draws : nat -> Q) (width base : Q) :
  forall fuel fuel' offset radii n r,
    Game.bgScroll draws fuel width base offset radii n = Normal r ->
    (fuel <= fuel')%nat ->
    Game.bgScroll draws fuel' width base offset radii n = Normal r.
Proof.
  induction fuel as [|fuel IH]; intros fuel' offset radii n r H Hle.
  - simpl in H. destruct (Qle_bool offset (- width)) eqn:E;
      [discriminate|].
    destruct fuel'; simpl; rewrite E; exact H.
  - destruct fuel' as [|fuel']; [lia|]. simpl in *.
    destruct (Qle_bool offset (- width)); [|exact H].
    apply IH; [exact H|lia].
Qed.

Lemma bgLanes_mono (draws : nat -> Q) (fuel fuel' : nat) (dt : Q) :
  (fuel <= fuel')%nat ->
  forall todo laneIndex g n r,
    Game.bgLanes draws fuel todo laneIndex dt g n = Normal r ->
    Game.bgLanes draws fuel' todo laneIndex dt g n = Normal r.
Proof.
  intros Hle. induction todo as [|todo IH]; intros laneIndex g n r H;
    simpl in *; [exact H|].
  destruct (nth_error (Game.bgRadii g) laneIndex) as [radii|];
    [|discriminate].
  destruct (nth_error (Game.bgOffsets g) laneIndex) as [offset|];
    [|discriminate].
  destruct (Game.bgScroll draws fuel _ _ _ _ _) as [[[o' r'] n1]| |] eqn:E;
    simpl in H; try discriminate.
  rewrite (bgScroll_mono _ _ _ _ _ _ _ _ _ E Hle). simpl.
  apply IH. exact H.
Qed.

Lemma spawnLoop_mono (draws : nat -> Q) (cw : Q) :
  forall fuel fuel' g n r,
    Game.spawnLoop draws fuel cw g n = Normal r ->
    (fuel <= fuel')%nat ->
    Game.spawnLoop draws fuel' cw g n = Normal r.
Proof.
  induction fuel as [|fuel IH]; intros fuel' g n r H Hle.
  - simpl in H.
    destruct (Qle_bool (Game.nextSpawnInterval g) (Game.spawnTimer g))
      eqn:E; [discriminate|].
    rewrite spawnLoop_done by exact E. exact H.
  - destruct fuel' as [|fuel']; [lia|].
    destruct (Qle_bool (Game.nextSpawnInterval g) (Game.spawnTimer g))
      eqn:E.
    + rewrite spawnLoop_step in * by exact E. cbv zeta in *.
      destruct (Game.spawnObstacle _ _ _ _) as [g2 n2].
      destruct (Game.randomSpawnInterval _ _ _) as [interval n3].
      apply IH; [exact H|lia].
    + rewrite spawnLoop_done in * by exact E. exact H.
Qed.

Lemma update_mono (draws : nat -> Q) (fuel fuel' : nat) (ts cw : Q)
    (g : Game.t) (n : nat) (r : Game.t * nat) :
  Game.update draws fuel ts cw g n = Normal r ->
  (fuel <= fuel')%nat ->
  Game.update draws fuel' ts cw g n = Normal r.
Proof.
  intros H Hle. destruct (Game.gameOver g) eqn:Hover.
  - rewrite update_gameOver in * by exact Hover. exact H.
  - destruct r as [g' n'].
    destruct (update_inv _ _ _ _ _ _ _ _ Hover H)
      as (gb & nb & gs & ns & players & outCount & Hb & Hs & Hp & ->).
    apply update_eq with gb nb ns; try assumption.
    + apply (bgLanes_mono draws fuel fuel' _ Hle). exact Hb.
    + apply (spawnLoop_mono draws cw fuel fuel'); assumption.
Qed.

(** Whatever fuel a frame of a running game returned with, its result is
    made as [update_total] says. *)
Lemma update_result (draws : nat -> Q) (fuel : nat) (ts cw : Q)
    (g : Game.t) (n : nat) (g' : Game.t) (n' : nat) :
  unit_draws draws ->
  Game.gameOver g = false -> scheduler_ok g -> background_ok g ->
  Game.update draws fuel ts cw g n = Normal (g', n') ->
  exists gb gs players intervals news,
    no_bg gb = no_bg (before_bg ts g) /\
    List.length (Game.bgOffsets gb) = List.length (Game.bgOffsets g) /\
    List.length (Game.bgRadii gb) = List.length (Game.bgRadii g) /\
    spawned draws cw (before_spawn (Game.frameDt ts g) gb) gs intervals
      news /\
    Forall2 (ticked draws gs (Game.frameDt ts g)) (Game.players g)
      players /\
    g' = after_players players (count_out players) gs.
Proof.
  intros Hd Hover Hs Hb H.
  destruct (update_total draws ts cw g n Hd Hover Hs Hb) as [N HN].
  destruct (HN (Nat.max N fuel) ltac:(lia))
    as (g2 & n2 & gb & gs & players & intervals & news & Hu & Hrest).
  rewrite (update_mono draws fuel (Nat.max N fuel) _ _ _ _ _ H ltac:(lia))
    in Hu.
  injection Hu as <- <-.
  exists gb, gs, players, intervals, news. exact Hrest.
Qed.

(** ** One player in one frame *)

Lemma collide_cases (obstacles : list Obstacle.t) (player : Player.t) :
  Game.collide obstacles player = player \/
  (Game.collide obstacles player = Game.hit player /\
   0 <= Player.y player /\
   exists obs, In obs obstacles /\ Game.overlaps obs player = true).
Proof.
  induction obstacles as [|obs rest IH]; simpl; [left; reflexivity|].
  destruct (Game.overlaps obs player) eqn:Eo.
  - destruct (Qle_bool 0 (Player.y player)) eqn:Ey.
    + right. reflect_cmp. split; [reflexivity|]. split; [exact Ey|].
      exists obs. split; [left; reflexivity|exact Eo].
    + destruct IH as [IH|(IH & Hy & o & Hin & Ho)]; [left; exact IH|].
      right. split; [exact IH|]. split; [exact Hy|].
      exists o. split; [right; exact Hin|exact Ho].
  - destruct IH as [IH|(IH & Hy & o & Hin & Ho)]; [left; exact IH|].
    right. split; [exact IH|]. split; [exact Hy|].
    exists o. split; [right; exact Hin|exact Ho].
Qed.

(** On the ground, an overlapping obstacle anywhere in the list is a
    hit, and one hit only. *)
Lemma collide_hit (obstacles : list Obstacle.t) (player : Player.t) :
  0 <= Player.y player ->
  (exists obs, In obs obstacles /\ Game.overlaps obs player = true) ->
  Game.collide obstacles player = Game.hit player.
Proof.
  intros Hy. apply Qle_bool_iff in Hy.
  induction obstacles as [|obs rest IH]; intros (o & Hin & Ho).
  - destruct Hin.
  - simpl. destruct (Game.overlaps obs player) eqn:Eo.
    + rewrite Hy. reflexivity.
    + apply IH. destruct Hin as [->|Hin]; [congruence|].
      exists o. split; assumption.
Qed.

Lemma collide_miss (obstacles : list Obstacle.t) (player : Player.t) :
  Player.y player < 0 -> Game.collide obstacles player = player.
Proof.
  intros Hy. apply Qle_bool_false in Hy.
  induction obstacles as [|obs rest IH]; simpl; [reflexivity|].
  rewrite Hy, IH. destruct (Game.overlaps obs player); reflexivity.
Qed.

Lemma hit_lives (p : Player.t) :
  Player.lives (Game.hit p) = (Player.lives p - 1)%Z /\
  Player.invulnerable (Game.hit p) = true /\
  Player.invulnTimer (Game.hit p) = 0.7 /\
  Player.time (Game.hit p) = Player.time p /\
  Player.y (Game.hit p) = Player.y p /\
  Player.jumpVelocity (Game.hit p) = Player.jumpVelocity p /\
  Player.out (Game.hit p)
  = ((Player.lives p - 1 <=? 0)%Z || Player.out p).
Proof.
  unfold Game.hit. simpl.
  destruct (Player.lives p - 1 <=? 0)%Z; simpl; repeat split; reflexivity.
Qed.

(** [updatePhysics] writes the kinematics, the invulnerability and the
    time; lives and the out flag are not its business. *)
Lemma updatePhysics_lives (dt : Q) (p : Player.t) :
  Player.lives (Player.updatePhysics dt p) = Player.lives p.
Proof.
  unfold Player.updatePhysics. destruct (Player.out p); [reflexivity|].
  simpl. destruct (Qlt_bool _ _); simpl;
    destruct (Player.invulnerable p); simpl;
    try destruct (Qle_bool _ _); reflexivity.
Qed.

Lemma updatePhysics_time (dt : Q) (p : Player.t) :
  Player.out p = false ->
  Player.time (Player.updatePhysics dt p) = Player.time p + dt.
Proof.
  intros Ho. unfold Player.updatePhysics. rewrite Ho.
  simpl. destruct (Qlt_bool _ _); simpl;
    destruct (Player.invulnerable p); simpl;
    try destruct (Qle_bool _ _); reflexivity.
Qed.

Lemma jump_lives (p : Player.t) :
  Player.lives (Player.jump p) = Player.lives p.
Proof. rewrite jump_frame. reflexivity. Qed.

Lemma jump_time (p : Player.t) :
  Player.time (Player.jump p) = Player.time p.
Proof. rewrite jump_frame. reflexivity. Qed.

Lemma jump_invulnerable (p : Player.t) :
  Player.invulnerable (Player.jump p) = Player.invulnerable p /\
  Player.invulnTimer (Player.jump p) = Player.invulnTimer p.
Proof. rewrite jump_frame. split; reflexivity. Qed.

(** The four ways through the body of the player loop. *)
Lemma ticked_cases (draws : nat -> Q) (g : Game.t) (dt : Q)
    (p p' : Player.t) :
  ticked draws g dt p p' ->
  (Player.out p = true /\ p' = p) \/
  (Player.out p = false /\
   exists pb,
     (pb = p \/ (Player.isBot p = true /\ pb = Player.jump p)) /\
     let q := Player.updatePhysics dt pb in
     (Player.invulnerable q = true /\ p' = q) \/
     (Player.invulnerable q = false /\
      p' = Game.collide (Game.obstacles g) q)).
Proof.
  intros [n ->]. unfold Game.playerTick.
  destruct (Player.out p) eqn:Ho; [left; split; reflexivity|].
  right. split; [reflexivity|].
  assert (Hb : exists pb n1,
             (if Player.isBot p then Game.handleBot draws g p n else (p, n))
             = (pb, n1) /\
             (pb = p \/ (Player.isBot p = true /\ pb = Player.jump p))).
  { destruct (Player.isBot p) eqn:Eb.
    - unfold Game.handleBot.
      destruct (handleBotScan_cases draws (Game.obstacles g) (Game.speed g)
                  p n) as [[n1 E]|(E & _)]; rewrite E.
      + exists p, n1. split; [reflexivity|left; reflexivity].
      + exists (Player.jump p), (S n).
        split; [reflexivity|right; split; reflexivity].
    - exists p, n. split; [reflexivity|left; reflexivity]. }
  destruct Hb as (pb & n1 & -> & Hpb). exists pb. split; [exact Hpb|].
  simpl. destruct (Player.invulnerable (Player.updatePhysics dt pb));
    simpl; [left|right]; split; reflexivity.
Qed.

(** A player that is not out comes out of the player loop either as
    the physics left it, or hit once; it is hit only if the physics
    left it vulnerable and on the ground, over an obstacle. *)
Lemma ticked_running (draws : nat -> Q) (g : Game.t) (dt : Q)
    (p p' : Player.t) :
  ticked draws g dt p p' -> Player.out p = false ->
  exists q,
    (q = Player.updatePhysics dt p \/
     (Player.isBot p = true /\ q = Player.updatePhysics dt (Player.jump p)))
    /\ Player.lives q = Player.lives p
    /\ Player.out q = false
    /\ Player.time q = Player.time p + dt
    /\ Player.y q <= 0
    /\ Player.jumpVelocity q = Player.jumpVelocity p
    /\ (p' = q \/
        (p' = Game.hit q /\ Player.invulnerable q = false /\
         0 <= Player.y q /\
         exists obs, In obs (Game.obstacles g) /\
                     Game.overlaps obs q = true)).
Proof.
  intros Ht Ho. destruct (ticked_cases _ _ _ _ _ Ht)
    as [[Ho' _]|(_ & pb & Hpb & Hq)]; [congruence|].
  cbv zeta in Hq. exists (Player.updatePhysics dt pb).
  assert (Hob : Player.out pb = false).
  { destruct Hpb as [->|[_ ->]]; [|rewrite jump_out_same]; exact Ho. }
  assert (Hlb : Player.lives pb = Player.lives p).
  { destruct Hpb as [->|[_ ->]]; [|rewrite jump_lives]; reflexivity. }
  assert (Htb : Player.time pb = Player.time p).
  { destruct Hpb as [->|[_ ->]]; [|rewrite jump_time]; reflexivity. }
  assert (Hjb : Player.jumpVelocity pb = Player.jumpVelocity p).
  { destruct Hpb as [->|[_ ->]]; [|rewrite jump_jumpVelocity];
      reflexivity. }
  split; [destruct Hpb as [->|[Hb ->]]; [left|right; split]; auto|].
  split; [rewrite updatePhysics_lives; exact Hlb|].
  split; [rewrite updatePhysics_out_same; exact Hob|].
  split; [rewrite updatePhysics_time by exact Hob; rewrite Htb;
          reflexivity|].
  split; [apply updatePhysics_y_le; exact Hob|].
  split; [rewrite updatePhysics_jumpVelocity; exact Hjb|].
  destruct Hq as [[_ ->]|[Hi ->]]; [left; reflexivity|].
  destruct (collide_cases (Game.obstacles g) (Player.updatePhysics dt pb))
    as [->|(-> & Hy & Hobs)]; [left; reflexivity|].
  right. repeat split; assumption.
Qed.

Lemma ticked_ok (draws : nat -> Q) (g : Game.t) (dt : Q) (p p' : Player.t) :
  ticked draws g dt p p' -> player_ok p -> player_ok p'.
Proof.
  intros Ht Hok. destruct (Player.out p) eqn:Ho.
  - destruct (ticked_cases _ _ _ _ _ Ht) as [[_ ->]|[Ho' _]];
      [exact Hok|congruence].
  - destruct (ticked_running _ _ _ _ _ Ht Ho)
      as (q & _ & Hl & Hoq & _ & Hy & Hj & Hp').
    destruct Hok as (Hrange & Hout & _ & Hjv).
    assert (Hpos : (1 <= Player.lives p)%Z).
    { destruct (Z.eq_dec (Player.lives p) 0) as [E|E]; [|lia].
      apply Hout in E. congruence. }
    destruct Hp' as [->|(-> & _)].
    + unfold player_ok. rewrite Hl, Hoq, Hj.
      repeat split; try assumption; try lia; try congruence.
    + destruct (hit_lives q) as (El & _ & _ & _ & Ey & Ej & Eo).
      unfold player_ok. rewrite El, Ey, Ej, Eo, Hl, Hoq, Hj.
      rewrite orb_false_r, Z.leb_le.
      repeat split; try assumption; lia.
Qed.

Lemma jump_ok (p : Player.t) : player_ok p -> player_ok (Player.jump p).
Proof.
  unfold player_ok.
  rewrite jump_lives, jump_out_same, jump_y, jump_jumpVelocity. auto.
Qed.

(** ** The constants of a game *)

Lemma after_players_frame (players : list Player.t) (outCount : nat)
    (g : Game.t) :
  no_result (after_players players outCount g) = no_result g.
Proof.
  unfold after_players. destruct (_ <=? _)%nat; destruct g; reflexivity.
Qed.

Lemma after_players_players (players : list Player.t) (outCount : nat)
    (g : Game.t) :
  Game.players (after_players players outCount g) = players.
Proof. unfold after_players. destruct (_ <=? _)%nat; reflexivity. Qed.

Lemma after_players_gameOver (players : list Player.t) (outCount : nat)
    (g : Game.t) :
  Game.gameOver (after_players players outCount g)
  = ((Game.laneCount g <=? outCount)%nat || Game.gameOver g).
Proof. unfold after_players. destruct (_ <=? _)%nat; reflexivity. Qed.

Lemma constants_views (g1 g2 : Game.t) :
  (no_clock g1 = no_clock g2 \/ no_bg g1 = no_bg g2 \/
   no_spawn g1 = no_spawn g2 \/ no_result g1 = no_result g2) ->
  constants g1 = constants g2.
Proof.
  unfold constants.
  intros [H|[H|[H|H]]].
  - rewrite H. reflexivity.
  - transitivity (no_result (no_spawn (no_clock (no_bg g1))));
      [destruct g1; reflexivity|].
    rewrite H. destruct g2; reflexivity.
  - transitivity (no_result (no_bg (no_clock (no_spawn g1))));
      [destruct g1; reflexivity|].
    rewrite H. destruct g2; reflexivity.
  - transitivity (no_bg (no_spawn (no_clock (no_result g1))));
      [destruct g1; reflexivity|].
    rewrite H. destruct g2; reflexivity.
Qed.

(** [update] never writes a constant of the game. *)
Lemma update_constants (draws : nat -> Q) (fuel : nat) (ts cw : Q)
    (g : Game.t) (n : nat) (g' : Game.t) (n' : nat) :
  Game.update draws fuel ts cw g n = Normal (g', n') ->
  constants g' = constants g.
Proof.
  intros H. destruct (Game.gameOver g) eqn:Hover.
  - rewrite update_gameOver in H by exact Hover.
    injection H as <- <-. reflexivity.
  - destruct (update_inv _ _ _ _ _ _ _ _ Hover H)
      as (gb & nb & gs & ns & players & outCount & Hb & Hs & Hp & ->).
    apply bgLanes_frame in Hb. apply spawnLoop_frame in Hs.
    rewrite no_spawn_before_spawn in Hs.
    rewrite (constants_views _ gs)
      by (right; right; right; apply after_players_frame).
    rewrite (constants_views gs gb) by (right; right; left; exact Hs).
    rewrite (constants_views gb (before_bg ts g))
      by (right; left; exact Hb).
    apply constants_views. left. apply before_bg_frame.
Qed.

(** ** The invariant of a match *)

Lemma constructor_fresh (name : string) (lane : nat) (isBot : bool)
    (errorRate : Q) :
  fresh (Player.constructor name lane isBot errorRate).
Proof.
  unfold fresh, player_ok. simpl.
  repeat split; try lia; try lra; discriminate.
Qed.

Lemma addHumans_spec (P : Player.t -> Prop) :
  (forall name lane isBot errorRate,
     P (Player.constructor name lane isBot errorRate)) ->
  forall names i players,
    Forall P players -> Forall P (Game.addHumans i names players).
Proof.
  intros HP. induction names as [|name names IH]; intros i players H;
    simpl; [exact H|].
  apply IH. apply Forall_app. split; [exact H|]. constructor; auto.
Qed.

Lemma addBots_spec (P : Player.t -> Prop) :
  (forall name lane isBot errorRate,
     P (Player.constructor name lane isBot errorRate)) ->
  forall todo b players,
    Forall P players -> Forall P (Game.addBots todo b players).
Proof.
  intros HP. induction todo as [|todo IH]; intros b players H;
    simpl; [exact H|].
  apply IH. apply Forall_app. split; [exact H|]. constructor; auto.
Qed.

Lemma fillLanes_spec (P : Player.t -> Prop) :
  (forall name lane isBot errorRate,
     P (Player.constructor name lane isBot errorRate)) ->
  forall todo players,
    Forall P players ->
    Forall P (Game.fillLanes todo players) /\
    List.length (Game.fillLanes todo players)
    = (List.length players + todo)%nat.
Proof.
  intros HP. induction todo as [|todo IH]; intros players H; simpl.
  - split; [exact H|lia].
  - match goal with |- Forall P (Game.fillLanes todo ?l) /\ _ =>
      destruct (IH l) as [IH1 IH2] end.
    + apply Forall_app. split; [exact H|]. constructor; auto.
    + split; [exact IH1|]. rewrite IH2, length_app. simpl. lia.
Qed.

Lemma radiiRows_length (draws : nat -> Q) (segments : nat) (base : Q) :
  forall lanes n,
    List.length (fst (Game.radiiRows draws lanes segments base n)) = lanes.
Proof.
  induction lanes as [|lanes IH]; intros n; simpl; [reflexivity|].
  destruct (Game.radiiRow draws segments base n) as [radii n1].
  specialize (IH n1).
  destruct (Game.radiiRows draws lanes segments base n1) as [rest n2].
  simpl in *. congruence.
Qed.

Lemma initBackgroundRadii_spec (draws : nat -> Q) (cw : Q) (g : Game.t)
    (n : nat) :
  let g' := fst (Game.initBackgroundRadii draws cw g n) in
  no_bg g' = no_bg g /\
  Game.bgOffsets g' = Game.bgOffsets g /\
  List.length (Game.bgRadii g') = Game.laneCount g.
Proof.
  unfold Game.initBackgroundRadii.
  match goal with |- context [Game.radiiRows ?d ?l ?s ?b ?k] =>
    pose proof (radiiRows_length d s b l k) as Hl;
    destruct (Game.radiiRows d l s b k) as [rows n1] end.
  simpl in *. split; [destruct g; reflexivity|].
  split; [reflexivity|exact Hl].
Qed.

Lemma count_out_fresh (players : list Player.t) :
  Forall fresh players -> count_out players = 0%nat.
Proof.
  unfold count_out. induction 1 as [|p l [_ Ho] _ IH]; simpl;
    [reflexivity|].
  rewrite Ho. exact IH.
Qed.

Lemma count_out_le (players : list Player.t) :
  (count_out players <= List.length players)%nat.
Proof. apply filter_length_le. Qed.

(** The two base spawn times, with their divisions written as products
    so that linear arithmetic reads them. *)
Ltac base_times :=
  change (300 / 400) with (300 * (1 # 400)) in *;
  change (800 / 400) with (800 * (1 # 400)) in *.

(** The game that [startGame] makes. *)
Lemma startGame_spec (draws : nat -> Q) (names : list string)
    (bots : nat) (cw : Q) (n : nat) :
  unit_draws draws ->
  let w := startGame draws names bots cw n in
  game_ok (game w) /\
  Forall fresh (Game.players (game w)) /\
  Game.gameOver (game w) = false /\
  Game.speed (game w) = 400 /\
  Game.elapsedTime (game w) = 0 /\
  Game.nextSpeedIncreaseAt (game w) = 5 /\
  Game.obstacles (game w) = [] /\
  Game.spawnTimer (game w) = 0 /\
  Game.winnerIndex (game w) = None /\
  canvasWidth w = cw.
Proof.
  intros Hd. unfold startGame, Game.constructor.
  rewrite randomSpawnInterval_eq. cbv zeta.
  match goal with |- context [Game.initBackgroundRadii ?d ?c ?g0 ?k] =>
    pose proof (initBackgroundRadii_spec d c g0 k) as Hbg;
    destruct (Game.initBackgroundRadii d c g0 k) as [g1 n1] end.
  cbv zeta in Hbg. simpl fst in Hbg. destruct Hbg as (Hf & Ho & Hr).
  unfold Game.start. rewrite randomSpawnInterval_eq. simpl.
  field_eq Hf Game.laneCount as El. field_eq Hf Game.baseMinSpawnTime as E1.
  field_eq Hf Game.baseMaxSpawnTime as E2.
  field_eq Hf Game.bgPatternWidth as E3.
  field_eq Hf Game.speedIncreaseFactor as E4. field_eq Hf Game.speed as E5.
  pose proof (f_equal Game.players Hf) as E6.
  cbn [no_bg Game.players Game.set_bgRadii Game.set_bgOffsets
       Game.initializePlayers Game.set_players Game.set_nextSpawnInterval
       Game.laneCount] in E6.
  field_eq Hf Game.gameOver as E7.
  field_eq Hf Game.elapsedTime as E8.
  field_eq Hf Game.nextSpeedIncreaseAt as E9.
  field_eq Hf Game.obstacles as E10. field_eq Hf Game.winnerIndex as E11.
  simpl in Ho, Hr.
  assert (Hps : Forall fresh (Game.players g1) /\
                (3 <= List.length (Game.players g1))%nat).
  { rewrite E6.
    match goal with |- context [Game.fillLanes ?k ?l] =>
      destruct (fillLanes_spec fresh constructor_fresh k l) as [H1 H2] end.
    - apply addBots_spec; [exact constructor_fresh|].
      apply addHumans_spec; [exact constructor_fresh|]. constructor.
    - split; [exact H1|]. rewrite H2. lia. }
  destruct Hps as [Hfresh Hlen].
  repeat split; simpl; try assumption.
  - unfold in_spawn_range. simpl. rewrite E1, E2. base_times.
    destruct (Hd n1) as [H0 H1]. lra.
  - unfold in_spawn_range. simpl. rewrite E1, E2. base_times.
    destruct (Hd n1) as [H0 H1]. lra.
  - rewrite Ho, El. reflexivity.
  - rewrite Hr, El. reflexivity.
  - rewrite E5. reflexivity.
  - eapply Forall_impl; [|exact Hfresh]. intros p [H _]. exact H.
  - rewrite E7. discriminate.
  - rewrite (count_out_fresh _ Hfresh), El. lia.
Qed.

Lemma game_ok_scheduler (g : Game.t) : game_ok g -> scheduler_ok g.
Proof.
  intros (_ & Hmin & Hmax & [Hlo Hhi] & _). unfold scheduler_ok.
  rewrite Hmin, Hmax in *. base_times. repeat split; try assumption; try lra.
Qed.

Lemma game_ok_background (g : Game.t) : game_ok g -> background_ok g.
Proof.
  intros (_ & _ & _ & _ & Hw & Ho & Hr & _). unfold background_ok.
  rewrite Hw, Ho, Hr. repeat split; lia.
Qed.

Lemma difficulty_lastTime (dt : Q) (l : option Q) (g : Game.t) :
  Game.difficulty dt (Game.set_lastTime l g)
  = Game.set_lastTime l (Game.difficulty dt g).
Proof.
  unfold Game.difficulty. simpl. destruct (Qle_bool _ _); reflexivity.
Qed.

Lemma difficulty_elapsedTime (dt : Q) (g : Game.t) :
  Game.elapsedTime (Game.difficulty dt g) = Game.elapsedTime g + dt.
Proof.
  unfold Game.difficulty. simpl. destruct (Qle_bool _ _); reflexivity.
Qed.

(** The player loop reads the obstacles and the speed of the game, and
    nothing else of it. *)
Lemma ticked_ext (draws : nat -> Q) (g1 g2 : Game.t) (dt : Q)
    (p p' : Player.t) :
  Game.obstacles g1 = Game.obstacles g2 -> Game.speed g1 = Game.speed g2 ->
  ticked draws g1 dt p p' -> ticked draws g2 dt p p'.
Proof.
  intros Ho Hs [n ->]. exists n.
  unfold Game.playerTick, Game.handleBot. rewrite Ho, Hs. reflexivity.
Qed.

(** What one frame does to a running game, field by field. *)
Lemma frame_fields (draws : nat -> Q) (fuel : nat) (ts cw : Q)
    (g : Game.t) (n : nat) (g' : Game.t) (n' : nat) :
  unit_draws draws -> game_ok g -> Game.gameOver g = false ->
  Game.update draws fuel ts cw g n = Normal (g', n') ->
  let dt := Game.frameDt ts g in
  constants g' = constants g /\
  Game.lastTime g' = Some ts /\
  Game.elapsedTime g' = Game.elapsedTime g + dt /\
  Game.speed g' = Game.speed (Game.difficulty dt g) /\
  Game.nextSpeedIncreaseAt g'
  = Game.nextSpeedIncreaseAt (Game.difficulty dt g) /\
  List.length (Game.bgOffsets g') = List.length (Game.bgOffsets g) /\
  List.length (Game.bgRadii g') = List.length (Game.bgRadii g) /\
  (exists intervals news,
     frame_spawned draws cw dt g g' intervals news) /\
  Forall2 (ticked draws g' dt) (Game.players g) (Game.players g') /\
  Game.gameOver g'
  = (Game.laneCount g <=? count_out (Game.players g'))%nat /\
  Game.winnerIndex g'
  = (if Game.gameOver g'
     then Some (Game.longestTime (Game.players g') 0 None (-1))
     else Game.winnerIndex g).
Proof.
  intros Hd Hok Hover H dt.
  pose proof (update_constants _ _ _ _ _ _ _ _ H) as Hc.
  destruct (update_result draws fuel ts cw g n g' n' Hd Hover
              (game_ok_scheduler g Hok) (game_ok_background g Hok) H)
    as (gb & gs & players & intervals & news & Hfb & Hlo & Hlr & Hsp & HF
        & ->).
  fold dt in Hsp, HF.
  pose proof (after_players_frame players (count_out players) gs) as Hfa.
  pose proof (after_players_players players (count_out players) gs) as Hpl.
  pose proof (after_players_gameOver players (count_out players) gs) as Hgo.
  set (g' := after_players players (count_out players) gs) in *.
  destruct Hsp as (Hobs & Hlen & Hxs & Hrs & Hhd & Htl & Hsum & Hpos
                   & Hshort & Hoks & Hfs).
  rewrite no_spawn_before_spawn in Hfs.
  unfold before_bg in Hfb. rewrite difficulty_lastTime in Hfb.
  (* fields of [gs] *)
  field_eq Hfs Game.speed as Ss. field_eq Hfb Game.speed as Sb.
  field_eq Hfs Game.elapsedTime as Es. field_eq Hfb Game.elapsedTime as Eb.
  field_eq Hfs Game.nextSpeedIncreaseAt as Ns.
  field_eq Hfb Game.nextSpeedIncreaseAt as Nb.
  field_eq Hfs Game.lastTime as Ls. field_eq Hfb Game.lastTime as Lb.
  field_eq Hfs Game.bgOffsets as Os. field_eq Hfs Game.bgRadii as Rs.
  field_eq Hfs Game.gameOver as Gs. field_eq Hfb Game.gameOver as Gb.
  field_eq Hfs Game.winnerIndex as Ws. field_eq Hfb Game.winnerIndex as Wb.
  field_eq Hfs Game.laneCount as Cs. field_eq Hfb Game.laneCount as Cb.
  field_eq Hfb Game.obstacles as Ob. field_eq Hfb Game.spawnTimer as Tb.
  field_eq Hfb Game.nextSpawnInterval as Ib.
  field_eq Hfb Game.baseMinSpawnTime as Mb.
  field_eq Hfb Game.baseMaxSpawnTime as Xb.
  (* fields of [g'] *)
  field_eq Hfa Game.speed as Sa. field_eq Hfa Game.elapsedTime as Ea.
  field_eq Hfa Game.nextSpeedIncreaseAt as Na.
  field_eq Hfa Game.lastTime as La. field_eq Hfa Game.bgOffsets as Oa.
  field_eq Hfa Game.bgRadii as Ra. field_eq Hfa Game.obstacles as Ba.
  field_eq Hfa Game.spawnTimer as Ta.
  field_eq Hfa Game.nextSpawnInterval as Ia.
  field_eq Hfa Game.baseMinSpawnTime as Ma.
  field_eq Hfa Game.baseMaxSpawnTime as Xa.
  assert (Hg : Game.laneCount (Game.difficulty dt g) = Game.laneCount g
               /\ Game.obstacles (Game.difficulty dt g) = Game.obstacles g
               /\ Game.spawnTimer (Game.difficulty dt g)
                  = Game.spawnTimer g
               /\ Game.nextSpawnInterval (Game.difficulty dt g)
                  = Game.nextSpawnInterval g
               /\ Game.baseMinSpawnTime (Game.difficulty dt g)
                  = Game.baseMinSpawnTime g
               /\ Game.baseMaxSpawnTime (Game.difficulty dt g)
                  = Game.baseMaxSpawnTime g
               /\ Game.gameOver (Game.difficulty dt g) = Game.gameOver g
               /\ Game.winnerIndex (Game.difficulty dt g)
                  = Game.winnerIndex g).
  { unfold Game.difficulty. simpl.
    destruct (Qle_bool _ _); repeat split; reflexivity. }
  destruct Hg as (Cg & Og & Tg & Ig & Mg & Xg & Gg & Wg).
  fold dt in Sb, Eb, Nb, Gb, Wb, Cb, Ob, Tb, Ib, Mb, Xb.
  split; [exact Hc|].
  split; [rewrite La, Ls, Lb; reflexivity|].
  split; [rewrite Ea, Es, Eb; apply difficulty_elapsedTime|].
  split; [rewrite Sa, Ss, Sb; reflexivity|].
  split; [rewrite Na, Ns, Nb; reflexivity|].
  split; [rewrite Oa, Os; exact Hlo|].
  split; [rewrite Ra, Rs; exact Hlr|].
  assert (Hrange : forall i, in_spawn_range (before_spawn dt gb) i
                             <-> in_spawn_range g i).
  { intros i. unfold in_spawn_range. simpl. rewrite Mb, Xb, Mg, Xg.
    reflexivity. }
  split.
  { exists intervals, news. unfold frame_spawned. simpl in *.
    rewrite Ba, Ta, Ia, Sa, Ss.
    split; [rewrite Hobs, Ob, Og; reflexivity|].
    split; [exact Hlen|]. split; [exact Hxs|].
    split; [eapply Forall_impl; [|exact Hrs]; intros i; apply Hrange|].
    split; [rewrite Hhd, Ib, Ig; reflexivity|].
    split.
    { eapply Forall_impl; [|exact Htl]. intros i [m ->]. exists m.
      rewrite !randomSpawnInterval_eq. simpl. rewrite Mb, Xb, Mg, Xg.
      reflexivity. }
    split; [rewrite <- Hsum, Tb, Tg; reflexivity|].
    split; [rewrite <- Tg, <- Tb; exact Hpos|].
    split; [exact Hshort|].
    field_eq Hfs Game.baseMinSpawnTime as Ms.
    field_eq Hfs Game.baseMaxSpawnTime as Xs.
    destruct Hoks as (_ & _ & Hlo' & Hhi').
    unfold in_spawn_range. rewrite <- Mg, <- Mb, <- Ms, <- Xg, <- Xb, <- Xs.
    split; assumption. }
  split.
  { rewrite Hpl. eapply Forall2_impl; [|exact HF].
    intros p p'. apply ticked_ext; [rewrite Ba|rewrite Sa]; reflexivity. }
  assert (Hgo' : Game.gameOver g'
                 = (Game.laneCount g <=? count_out (Game.players g'))%nat).
  { rewrite Hgo, Hpl, Gs, Gb, Gg, Hover, Cs, Cb, Cg, orb_false_r.
    reflexivity. }
  split; [exact Hgo'|].
  rewrite Hgo'. rewrite Hpl. unfold g', after_players.
  rewrite Cs, Cb, Cg.
  destruct (Game.laneCount g <=? count_out players)%nat; simpl;
    [reflexivity|].
  rewrite Ws, Wb, Wg. reflexivity.
Qed.

Lemma jumpFirstHuman_pressed (players : list Player.t) :
  Forall2 pressed players (jumpFirstHuman players).
Proof.
  induction players as [|p rest IH]; simpl; [constructor|].
  destruct (negb (Player.isBot p)).
  - constructor; [right; reflexivity|].
    clear IH. induction rest; constructor; [left; reflexivity|assumption].
  - constructor; [left; reflexivity|exact IH].
Qed.

Lemma pressed_ok (p p' : Player.t) :
  pressed p p' -> player_ok p -> player_ok p'.
Proof. intros [->| ->] H; [exact H|apply jump_ok; exact H]. Qed.

Lemma pressed_out (p p' : Player.t) :
  pressed p p' -> Player.out p' = Player.out p.
Proof. intros [->| ->]; [reflexivity|apply jump_out_same]. Qed.

Lemma Forall2_ok (R : Player.t -> Player.t -> Prop)
    (players players' : list Player.t) :
  (forall p p', R p p' -> player_ok p -> player_ok p') ->
  Forall2 R players players' ->
  Forall player_ok players -> Forall player_ok players'.
Proof.
  intros HR HF. induction HF as [|p p' l l' Hp _ IH]; intros H;
    [constructor|].
  inversion H; subst. constructor; [eapply HR; eassumption|auto].
Qed.

Lemma Forall2_count_out (players players' : list Player.t) :
  Forall2 (fun p p' => Player.out p' = Player.out p) players players' ->
  count_out players' = count_out players.
Proof.
  unfold count_out. induction 1 as [|p p' l l' Hp _ IH]; simpl;
    [reflexivity|].
  rewrite Hp. destruct (Player.out p); simpl; congruence.
Qed.

(** Key presses and taps keep the invariant. *)
Lemma pressed_game_ok (g : Game.t) (players' : list Player.t) :
  game_ok g -> Forall2 pressed (Game.players g) players' ->
  game_ok (Game.set_players players' g).
Proof.
  intros (Hl & Hmin & Hmax & Hi & Hw & Ho & Hr & Hf & Hs & Hn & Hp & Hg) HF.
  unfold game_ok, in_spawn_range in *. simpl.
  repeat split; try assumption; try apply Hi.
  - rewrite <- (Forall2_length HF). exact Hn.
  - eapply Forall2_ok; [exact pressed_ok|exact HF|exact Hp].
  - rewrite (Forall2_count_out (Game.players g) players').
    + apply Hg.
    + eapply Forall2_impl; [|exact HF]. exact pressed_out.
  - rewrite (Forall2_count_out (Game.players g) players').
    + apply Hg.
    + eapply Forall2_impl; [|exact HF]. exact pressed_out.
Qed.

(** A frame keeps the invariant. *)
Lemma update_game_ok (draws : nat -> Q) (fuel : nat) (ts cw : Q)
    (g : Game.t) (n : nat) (g' : Game.t) (n' : nat) :
  unit_draws draws -> game_ok g ->
  Game.update draws fuel ts cw g n = Normal (g', n') -> game_ok g'.
Proof.
  intros Hd Hok H. destruct (Game.gameOver g) eqn:Hover.
  { rewrite update_gameOver in H by exact Hover.
    injection H as <- <-. exact Hok. }
  destruct (frame_fields _ _ _ _ _ _ _ _ Hd Hok Hover H)
    as (Hc & _ & _ & Hsp & _ & Hlo & Hlr & (intervals & news & Hspawn)
        & HF & Hgo & _).
  destruct Hok as (Hl & Hmin & Hmax & Hi & Hw & Ho & Hr & Hf & Hs & Hn & Hp
                   & Hg).
  field_eq Hc Game.laneCount as El. field_eq Hc Game.baseMinSpawnTime as E1.
  field_eq Hc Game.baseMaxSpawnTime as E2.
  field_eq Hc Game.bgPatternWidth as E3.
  field_eq Hc Game.speedIncreaseFactor as E4.
  unfold game_ok. rewrite El, E1, E2, E3, E4, Hlo, Hlr.
  repeat split; try assumption.
  - unfold in_spawn_range. rewrite E1. apply Hspawn.
  - unfold in_spawn_range. rewrite E2. apply Hspawn.
  - rewrite Hsp. unfold Game.difficulty. simpl.
    destruct (Qle_bool _ _); simpl; [|exact Hs].
    rewrite Hf. lra.
  - rewrite <- (Forall2_length HF). exact Hn.
  - eapply Forall2_ok; [|exact HF|exact Hp].
    intros p p'. apply ticked_ok.
  - rewrite Hgo. apply Nat.leb_le.
  - rewrite Hgo. apply Nat.leb_le.
Qed.

(** Every handler keeps the invariant. *)
Lemma handle_ok (draws : nat -> Q) (fuel : nat) (e : event) (w w' : World) :
  unit_draws draws -> game_ok (game w) ->
  handle draws fuel e w = Normal w' -> game_ok (game w').
Proof.
  intros Hd Hok H. destruct e as [ts| |width]; simpl in H.
  - destruct (Game.update draws fuel ts (canvasWidth w) (game w) (cursor w))
      as [[g' n']| |] eqn:Hu; simpl in H; try discriminate.
    injection H as <-. simpl. eapply update_game_ok; eassumption.
  - injection H as <-. simpl.
    apply pressed_game_ok; [exact Hok|apply jumpFirstHuman_pressed].
  - pose proof (initBackgroundRadii_spec draws width (game w) (cursor w))
      as Hbg.
    destruct (Game.initBackgroundRadii draws width (game w) (cursor w))
      as [g' n']. injection H as <-. simpl in *.
    destruct Hbg as (Hf & Ho' & Hr').
    destruct Hok as (Hl & Hmin & Hmax & Hi & Hw & Ho & Hr & Hfa & Hs & Hn
                     & Hp & Hg).
    field_eq Hf Game.laneCount as El.
    field_eq Hf Game.baseMinSpawnTime as E1.
    field_eq Hf Game.baseMaxSpawnTime as E2.
    field_eq Hf Game.bgPatternWidth as E3.
    field_eq Hf Game.speedIncreaseFactor as E4.
    field_eq Hf Game.nextSpawnInterval as E5.
    field_eq Hf Game.speed as E6. field_eq Hf Game.players as E7.
    field_eq Hf Game.gameOver as E8.
    unfold game_ok, in_spawn_range.
    rewrite El, E1, E2, E3, E4, E5, E6, E7, E8, Ho', Hr'.
    repeat split; try assumption; apply Hi || apply Hg.
Qed.

Lemma reachable_ok (draws : nat -> Q) (w : World) :
  unit_draws draws -> reachable draws w -> game_ok (game w).
Proof.
  intros Hd (names & bots & width & n & Hr).
  apply clos_rt_rt1n in Hr.
  pose proof (proj1 (startGame_spec draws names bots width n Hd)) as H0.
  cbv zeta in H0. induction Hr as [|w1 w2 w3 (fuel & e & Hs) _ IH];
    [exact H0|].
  apply IH. eapply handle_ok; eassumption.
Qed.

(** ** No handler throws *)

Lemma bgScroll_no_throw (draws : nat -> Q) (width base : Q) :
  forall fuel offset radii n e,
    Game.bgScroll draws fuel width base offset radii n <> Throw e.
Proof.
  induction fuel as [|fuel IH]; intros offset radii n e; simpl;
    destruct (Qle_bool offset (- width)); try discriminate.
  apply IH.
Qed.

Lemma bgLanes_no_throw (draws : nat -> Q) (fuel : nat) (dt : Q) :
  forall todo laneIndex g n e,
    (laneIndex + todo <= List.length (Game.bgRadii g))%nat ->
    Game.bgLanes draws fuel todo laneIndex dt g n <> Throw e.
Proof.
  induction todo as [|todo IH]; intros laneIndex g n e Hr; simpl;
    [discriminate|].
  destruct (nth_error (Game.bgRadii g) laneIndex) as [radii|] eqn:Er.
  2:{ apply nth_error_None in Er. lia. }
  destruct (nth_error (Game.bgOffsets g) laneIndex) as [offset|];
    [|discriminate].
  destruct (Game.bgScroll _ _ _ _ _ _ _) as [[[o' r'] n1]|e'|] eqn:Es;
    simpl; try discriminate.
  - apply IH. simpl. rewrite assign_length. lia.
  - exfalso. exact (bgScroll_no_throw _ _ _ _ _ _ _ _ Es).
Qed.

Lemma spawnLoop_no_throw (draws : nat -> Q) (cw : Q) :
  forall fuel g n e, Game.spawnLoop draws fuel cw g n <> Throw e.
Proof.
  induction fuel as [|fuel IH]; intros g n e; simpl;
    destruct (Qle_bool _ _); try discriminate.
  destruct (Game.spawnObstacle _ _ _ _) as [g2 n2]. apply IH.
Qed.

Lemma update_no_throw (draws : nat -> Q) (fuel : nat) (ts cw : Q)
    (g : Game.t) (n : nat) (e : string) :
  background_ok g -> Game.update draws fuel ts cw g n <> Throw e.
Proof.
  intros (_ & _ & Hr). unfold Game.update.
  destruct (Game.gameOver g); [discriminate|].
  match goal with |- bind ?m _ <> _ =>
    destruct m as [[gb nb]|e'|] eqn:Eb end; simpl; try discriminate.
  - match goal with |- bind ?m _ <> _ =>
      destruct m as [[gs ns]|e'|] eqn:Es end; simpl; try discriminate.
    + destruct (Game.updatePlayers _ _ _ _ _ _) as [[ps n1] oc].
      discriminate.
    + exfalso. exact (spawnLoop_no_throw _ _ _ _ _ _ Es).
  - exfalso. revert Eb. apply bgLanes_no_throw.
    pose proof (before_bg_frame ts g) as Hf. unfold before_bg in Hf.
    field_eq Hf Game.bgRadii as E1. field_eq Hf Game.laneCount as E2.
    rewrite E1, E2. simpl. exact Hr.
Qed.

Lemma handle_no_throw (draws : nat -> Q) (fuel : nat) (ev : event)
    (w : World) (e : string) :
  background_ok (game w) -> handle draws fuel ev w <> Throw e.
Proof.
  intros Hb. destruct ev as [ts| |width]; simpl; try discriminate.
  - pose proof (update_no_throw draws fuel ts (canvasWidth w) (game w)
                  (cursor w)) as Hu.
    destruct (Game.update _ _ _ _ _ _) as [[g' n']|e'|]; simpl;
      try discriminate.
    intros H. injection H as ->. exact (Hu e Hb eq_refl).
  - destruct (Game.initBackgroundRadii _ _ _ _). discriminate.
Qed.

(** ** Frames *)


(** A frame of the page is [update] on its game. *)
Lemma handle_frame (draws : nat -> Q) (fuel : nat) (ts : Q) (w w' : World) :
  handle draws fuel (Frame ts) w = Normal w' ->
  Game.update draws fuel ts (canvasWidth w) (game w) (cursor w)
  = Normal (game w', cursor w') /\ canvasWidth w' = canvasWidth w.
Proof.
  simpl. destruct (Game.update _ _ _ _ _ _) as [[g' n']| |]; simpl;
    try discriminate.
  intros H. injection H as <-. split; reflexivity.
Qed.

(** The speed and the next threshold after the difficulty step. *)
Lemma difficulty_cases (dt : Q) (g : Game.t) :
  (Game.nextSpeedIncreaseAt g <= Game.elapsedTime g + dt /\
   Game.speed (Game.difficulty dt g)
   = Game.speed g * Game.speedIncreaseFactor g /\
   Game.nextSpeedIncreaseAt (Game.difficulty dt g)
   = Game.nextSpeedIncreaseAt g + 5) \/
  (Game.elapsedTime g + dt < Game.nextSpeedIncreaseAt g /\
   Game.speed (Game.difficulty dt g) = Game.speed g /\
   Game.nextSpeedIncreaseAt (Game.difficulty dt g)
   = Game.nextSpeedIncreaseAt g).
Proof.
  unfold Game.difficulty. simpl.
  destruct (Qle_bool _ _) eqn:E; reflect_cmp; [left|right];
    repeat split; assumption.
Qed.


(** A replay that returns walks through reachable states. *)
Lemma replay_steps (draws : nat -> Q) (fuel : nat) (events : list event) :
  forall w w',
    replay draws fuel events w = Normal w' ->
    clos_refl_trans World (step draws) w w'.
Proof.
  unfold replay. induction events as [|e events IH]; intros w w' H;
    simpl in H.
  - injection H as <-. apply rt_refl.
  - destruct (handle draws fuel e w) as [w1|err|why] eqn:He.
    + apply rt_trans with w1; [|apply IH; exact H].
      apply rt_step. exists fuel, e. exact He.
    + exfalso. clear -H. induction events; simpl in H;
        [discriminate|auto].
    + exfalso. clear -H. induction events; simpl in H;
        [discriminate|auto].
Qed.

Lemma replay_reachable (draws : nat -> Q) (fuel : nat)
    (events : list event) (names : list string) (bots : nat) (cw : Q)
    (n : nat) (w' : World) :
  replay draws fuel events (startGame draws names bots cw n) = Normal w' ->
  reachable draws w'.
Proof.
  intros H. exists names, bots, cw, n. eapply replay_steps. exact H.
Qed.

Lemma half_unit : unit_draws half.
Proof. intros n. unfold half. split; lra. Qed.




Lemma ticked_time (draws : nat -> Q) (g : Game.t) (dt : Q)
    (p p' : Player.t) :
  ticked draws g dt p p' -> Player.out p = false ->
  Player.time p' = Player.time p + dt.
Proof.
  intros Ht Ho.
  destruct (ticked_running _ _ _ _ _ Ht Ho)
    as (q & _ & _ & _ & Hq & _ & _ & [->|(-> & _)]); [exact Hq|].
  destruct (hit_lives q) as (_ & _ & _ & -> & _). exact Hq.
Qed.

Lemma w_first_reachable : reachable half w_first.
Proof.
  apply (replay_reachable half 100 [Frame 1000] ["Player"%string] 2 800 0).
  vm_compute. reflexivity.
Qed.

(** C2 fails as stated: the sample match, given a frame whose [dt] is
    -1 s, does not signal [InvalidInput]; [update] returns, with
    [elapsedTime], the spawn timer and the time of every player moved
    back by one second. *)
Lemma negative_dt_counterexample :
  Game.frameDt 0 (game w_first) < 0 /\
  handle half 100 (Frame 0) w_first <> Throw "InvalidInput" /\
  exists w',
    handle half 100 (Frame 0) w_first = Normal w' /\
    Game.elapsedTime (game w_first) == 0 /\
    Game.elapsedTime (game w') == -1 /\
    Game.spawnTimer (game w') == -1 /\
    Forall (fun p => Player.time p == 0) (Game.players (game w_first)) /\
    Forall (fun p => Player.time p == -1) (Game.players (game w')).
Proof.
  split; [vm_compute; reflexivity|].
  split; [vm_compute; discriminate|].
  exists (replayed half 100 [Frame 0] w_first).
  split; [vm_compute; reflexivity|].
  split; [vm_compute; reflexivity|].
  split; [vm_compute; reflexivity|].
  split; [vm_compute; reflexivity|].
  split; vm_compute; repeat constructor.
Qed.

(** ** Agents over a match *)

Lemma Forall2_nth (A B : Type) (R : A -> B -> Prop) (l : list A)
    (l' : list B) :
  Forall2 R l l' ->
  forall i a, nth_error l i = Some a ->
    exists b, nth_error l' i = Some b /\ R a b.
Proof.
  induction 1 as [|a b l l' Hab _ IH]; intros i x Hi.
  - destruct i; discriminate.
  - destruct i as [|i]; simpl in *.
    + injection Hi as <-. exists b. split; [reflexivity|exact Hab].
    + apply IH. exact Hi.
Qed.

Lemma Forall2_same (A : Type) (R : A -> A -> Prop) (l : list A) :
  (forall a, R a a) -> Forall2 R l l.
Proof. intros HR. induction l; constructor; auto. Qed.

(** What any handler does to the players of a match. *)
Lemma handle_players (draws : nat -> Q) (fuel : nat) (e : event)
    (w w' : World) :
  unit_draws draws -> game_ok (game w) ->
  handle draws fuel e w = Normal w' ->
  Forall2 (moved draws (game w')) (Game.players (game w))
    (Game.players (game w')).
Proof.
  intros Hd Hok H. destruct e as [ts| |width].
  - destruct (handle_frame _ _ _ _ _ H) as [Hu _].
    destruct (Game.gameOver (game w)) eqn:Hover.
    + rewrite update_gameOver in Hu by exact Hover.
      injection Hu as <- _. apply Forall2_same.
      intros p. left. left. reflexivity.
    + destruct (frame_fields _ _ _ _ _ _ _ _ Hd Hok Hover Hu)
        as (_ & _ & _ & _ & _ & _ & _ & _ & HF & _).
      eapply Forall2_impl; [|exact HF].
      intros p p' Ht. right. eexists. exact Ht.
  - simpl in H. injection H as <-. simpl.
    eapply Forall2_impl; [|apply jumpFirstHuman_pressed].
    intros p p' Hp. left. exact Hp.
  - simpl in H.
    pose proof (initBackgroundRadii_spec draws width (game w) (cursor w))
      as (Hf & _).
    destruct (Game.initBackgroundRadii _ _ _ _) as [g' n'].
    injection H as <-. simpl in *. field_eq Hf Game.players as E.
    rewrite E. apply Forall2_same. intros p. left. left. reflexivity.
Qed.

(** What one event does to one player of a match. *)
Lemma moved_facts (draws : nat -> Q) (g' : Game.t) (p p' : Player.t) :
  player_ok p -> moved draws g' p p' ->
  player_ok p' /\
  (Player.out p = true -> p' = p) /\
  (Player.lives p' <= Player.lives p)%Z /\
  ((Player.lives p' < Player.lives p)%Z ->
   Player.lives p' = (Player.lives p - 1)%Z /\
   Player.out p = false /\
   exists q, collided g' p q /\ p' = Game.hit q).
Proof.
  intros Hok [[->| ->]|[dt Ht]].
  - repeat split; try apply Hok; try lia.
  - split; [apply jump_ok; exact Hok|].
    split; [apply jump_out|]. rewrite jump_lives. split; lia.
  - split; [eapply ticked_ok; eassumption|].
    destruct (Player.out p) eqn:Ho.
    + destruct (ticked_cases _ _ _ _ _ Ht) as [[_ ->]|[Ho' _]];
        [|congruence].
      repeat split; try lia.
    + split; [discriminate|].
      destruct (ticked_running _ _ _ _ _ Ht Ho)
        as (q & Hq & Hl & _ & _ & _ & _ & [->|(-> & Hi & Hy & Hobs)]).
      * rewrite Hl. split; lia.
      * destruct (hit_lives q) as (-> & _). rewrite Hl.
        split; [lia|]. intros _. split; [reflexivity|].
        split; [reflexivity|]. exists q. split; [|reflexivity].
        split; [exists dt; exact Hq|]. repeat split; assumption.
Qed.

(** C3. In every reachable state of a match and for every agent:
    [lives] lies between 0 and 3 and [out] holds exactly when [lives]
    is 0; an event leaves an agent that is out untouched, so its [time]
    changes only in frames in which it is not out; [lives] never
    increases, and decreases, by one, only through a collision found
    while [invulnerable] is false; [out] turns true only in the step in
    which [lives] goes from 1 to 0 and never turns false again. *)
Theorem agent_lives_time_out (draws : nat -> Q) (w : World) :
  unit_draws draws -> reachable draws w ->
  (forall i p,
     nth_error (Game.players (game w)) i = Some p ->
     (0 <= Player.lives p <= 3)%Z /\
     (Player.out p = true <-> Player.lives p = 0%Z)) /\
  (forall w', step draws w w' ->
     forall i p,
       nth_error (Game.players (game w)) i = Some p ->
       exists p',
         nth_error (Game.players (game w')) i = Some p' /\
         (Player.out p = true -> p' = p) /\
         (Player.time p' <> Player.time p -> Player.out p = false) /\
         (Player.lives p' <= Player.lives p)%Z /\
         ((Player.lives p' < Player.lives p)%Z ->
          Player.lives p' = (Player.lives p - 1)%Z /\
          Player.out p = false /\
          exists q, collided (game w') p q /\ p' = Game.hit q) /\
         (Player.out p' = true <-> Player.lives p' = 0%Z) /\
         (Player.out p = false -> Player.out p' = true ->
          Player.lives p = 1%Z /\ Player.lives p' = 0%Z)) /\
  (forall w', clos_refl_trans World (step draws) w w' ->
     forall i p,
       nth_error (Game.players (game w)) i = Some p ->
       exists p',
         nth_error (Game.players (game w')) i = Some p' /\
         (Player.lives p' <= Player.lives p)%Z /\
         (Player.out p = true -> p' = p)).
Proof.
  intros Hd Hr. pose proof (reachable_ok draws w Hd Hr) as Hok.
  assert (Hps : forall g i p, game_ok g ->
            nth_error (Game.players g) i = Some p -> player_ok p).
  { intros g i p Hg Hi.
    destruct Hg as (_ & _ & _ & _ & _ & _ & _ & _ & _ & _ & HF & _).
    rewrite Forall_forall in HF. apply HF. eapply nth_error_In. exact Hi. }
  split.
  { intros i p Hi. destruct (Hps _ _ _ Hok Hi) as (H1 & H2 & _).
    split; assumption. }
  split.
  { intros w' (fuel & e & Hs) i p Hi.
    pose proof (handle_players _ _ _ _ _ Hd Hok Hs) as HF.
    destruct (Forall2_nth _ _ _ _ _ HF i p Hi) as (p' & Hi' & Hm).
    pose proof (Hps _ _ _ Hok Hi) as Hp.
    destruct (moved_facts _ _ _ _ Hp Hm) as (Hp' & Hfrozen & Hle & Hdec).
    exists p'. split; [exact Hi'|]. split; [exact Hfrozen|].
    split.
    { intros Hne. destruct (Player.out p) eqn:Ho; [|reflexivity].
      exfalso. apply Hne. rewrite Hfrozen by reflexivity. reflexivity. }
    split; [exact Hle|]. split; [exact Hdec|].
    destruct Hp as (Hrange & Hout & _). destruct Hp' as (Hrange' & Hout' & _).
    split; [exact Hout'|].
    intros Ho Ho'. apply Hout' in Ho'.
    assert (Player.lives p <> 0%Z) by (intros E; apply Hout in E; congruence).
    destruct (Hdec ltac:(lia)) as (E & _). lia. }
  intros w' Hsteps. apply clos_rt_rt1n in Hsteps.
  induction Hsteps as [w|w w1 w2 (fuel & e & Hs) _ IH]; intros i p Hi.
  - exists p. split; [exact Hi|]. split; [lia|reflexivity].
  - pose proof (handle_players _ _ _ _ _ Hd Hok Hs) as HF.
    destruct (Forall2_nth _ _ _ _ _ HF i p Hi) as (p1 & Hi1 & Hm).
    destruct (moved_facts _ _ _ _ (Hps _ _ _ Hok Hi) Hm)
      as (_ & Hfrozen & Hle & _).
    assert (Hr1 : reachable draws w1).
    { destruct Hr as (names & bots & width & n & Hr).
      exists names, bots, width, n.
      apply rt_trans with w; [exact Hr|].
      apply rt_step. exists fuel, e. exact Hs. }
    destruct (IH Hr1 (handle_ok _ _ _ _ _ Hd Hok Hs) i p1 Hi1)
      as (p2 & Hi2 & Hle2 & Hfrozen2).
    exists p2. split; [exact Hi2|]. split; [lia|].
    intros Ho. rewrite <- (Hfrozen Ho). apply Hfrozen2.
    rewrite (Hfrozen Ho). exact Ho.
Qed.

(** ** Collisions *)

Lemma playerTick_after_physics (draws : nat -> Q) (g : Game.t) (dt : Q)
    (p : Player.t) (n : nat) :
  Player.out p = false ->
  fst (Game.playerTick draws g dt p n)
  = (let q := after_physics draws g dt p n in
     if negb (Player.invulnerable q)
     then Game.collide (Game.obstacles g) q
     else q).
Proof.
  intros Ho. unfold Game.playerTick, after_physics. rewrite Ho.
  destruct (if Player.isBot p then Game.handleBot draws g p n else (p, n))
    as [pb n1]. reflexivity.
Qed.

Lemma after_physics_lives (draws : nat -> Q) (g : Game.t) (dt : Q)
    (p : Player.t) (n : nat) :
  Player.lives (after_physics draws g dt p n) = Player.lives p.
Proof.
  unfold after_physics. rewrite updatePhysics_lives.
  destruct (Player.isBot p); [|reflexivity].
  unfold Game.handleBot.
  destruct (handleBotScan_cases draws (Game.obstacles g) (Game.speed g) p n)
    as [[n1 ->]|(-> & _)]; [reflexivity|apply jump_lives].
Qed.

(** While the timer has more than [dt] left, the physics keep the
    player invulnerable. *)
Lemma updatePhysics_invulnerable (dt : Q) (p : Player.t) :
  Player.out p = false -> Player.invulnerable p = true ->
  dt < Player.invulnTimer p ->
  Player.invulnerable (Player.updatePhysics dt p) = true /\
  Player.invulnTimer (Player.updatePhysics dt p) = Player.invulnTimer p - dt.
Proof.
  intros Ho Hi Hdt. unfold Player.updatePhysics. rewrite Ho. simpl.
  assert (E : Qle_bool (Player.invulnTimer p - dt) 0 = false)
    by (apply Qle_bool_false; lra).
  destruct (Qlt_bool _ _); simpl; rewrite Hi; simpl; rewrite E; simpl;
    rewrite ?Hi; split; reflexivity.
Qed.

Lemma after_physics_invulnerable (draws : nat -> Q) (g : Game.t) (dt : Q)
    (p : Player.t) (n : nat) :
  Player.out p = false -> Player.invulnerable p = true ->
  dt < Player.invulnTimer p ->
  Player.invulnerable (after_physics draws g dt p n) = true /\
  Player.invulnTimer (after_physics draws g dt p n)
  = Player.invulnTimer p - dt.
Proof.
  intros Ho Hi Hdt. unfold after_physics.
  assert (H : forall pb, pb = p \/ pb = Player.jump p ->
            Player.invulnerable (Player.updatePhysics dt pb) = true /\
            Player.invulnTimer (Player.updatePhysics dt pb)
            = Player.invulnTimer p - dt).
  { intros pb [->| ->].
    - apply updatePhysics_invulnerable; assumption.
    - destruct (jump_invulnerable p) as [E1 E2]. rewrite <- E2.
      apply updatePhysics_invulnerable;
        [rewrite jump_out_same|rewrite E1|rewrite E2]; assumption. }
  apply H. destruct (Player.isBot p); [|left; reflexivity].
  unfold Game.handleBot.
  destruct (handleBotScan_cases draws (Game.obstacles g) (Game.speed g) p n)
    as [[n1 ->]|(-> & _)]; [left|right]; reflexivity.
Qed.

Lemma elapsed_nonneg (ms : list agent_move) :
  Forall (fun m => 0 <= duration m) ms -> 0 <= elapsed ms.
Proof.
  unfold elapsed, Qsum. induction 1 as [|m ms Hm _ IH]; simpl; lra.
Qed.

(** The invulnerability window: moves that take less time than the
    timer has left cost no life. *)
Lemma invulnerable_window (draws : nat -> Q) (ms : list agent_move) :
  forall p,
    Player.invulnerable p = true ->
    Forall (fun m => 0 <= duration m) ms ->
    elapsed ms < Player.invulnTimer p ->
    Player.lives (moves draws ms p) = Player.lives p.
Proof.
  unfold moves. induction ms as [|m ms IH]; intros p Hi Hf He;
    [reflexivity|].
  inversion Hf as [|m' ms' Hm Hf']; subst. simpl.
  pose proof (elapsed_nonneg ms Hf') as Hpos.
  unfold elapsed, Qsum in He, Hpos. simpl in He.
  fold (Qsum (map duration ms)) in He, Hpos.
  destruct m as [g dt n|]; simpl in *.
  - destruct (Player.out p) eqn:Ho.
    + unfold Game.playerTick. rewrite Ho. simpl.
      apply IH; [exact Hi|exact Hf'|unfold elapsed; lra].
    + rewrite playerTick_after_physics by exact Ho. cbv zeta.
      destruct (after_physics_invulnerable draws g dt p n Ho Hi
                  ltac:(lra)) as [E1 E2].
      rewrite E1. simpl. rewrite IH.
      * apply after_physics_lives.
      * exact E1.
      * exact Hf'.
      * rewrite E2. unfold elapsed. lra.
  - destruct (jump_invulnerable p) as [E1 E2].
    rewrite IH; [apply jump_lives|rewrite E1; exact Hi|exact Hf'|].
    rewrite E2. unfold elapsed. lra.
Qed.

(** C4. In a frame, an agent that is not out and that the physics leave
    vulnerable, on the ground ([y >= 0]) and overlapping an obstacle is
    hit: it loses exactly one life, becomes invulnerable with
    [invulnTimer = 0.7], and the collision loop stops, so that a frame
    costs at most one life.  An agent that the physics leave
    invulnerable loses no life in the frame; and after a hit, whatever
    happens within the next 0.7 s costs no further life. *)
Theorem one_hit_per_frame (draws : nat -> Q) (g : Game.t) (dt : Q)
    (p : Player.t) (n : nat) :
  Player.out p = false ->
  let q := after_physics draws g dt p n in
  let p' := fst (Game.playerTick draws g dt p n) in
  (Player.invulnerable q = false -> 0 <= Player.y q ->
   (exists obs, In obs (Game.obstacles g) /\ Game.overlaps obs q = true) ->
   p' = Game.hit q /\
   Player.lives p' = (Player.lives p - 1)%Z /\
   Player.invulnerable p' = true /\
   Player.invulnTimer p' = 0.7 /\
   forall ms,
     Forall (fun m => 0 <= duration m) ms -> elapsed ms < 0.7 ->
     Player.lives (moves draws ms p') = Player.lives p') /\
  (Player.lives p - 1 <= Player.lives p' <= Player.lives p)%Z /\
  (Player.invulnerable q = true ->
   p' = q /\ Player.lives p' = Player.lives p) /\
  (forall ms,
     Player.invulnerable p = true ->
     Forall (fun m => 0 <= duration m) ms ->
     elapsed ms < Player.invulnTimer p ->
     Player.lives (moves draws ms p) = Player.lives p).
Proof.
  intros Ho q p'.
  assert (Ep : p' = if negb (Player.invulnerable q)
                    then Game.collide (Game.obstacles g) q else q).
  { unfold p'. rewrite playerTick_after_physics by exact Ho. reflexivity. }
  pose proof (after_physics_lives draws g dt p n) as Hl. fold q in Hl.
  destruct (hit_lives q) as (Hhl & Hhi & Hht & _).
  split.
  { intros Hi Hy Hobs. rewrite Hi in Ep. simpl in Ep.
    rewrite (collide_hit _ _ Hy Hobs) in Ep. rewrite Ep.
    split; [reflexivity|]. split; [rewrite Hhl, Hl; reflexivity|].
    split; [exact Hhi|]. split; [exact Hht|].
    intros ms Hf He. apply invulnerable_window;
      [exact Hhi|exact Hf|rewrite Hht; exact He]. }
  split.
  { rewrite Ep. destruct (Player.invulnerable q); simpl; [lia|].
    destruct (collide_cases (Game.obstacles g) q) as [->|(-> & _)];
      [lia|rewrite Hhl; lia]. }
  split.
  { intros Hi. rewrite Hi in Ep. simpl in Ep. rewrite Ep.
    split; [reflexivity|exact Hl]. }
  intros ms. apply invulnerable_window.
Qed.

(** The first bot of the sample match in the frame in which the first
    obstacle reaches it. *)
Lemma one_hit_per_frame_witness :
  Player.out bot_before_hit = false /\
  Player.lives bot_before_hit = 3%Z /\
  let p' :=
    fst (Game.playerTick half (game w_bots_hit) 0.5 bot_before_hit 0) in
  Player.lives p' = (Player.lives bot_before_hit - 1)%Z /\
  Player.invulnerable p' = true /\
  Player.invulnTimer p' = 0.7.
Proof.
  split; [vm_compute; reflexivity|].
  split; [vm_compute; reflexivity|].
  destruct (one_hit_per_frame half (game w_bots_hit) 0.5 bot_before_hit 0)
    as (H & _); [vm_compute; reflexivity|].
  destruct H as (_ & H1 & H2 & H3 & _).
  - vm_compute. reflexivity.
  - vm_compute. discriminate.
  - match goal with |- exists obs, In obs ?l /\ _ =>
      exists (hd (Obstacle.mk 0 None 0 0 (Obstacle.hex "")) l) end.
    split; [vm_compute; left; reflexivity|vm_compute; reflexivity].
  - cbv zeta. split; [exact H1|]. split; [exact H2|exact H3].
Defined.

(** ** The end of a match *)

Lemma nth_error_snoc (A : Type) (l : list A) (a : A) (j : nat) (x : A) :
  nth_error (l ++ [a]) j = Some x ->
  ((j < List.length l)%nat /\ nth_error l j = Some x) \/
  (j = List.length l /\ x = a).
Proof.
  intros H. destruct (Nat.lt_ge_cases j (List.length l)) as [Hlt|Hge].
  - left. rewrite nth_error_app1 in H by exact Hlt. auto.
  - right. rewrite nth_error_app2 in H by exact Hge.
    destruct (j - List.length l)%nat as [|d] eqn:E; simpl in H.
    + injection H as <-. split; [lia|reflexivity].
    + destruct d; discriminate.
Qed.

(** The loop of [endGame], started after the players [seen] with the
    best time and index among them, ends on the first longest time of
    the whole list. *)
Lemma longestTime_spec (players : list Player.t) :
  forall seen bestTime winnerIndex,
    match bestTime with
    | None => seen = []
    | Some best =>
        exists k p, winnerIndex = Z.of_nat k /\ first_longest seen k /\
                    nth_error seen k = Some p /\ Player.time p = best
    end ->
    seen ++ players <> [] ->
    exists k,
      Game.longestTime players (Z.of_nat (List.length seen)) bestTime
        winnerIndex = Z.of_nat k /\
      first_longest (seen ++ players) k.
Proof.
  induction players as [|p rest IH]; intros seen bestTime winnerIndex Hinv Hne.
  - rewrite app_nil_r in *. simpl.
    destruct bestTime as [best|]; [|contradiction].
    destruct Hinv as (k & _ & -> & Hk & _). exists k. split; auto.
  - assert (Hidx : (Z.of_nat (List.length seen) + 1)%Z
                   = Z.of_nat (List.length (seen ++ [p]))).
    { rewrite length_app. simpl. lia. }
    assert (Happ : (seen ++ [p]) ++ rest = seen ++ p :: rest).
    { rewrite <- app_assoc. reflexivity. }
    assert (Hnew : (forall j q, nth_error seen j = Some q ->
                                Player.time q < Player.time p) ->
                   exists k,
                     Game.longestTime rest
                       (Z.of_nat (List.length seen) + 1)
                       (Some (Player.time p))
                       (Z.of_nat (List.length seen)) = Z.of_nat k /\
                     first_longest (seen ++ p :: rest) k).
    { intros Hlt. rewrite Hidx, <- Happ. apply IH.
      - exists (List.length seen), p. split; [reflexivity|].
        assert (Hp : nth_error (seen ++ [p]) (List.length seen) = Some p).
        { rewrite nth_error_app2 by lia. rewrite Nat.sub_diag. reflexivity. }
        split; [|split; [exact Hp|reflexivity]].
        exists p. split; [exact Hp|]. split.
        + intros j q Hj.
          destruct (nth_error_snoc _ _ _ _ _ Hj) as [[_ Hq]|[_ ->]];
            [apply Qlt_le_weak; eapply Hlt; exact Hq|apply Qle_refl].
        + intros j q Hjk Hj.
          destruct (nth_error_snoc _ _ _ _ _ Hj) as [[_ Hq]|[E _]];
            [eapply Hlt; exact Hq|lia].
      - destruct seen; discriminate. }
    simpl. destruct bestTime as [best|].
    + destruct Hinv as (k & pk & -> & (pk' & Hk1 & Hk2 & Hk3) & Hpk & <-).
      assert (pk' = pk) by congruence. subst pk'.
      destruct (Qlt_bool (Player.time pk) (Player.time p)) eqn:E;
        reflect_cmp.
      * apply Hnew. intros j q Hj.
        apply Qle_lt_trans with (Player.time pk); [eapply Hk2; exact Hj|].
        exact E.
      * rewrite Hidx, <- Happ. apply IH; [|destruct seen; discriminate].
        assert (Hklt : (k < List.length seen)%nat).
        { apply nth_error_Some. congruence. }
        assert (Hpk' : nth_error (seen ++ [p]) k = Some pk).
        { rewrite nth_error_app1 by exact Hklt. exact Hpk. }
        exists k, pk. split; [reflexivity|].
        split; [|split; [exact Hpk'|reflexivity]].
        exists pk. split; [exact Hpk'|]. split.
        -- intros j q Hj.
           destruct (nth_error_snoc _ _ _ _ _ Hj) as [[_ Hq]|[_ ->]];
             [eapply Hk2; exact Hq|exact E].
        -- intros j q Hjk Hj.
           destruct (nth_error_snoc _ _ _ _ _ Hj) as [[_ Hq]|[Ej _]];
             [eapply Hk3; eassumption|lia].
    + subst seen. apply Hnew. intros j q Hj. destruct j; discriminate.
Qed.

Lemma endGame_winner (players : list Player.t) :
  players <> [] ->
  exists k,
    Game.longestTime players 0 None (-1) = Z.of_nat k /\
    first_longest players k.
Proof.
  intros Hne. apply (longestTime_spec players [] None (-1)%Z);
    [reflexivity|exact Hne].
Qed.

(** Induction over the states of a match. *)
Lemma reachable_induction (draws : nat -> Q) (P : World -> Prop) :
  (forall names bots width n, P (startGame draws names bots width n)) ->
  (forall w fuel e w',
     reachable draws w -> P w -> handle draws fuel e w = Normal w' ->
     P w') ->
  forall w, reachable draws w -> P w.
Proof.
  intros Hstart Hstep w (names & bots & width & n & Hr).
  apply clos_rt_rtn1 in Hr.
  induction Hr as [|w1 w2 (fuel & e & Hs) Hr IH]; [apply Hstart|].
  apply (Hstep w1 fuel e w2); [|exact IH|exact Hs].
  exists names, bots, width, n. apply clos_rtn1_rt. exact Hr.
Qed.

(** What a handler other than a frame of a running game does to the
    result of the match: nothing. *)
Lemma handle_result_kept (draws : nat -> Q) (fuel : nat) (e : event)
    (w w' : World) :
  handle draws fuel e w = Normal w' ->
  Game.gameOver (game w) = true \/ (forall ts, e <> Frame ts) ->
  Game.gameOver (game w') = Game.gameOver (game w) /\
  Game.winnerIndex (game w') = Game.winnerIndex (game w).
Proof.
  intros H Hcase. destruct e as [ts| |width].
  - destruct Hcase as [Hover|Hn]; [|exfalso; exact (Hn ts eq_refl)].
    destruct (handle_frame _ _ _ _ _ H) as [Hu _].
    rewrite update_gameOver in Hu by exact Hover.
    injection Hu as <- _. split; reflexivity.
  - simpl in H. injection H as <-. split; reflexivity.
  - simpl in H.
    pose proof (initBackgroundRadii_spec draws width (game w) (cursor w))
      as (Hf & _).
    destruct (Game.initBackgroundRadii _ _ _ _) as [g' n'].
    injection H as <-. simpl in *.
    field_eq Hf Game.gameOver as E1. field_eq Hf Game.winnerIndex as E2.
    split; assumption.
Qed.

(** While a match runs it has no winner. *)
Lemma running_no_winner (draws : nat -> Q) (w : World) :
  unit_draws draws -> reachable draws w ->
  Game.gameOver (game w) = false -> Game.winnerIndex (game w) = None.
Proof.
  intros Hd Hr. pattern w. revert w Hr. apply reachable_induction.
  - intros names bots width n _.
    apply (startGame_spec draws names bots width n Hd).
  - intros w fuel e w' Hr IH H Hover'.
    destruct (Game.gameOver (game w)) eqn:Hover.
    + destruct (handle_result_kept _ _ _ _ _ H (or_introl Hover))
        as [E _]. congruence.
    + destruct e as [ts| |width];
        try (destruct (handle_result_kept draws fuel _ w w' H) as [_ ->];
             [right; discriminate|apply IH; reflexivity]).
      destruct (handle_frame _ _ _ _ _ H) as [Hu _].
      destruct (frame_fields _ _ _ _ _ _ _ _ Hd
                  (reachable_ok draws w Hd Hr) Hover Hu)
        as (_ & _ & _ & _ & _ & _ & _ & _ & _ & _ & Hw).
      rewrite Hw, Hover'. apply IH. reflexivity.
Qed.

(** C7. A match is over exactly when three of its agents are out.  It
    gets there in a frame of the running game, the first after which
    three agents are out, and that frame sets [winnerIndex], until then
    unset, to the index of the first agent, in agent order, whose time
    is the longest; all agents going out in one frame is no exception.
    Once the match is over no event changes [gameOver] or [winnerIndex],
    and a frame changes nothing at all. *)
Theorem match_ends_once (draws : nat -> Q) (w : World) :
  unit_draws draws -> reachable draws w ->
  (Game.gameOver (game w) = true <->
   (3 <= count_out (Game.players (game w)))%nat) /\
  (Game.gameOver (game w) = false -> Game.winnerIndex (game w) = None) /\
  (forall fuel e w',
     handle draws fuel e w = Normal w' ->
     Game.gameOver (game w) = true ->
     Game.gameOver (game w') = true /\
     Game.winnerIndex (game w') = Game.winnerIndex (game w) /\
     (forall ts, e = Frame ts -> w' = w)) /\
  (forall fuel e w',
     handle draws fuel e w = Normal w' ->
     Game.gameOver (game w) = false ->
     Game.gameOver (game w') = true ->
     (exists ts, e = Frame ts) /\
     (3 <= count_out (Game.players (game w')))%nat /\
     exists k,
       Game.winnerIndex (game w') = Some (Z.of_nat k) /\
       first_longest (Game.players (game w')) k).
Proof.
  intros Hd Hr. pose proof (reachable_ok draws w Hd Hr) as Hok.
  assert (Hcount : forall g, game_ok g ->
            (Game.gameOver g = true <->
             (3 <= count_out (Game.players g))%nat)).
  { intros g (Hl & _ & _ & _ & _ & _ & _ & _ & _ & _ & _ & Hg).
    rewrite <- Hl. exact Hg. }
  split; [apply Hcount; exact Hok|].
  split; [apply (running_no_winner draws); assumption|].
  split.
  { intros fuel e w' H Hover.
    destruct (handle_result_kept _ _ _ _ _ H (or_introl Hover)) as [E1 E2].
    split; [congruence|]. split; [exact E2|].
    intros ts ->. destruct (handle_frame _ _ _ _ _ H) as [Hu Hc].
    rewrite update_gameOver in Hu by exact Hover.
    injection Hu as Hg Hn. destruct w, w'. simpl in *. congruence. }
  intros fuel e w' H Hover Hover'.
  pose proof (handle_ok _ _ _ _ _ Hd Hok H) as Hok'.
  assert (He : exists ts, e = Frame ts).
  { destruct e as [ts| |width]; [exists ts; reflexivity| |];
      destruct (handle_result_kept draws fuel _ w w' H) as [E _];
      try (right; discriminate); congruence. }
  split; [exact He|]. split; [apply Hcount; assumption|].
  destruct He as [ts ->]. destruct (handle_frame _ _ _ _ _ H) as [Hu _].
  destruct (frame_fields _ _ _ _ _ _ _ _ Hd Hok Hover Hu)
    as (_ & _ & _ & _ & _ & _ & _ & _ & _ & _ & Hw).
  rewrite Hover' in Hw.
  destruct (endGame_winner (Game.players (game w'))) as (k & Ek & Hk).
  { destruct Hok' as (_ & _ & _ & _ & _ & _ & _ & _ & _ & Hn & _).
    intros E. rewrite E in Hn. simpl in Hn. lia. }
  exists k. split; [rewrite Hw, Ek; reflexivity|exact Hk].
Qed.

Lemma w_bots_8s_reachable : reachable half w_bots_8s.
Proof.
  apply (replay_reachable half 100 (frames 1000 500 17) [] 0 800 0).
  vm_compute. reflexivity.
Qed.

(** The three bots of the sample match lose their last life in the same
    frame; the match ends in that frame, and with three equal times the
    winner is the first bot. *)
Lemma match_ends_once_witness :
  Game.gameOver (game w_bots_8s) = false /\
  count_out (Game.players (game w_bots_8s)) = 0%nat /\
  handle half 100 (Frame 9500) w_bots_8s = Normal w_bots_over /\
  Game.gameOver (game w_bots_over) = true /\
  Game.winnerIndex (game w_bots_over) = Some 0%Z /\
  (3 <= count_out (Game.players (game w_bots_over)))%nat /\
  exists k,
    Game.winnerIndex (game w_bots_over) = Some (Z.of_nat k) /\
    first_longest (Game.players (game w_bots_over)) k.
Proof.
  split; [vm_compute; reflexivity|].
  split; [vm_compute; reflexivity|].
  split; [vm_compute; reflexivity|].
  split; [vm_compute; reflexivity|].
  split; [vm_compute; reflexivity|].
  destruct (match_ends_once half w_bots_8s half_unit w_bots_8s_reachable)
    as (_ & _ & _ & H).
  destruct (H 100%nat (Frame 9500) w_bots_over) as (_ & H3 & Hk).
  - vm_compute. reflexivity.
  - vm_compute. reflexivity.
  - vm_compute. reflexivity.
  - split; [exact H3|exact Hk].
Defined.

(** ** The spawn scheduler *)



(** ** Witnesses on the sample matches *)

Lemma w_bots_6s_reachable : reachable half w_bots_6s.
Proof.
  apply (replay_reachable half 100 (frames 1000 500 12) [] 0 800 0).
  vm_compute. reflexivity.
Qed.

(** The first bot of the sample match through the frame in which the
    first obstacle reaches it. *)
Lemma agent_lives_time_out_witness :
  exists p',
    nth_error (Game.players (game w_bots_hit)) 0 = Some p' /\
    (Player.out bot_before_hit = true -> p' = bot_before_hit) /\
    (Player.time p' <> Player.time bot_before_hit ->
     Player.out bot_before_hit = false) /\
    (Player.lives p' <= Player.lives bot_before_hit)%Z /\
    ((Player.lives p' < Player.lives bot_before_hit)%Z ->
     Player.lives p' = (Player.lives bot_before_hit - 1)%Z /\
     Player.out bot_before_hit = false /\
     exists q, collided (game w_bots_hit) bot_before_hit q /\
               p' = Game.hit q) /\
    (Player.out p' = true <-> Player.lives p' = 0%Z) /\
    (Player.out bot_before_hit = false -> Player.out p' = true ->
     Player.lives bot_before_hit = 1%Z /\ Player.lives p' = 0%Z).
Proof.
  destruct (agent_lives_time_out half w_bots_6s half_unit
              w_bots_6s_reachable) as (_ & H & _).
  apply (H w_bots_hit).
  - exists 100%nat, (Frame 7000). vm_compute. reflexivity.
  - vm_compute. reflexivity.
Defined.

(** A bot with [errorRate = 1.0] standing right in front of an obstacle
    of the sample match is left as it is. *)
Lemma bot_jumps_only_when_witness :
  Player.errorRate bot_before_hit == 1 /\
  Player.y bot_before_hit == 0 /\
  (exists n', Game.handleBot half (game w_bots_hit) bot_before_hit 0
              = (bot_before_hit, n')) /\
  forall dt,
    after_physics half (game w_bots_hit) dt bot_before_hit 0
    = Player.updatePhysics dt bot_before_hit.
Proof.
  split; [vm_compute; reflexivity|].
  split; [vm_compute; reflexivity|].
  apply (proj1 (bot_jumps_only_when half (game w_bots_hit) bot_before_hit
                  0)).
  - exact half_unit.
  - vm_compute. reflexivity.
Defined.

(** ** The ground *)

Lemma w_landed_reachable : reachable half w_landed.
Proof.
  apply (replay_reachable half 100
           [Frame 1000; Press; Frame 1210; Press; Frame 1630]
           ["Player"%string] 2 800 0).
  vm_compute. reflexivity.
Qed.

(** C10. [updatePhysics] resets to the ground ([y = 0], [vy = 0],
    [doubleJumpAvailable = true]) exactly when the integrated position
    is strictly above 0, so that [y <= 0] after every update and in
    every state of a match; an update whose integration lands on
    [y == 0] exactly keeps the integrated velocity and the flag of the
    double jump; and a player with [y == 0] and no double jump is
    reachable, by a double jump that lands exactly on the ground. *)
Theorem ground_reset_strict (draws : nat -> Q) :
  (forall dt p,
     Player.out p = false ->
     let p' := Player.updatePhysics dt p in
     Player.y p' <= 0 /\
     (0 < integrated_y dt p ->
      Player.y p' = 0 /\ Player.vy p' = 0 /\
      Player.doubleJumpAvailable p' = true) /\
     (integrated_y dt p <= 0 ->
      Player.y p' = integrated_y dt p /\
      Player.vy p' = Player.vy p + Player.gravity p * dt /\
      Player.doubleJumpAvailable p' = Player.doubleJumpAvailable p) /\
     (integrated_y dt p == 0 ->
      Player.y p' == 0 /\
      Player.vy p' = Player.vy p + Player.gravity p * dt /\
      Player.doubleJumpAvailable p' = Player.doubleJumpAvailable p)) /\
  (unit_draws draws -> forall w, reachable draws w ->
     Forall (fun p => Player.y p <= 0) (Game.players (game w))) /\
  (exists w p,
     reachable half w /\ In p (Game.players (game w)) /\
     Player.out p = false /\ Player.y p == 0 /\ Player.vy p == 140 /\
     Player.doubleJumpAvailable p = false).
Proof.
  split.
  { intros dt p Ho p'. split; [apply updatePhysics_y_le; exact Ho|].
    split; [apply updatePhysics_clamped; exact Ho|].
    split; [apply updatePhysics_free; exact Ho|].
    intros H0.
    destruct (updatePhysics_free dt p Ho) as (E1 & E2 & E3);
      [rewrite H0; apply Qle_refl|].
    fold p' in E1, E2, E3. rewrite E1. repeat split; assumption. }
  split.
  { intros Hd w Hr.
    destruct (reachable_ok draws w Hd Hr)
      as (_ & _ & _ & _ & _ & _ & _ & _ & _ & _ & HF & _).
    eapply Forall_impl; [|exact HF]. intros p (_ & _ & Hy & _). exact Hy. }
  exists w_landed,
    (hd (Player.constructor "" 0 false 0) (Game.players (game w_landed))).
  split; [exact w_landed_reachable|].
  split; [vm_compute; left; reflexivity|].
  repeat split; vm_compute; reflexivity.
Qed.

(** * Further properties of the code *)

(** ** Obstacles *)

(** The constructor on a known tag. *)
Lemma constructor_known (draws : nat -> Q) (x : Q) (tag : string)
    (n : nat) :
  unit_draws draws -> In tag types ->
  exists o n',
    Obstacle.constructor draws x (Some tag) n = (o, n') /\
    Obstacle.x o = x /\ Obstacle.type o = Some tag /\
    geometry tag o /\
    (tag = "hole"%string ->
     n' = S n /\ Obstacle.color o = Obstacle.hex "000000") /\
    (tag <> "hole"%string -> n' = S (S (S n))).
Proof.
  intros Hd Hin.
  destruct (Hd n) as [H0 H1]. destruct (Hd (S n)) as [H2 H3].
  unfold types in Hin. simpl in Hin.
  destruct Hin as [<-|[<-|[<-|[<-|[]]]]];
    (eexists; eexists; split; [reflexivity|]);
    unfold geometry; simpl;
    repeat split; try reflexivity; try discriminate; try lra;
    try (intros H; exfalso; apply H; reflexivity).
Qed.

(** X1. For a tag among snake, rock, hole and spike, and draws in
    [0, 1), the obstacle constructor keeps [x] and the tag and draws a
    width and a height from the tag's range: snake 50-80 by 20-30, rock
    40-70 by 30-50, hole 70-120 with the fixed height 1 and the colour
    black, spike 50-80 by 40-60, the ends of the ranges included.  A
    hole takes one draw, the others three. *)
Theorem obstacle_geometry (draws : nat -> Q) (x : Q) (tag : string)
    (n : nat) :
  unit_draws draws -> In tag types ->
  exists o n',
    Obstacle.constructor draws x (Some tag) n = (o, n') /\
    Obstacle.x o = x /\ Obstacle.type o = Some tag /\
    geometry tag o /\
    (tag = "hole"%string ->
     n' = S n /\ Obstacle.color o = Obstacle.hex "000000") /\
    (tag <> "hole"%string -> n' = S (S (S n))).
Proof. apply constructor_known. Qed.

(** A rock drawn with one half. *)
Lemma obstacle_geometry_witness :
  exists o n',
    Obstacle.constructor half 850 (Some "rock"%string) 0 = (o, n') /\
    Obstacle.x o = 850 /\ Obstacle.type o = Some "rock"%string /\
    geometry "rock" o /\
    ("rock"%string = "hole"%string ->
     n' = 1%nat /\ Obstacle.color o = Obstacle.hex "000000") /\
    ("rock"%string <> "hole"%string -> n' = 3%nat).
Proof.
  apply (obstacle_geometry half 850 "rock" 0).
  - intros k. unfold half. split; lra.
  - unfold types. simpl. auto.
Defined.

(** The index [spawnObstacle] computes from a draw in [0, 1). *)
Lemma type_index (r : Q) :
  0 <= r -> r < 1 ->
  let index := Qfloor (r * inject_Z (Z.of_nat (List.length types))) in
  (0 <= index < 4)%Z.
Proof.
  intros H0 H1. cbv zeta.
  change (inject_Z (Z.of_nat (List.length types))) with 4.
  pose proof (Qfloor_le (r * 4)) as Hle.
  pose proof (Qlt_floor (r * 4)) as Hlt.
  rewrite inject_Z_plus in Hlt. change (inject_Z 1) with 1 in Hlt.
  split.
  - assert (H : (-1 < Qfloor (r * 4))%Z).
    { rewrite Zlt_Qlt. change (inject_Z (-1)) with (-1). lra. }
    lia.
  - rewrite Zlt_Qlt. change (inject_Z 4) with 4. lra.
Qed.

(** What one call of [spawnObstacle] appends, given draws in [0, 1). *)
Lemma spawnObstacle_ok (draws : nat -> Q) (cw : Q) (g : Game.t) (n : nat) :
  unit_draws draws ->
  exists obs n',
    Game.spawnObstacle draws cw g n
    = (Game.set_obstacles (Game.obstacles g ++ [obs]) g, n') /\
    Obstacle.x obs = cw + 50 /\ obstacle_ok obs /\ (n < n')%nat.
Proof.
  intros Hd. unfold Game.spawnObstacle. cbv zeta.
  unfold random at 1.
  destruct (Hd n) as [H0 H1].
  pose proof (type_index (draws n) H0 H1) as Hi. cbv zeta in Hi.
  change (List.length types) with 4%nat in Hi.
  change (List.length ["snake"%string; "rock"%string; "hole"%string;
                       "spike"%string]) with 4%nat.
  set (index := Qfloor (draws n * inject_Z (Z.of_nat 4))) in *.
  assert (Hneg : (index <? 0)%Z = false) by (apply Z.ltb_ge; lia).
  rewrite Hneg.
  assert (Htag : exists tag,
             nth_error ["snake"%string; "rock"%string; "hole"%string;
                        "spike"%string] (Z.to_nat index) = Some tag /\
             In tag types).
  { assert (Hc : index = 0%Z \/ index = 1%Z \/ index = 2%Z \/ index = 3%Z)
      by lia.
    unfold types.
    destruct Hc as [E | [E | [E | E]]]; rewrite E; simpl; eexists; split;
      try reflexivity; auto 6. }
  destruct Htag as (tag & -> & Hin).
  destruct (constructor_known draws (cw + 50) tag (S n) Hd Hin)
    as (o & n' & -> & Hx & Ht & Hg & Hh & Hnh).
  exists o, n'. split; [reflexivity|]. split; [exact Hx|].
  split; [exists tag; auto|].
  destruct (string_dec tag "hole") as [E|E];
    [destruct (Hh E) as [-> _]|rewrite (Hnh E)]; lia.
Qed.

Lemma advance_ok (speed dt : Q) (o : Obstacle.t) :
  obstacle_ok o -> obstacle_ok (Game.advance speed dt o).
Proof.
  intros (tag & Ht & Hin & Hg). exists tag. repeat split; assumption.
Qed.

Lemma cull_Forall (P : Obstacle.t -> Prop) (l : list Obstacle.t) :
  Forall P l -> Forall P (Game.cull l).
Proof.
  induction 1 as [|o l Ho Hl IH]; simpl; [constructor|].
  destruct (Qlt_bool _ _); [exact IH|constructor; assumption].
Qed.

Lemma spawnLoop_obstacles_ok (draws : nat -> Q) (cw : Q) :
  unit_draws draws ->
  forall fuel g n g' n',
    Game.spawnLoop draws fuel cw g n = Normal (g', n') ->
    Forall obstacle_ok (Game.obstacles g) ->
    Forall obstacle_ok (Game.obstacles g').
Proof.
  intros Hd. induction fuel as [|fuel IH]; intros g n g' n' H Hok.
  - simpl in H. destruct (Qle_bool _ _); [discriminate|].
    injection H as <- <-. exact Hok.
  - destruct (Qle_bool (Game.nextSpawnInterval g) (Game.spawnTimer g))
      eqn:E.
    + rewrite spawnLoop_step in H by exact E. cbv zeta in H.
      destruct (spawnObstacle_ok draws cw
                  (Game.set_spawnTimer
                     (Game.spawnTimer g - Game.nextSpawnInterval g) g) n Hd)
        as (obs & n1 & Es & _ & Hobs & _).
      rewrite Es in H.
      destruct (Game.randomSpawnInterval _ _ _) as [interval n2].
      apply IH in H; [exact H|]. simpl.
      apply Forall_app. split; [exact Hok|]. constructor; [exact Hobs|].
      constructor.
    + rewrite spawnLoop_done in H by exact E. injection H as <- <-.
      exact Hok.
Qed.

Lemma update_obstacles_ok (draws : nat -> Q) (fuel : nat) (ts cw : Q)
    (g : Game.t) (n : nat) (g' : Game.t) (n' : nat) :
  unit_draws draws ->
  Game.update draws fuel ts cw g n = Normal (g', n') ->
  Forall obstacle_ok (Game.obstacles g) ->
  Forall obstacle_ok (Game.obstacles g').
Proof.
  intros Hd H Hok. destruct (Game.gameOver g) eqn:Hover.
  { rewrite update_gameOver in H by exact Hover.
    injection H as <- <-. exact Hok. }
  destruct (update_inv _ _ _ _ _ _ _ _ Hover H)
    as (gb & nb & gs & ns & players & outCount & Hb & Hs & _ & ->).
  apply bgLanes_frame in Hb.
  pose proof (before_bg_frame ts g) as Hc.
  field_eq Hb Game.obstacles as E1. field_eq Hc Game.obstacles as E2.
  pose proof (after_players_frame players outCount gs) as Ha.
  field_eq Ha Game.obstacles as E3. rewrite E3.
  apply (spawnLoop_obstacles_ok draws cw Hd _ _ _ _ _ Hs). simpl.
  apply cull_Forall. rewrite E1, E2. apply Forall_map.
  eapply Forall_impl; [|exact Hok]. intros o. apply advance_ok.
Qed.

Lemma handle_obstacles_ok (draws : nat -> Q) (fuel : nat) (e : event)
    (w w' : World) :
  unit_draws draws -> handle draws fuel e w = Normal w' ->
  Forall obstacle_ok (Game.obstacles (game w)) ->
  Forall obstacle_ok (Game.obstacles (game w')).
Proof.
  intros Hd H Hok. destruct e as [ts| |width].
  - destruct (handle_frame _ _ _ _ _ H) as [Hu _].
    eapply update_obstacles_ok; eassumption.
  - simpl in H. injection H as <-. exact Hok.
  - simpl in H.
    pose proof (initBackgroundRadii_spec draws width (game w) (cursor w))
      as (Hf & _).
    destruct (Game.initBackgroundRadii _ _ _ _) as [g' n'].
    injection H as <-. simpl in *. field_eq Hf Game.obstacles as E.
    rewrite E. exact Hok.
Qed.

(** X2. In every state of a match whose draws lie in [0, 1), every live
    obstacle carries one of the four tags and the width and height of
    its tag's range: [spawnObstacle] never indexes outside its table,
    so the [default] arm of the constructor is not reached with an
    unknown tag, and moving and culling change neither tag nor size. *)
Theorem live_obstacles_known (draws : nat -> Q) (w : World) :
  unit_draws draws -> reachable draws w ->
  Forall obstacle_ok (Game.obstacles (game w)).
Proof.
  intros Hd Hr. pattern w. revert w Hr. apply reachable_induction.
  - intros names bots width n.
    destruct (startGame_spec draws names bots width n Hd)
      as (_ & _ & _ & _ & _ & _ & -> & _). constructor.
  - intros w fuel e w' _ IH H. eapply handle_obstacles_ok; eassumption.
Qed.

(** The two obstacles of the sample match after four seconds. *)
Lemma live_obstacles_known_witness :
  List.length (Game.obstacles (game w_4s)) = 2%nat /\
  Forall obstacle_ok (Game.obstacles (game w_4s)).
Proof.
  split; [vm_compute; reflexivity|].
  apply (live_obstacles_known half w_4s).
  - intros k. unfold half. split; lra.
  - apply (replay_reachable half 100 [Frame 1000; Frame 5000]
             ["Player"%string] 2 800 0).
    vm_compute. reflexivity.
Defined.

(** ** A new match *)

Lemma addHumans_eq (names : list string) :
  forall i players,
    Game.addHumans i names players
    = players ++ map (fun '(k, name) => Player.constructor name k false 0.1)
                   (combine (seq i (List.length names)) names).
Proof.
  induction names as [|name names IH]; intros i players; simpl.
  - rewrite app_nil_r. reflexivity.
  - rewrite IH, <- app_assoc. reflexivity.
Qed.

Lemma addBots_eq (todo : nat) :
  forall b players,
    Game.addBots todo b players
    = players ++ map (fun k =>
                        Player.constructor
                          ("Bot " ++ decimal (b + k + 1))%string
                          (List.length players + k) true 0.05)
                   (seq 0 todo).
Proof.
  induction todo as [|todo IH]; intros b players.
  - simpl. rewrite app_nil_r. reflexivity.
  - cbn [Game.addBots]. rewrite IH, <- app_assoc. f_equal.
    change (seq 0 (S todo)) with (0%nat :: seq 1 todo).
    cbn [map app]. f_equal.
    + f_equal; [do 2 f_equal; lia|lia].
    + rewrite <- seq_shift, map_map. apply map_ext. intros k.
      rewrite length_app. cbn [List.length].
      f_equal; [do 2 f_equal; lia|lia].
Qed.

Lemma fillLanes_eq (todo : nat) :
  forall players,
    Game.fillLanes todo players
    = players ++ fillerPlayers (List.length players) todo.
Proof.
  unfold fillerPlayers.
  induction todo as [|todo IH]; intros players.
  - simpl. rewrite app_nil_r. reflexivity.
  - cbn [Game.fillLanes]. rewrite IH, <- app_assoc. f_equal.
    change (seq 0 (S todo)) with (0%nat :: seq 1 todo).
    cbn [map app]. f_equal.
    + f_equal; [do 2 f_equal; lia|lia].
    + rewrite <- seq_shift, map_map. apply map_ext. intros k.
      rewrite length_app. cbn [List.length].
      f_equal; [do 2 f_equal; lia|lia].
Qed.

Lemma humanPlayers_length (names : list string) :
  List.length (humanPlayers names) = List.length names.
Proof.
  unfold humanPlayers.
  rewrite length_map, length_combine, length_seq. lia.
Qed.

(** The players of the game [startGame] makes. *)
Lemma startGame_players (draws : nat -> Q) (names : list string)
    (bots : nat) (cw : Q) (n : nat) :
  let humans := List.length names in
  Game.players (game (startGame draws names bots cw n))
  = humanPlayers names ++ botPlayers humans bots
    ++ fillerPlayers (humans + bots) (3 - (humans + bots)) /\
  Game.playerCount (game (startGame draws names bots cw n))
  = (humans + bots)%nat.
Proof.
  intros humans. unfold startGame, Game.constructor.
  rewrite randomSpawnInterval_eq. cbv zeta.
  match goal with |- context [Game.initBackgroundRadii ?d ?c ?g0 ?k] =>
    pose proof (initBackgroundRadii_spec d c g0 k) as Hbg;
    destruct (Game.initBackgroundRadii d c g0 k) as [g1 n1] end.
  cbv zeta in Hbg. simpl fst in Hbg. destruct Hbg as (Hf & _).
  unfold Game.start. rewrite randomSpawnInterval_eq.
  cbn [game Game.players Game.playerCount Game.set_nextSpawnInterval
       Game.set_spawnTimer].
  pose proof (f_equal Game.players Hf) as E.
  pose proof (f_equal Game.playerCount Hf) as Ec.
  cbn [no_bg Game.players Game.playerCount Game.set_bgRadii
       Game.set_bgOffsets Game.initializePlayers Game.set_players
       Game.set_nextSpawnInterval Game.laneCount] in E, Ec.
  split; [|exact Ec].
  assert (Eh : Game.addHumans 0 names [] = humanPlayers names)
    by (rewrite addHumans_eq; reflexivity).
  assert (Eb : Game.addBots bots 0 (humanPlayers names)
               = humanPlayers names ++ botPlayers humans bots).
  { rewrite addBots_eq, humanPlayers_length. reflexivity. }
  assert (Lb : List.length (botPlayers humans bots) = bots).
  { unfold botPlayers. rewrite length_map, length_seq. reflexivity. }
  rewrite E, Eh, Eb, fillLanes_eq, length_app, humanPlayers_length, Lb.
  rewrite <- app_assoc. reflexivity.
Qed.

Lemma nth_error_map_seq (A : Type) (f : nat -> A) (len i : nat) (a : A) :
  nth_error (map f (seq 0 len)) i = Some a -> (i < len)%nat /\ a = f i.
Proof.
  intros H. rewrite nth_error_map in H.
  destruct (nth_error (seq 0 len) i) as [k|] eqn:E; [|discriminate].
  injection H as <-.
  assert (Hi : (i < len)%nat).
  { rewrite <- (length_seq len 0). apply nth_error_Some. congruence. }
  split; [exact Hi|].
  rewrite nth_error_nth' with (d := 0%nat) in E
    by (rewrite length_seq; exact Hi).
  rewrite seq_nth in E by exact Hi. injection E as <-. reflexivity.
Qed.

Lemma humanPlayers_nth (names : list string) (i : nat) (p : Player.t) :
  nth_error (humanPlayers names) i = Some p ->
  exists name,
    nth_error names i = Some name /\
    p = Player.constructor name i false 0.1.
Proof.
  unfold humanPlayers. intros H. rewrite nth_error_map in H.
  destruct (nth_error (combine (seq 0 (List.length names)) names) i)
    as [[k name]|] eqn:E; [|discriminate].
  injection H as <-.
  assert (Hi : (i < List.length names)%nat).
  { assert (Hl : (i < List.length
                        (combine (seq 0 (List.length names)) names))%nat)
      by (apply nth_error_Some; congruence).
    rewrite length_combine, length_seq in Hl. lia. }
  rewrite nth_error_nth' with (d := (0%nat, EmptyString)) in E
    by (rewrite length_combine, length_seq; lia).
  rewrite combine_nth in E by (rewrite length_seq; reflexivity).
  rewrite seq_nth in E by exact Hi. injection E as <- <-.
  exists (nth i names EmptyString). split; [|reflexivity].
  apply nth_error_nth'. exact Hi.
Qed.

(** The players of a new match, lane by lane. *)
Lemma startGame_lanes (draws : nat -> Q) (names : list string)
    (bots : nat) (cw : Q) (n : nat) :
  let humans := List.length names in
  let players := Game.players (game (startGame draws names bots cw n)) in
  List.length players = Nat.max 3 (humans + bots) /\
  forall i p,
    nth_error players i = Some p ->
    Player.lane p = i /\ Player.lives p = 3%Z /\ Player.out p = false /\
    ((i < humans)%nat ->
     Player.isBot p = false /\ nth_error names i = Some (Player.name p)) /\
    ((humans <= i < humans + bots)%nat ->
     Player.isBot p = true /\ Player.errorRate p = 0.05 /\
     Player.name p = ("Bot " ++ decimal (i - humans + 1))%string) /\
    ((humans + bots <= i)%nat ->
     Player.isBot p = true /\ Player.errorRate p = 1.0 /\
     Player.name p = ("Bot " ++ decimal (i + 1))%string).
Proof.
  intros humans players.
  destruct (startGame_players draws names bots cw n) as [E _].
  fold humans in E. fold players in E. rewrite E.
  assert (Lh : List.length (humanPlayers names) = humans)
    by apply humanPlayers_length.
  assert (Lb : List.length (botPlayers humans bots) = bots).
  { unfold botPlayers. rewrite length_map, length_seq. reflexivity. }
  split.
  { rewrite !length_app, Lh, Lb. unfold fillerPlayers.
    rewrite length_map, length_seq. lia. }
  intros i p Hi.
  destruct (Nat.lt_ge_cases i humans) as [H1|H1].
  - rewrite nth_error_app1 in Hi by (rewrite Lh; exact H1).
    destruct (humanPlayers_nth names i p Hi) as (name & Hn & ->).
    simpl. repeat split; auto; lia.
  - rewrite nth_error_app2 in Hi by (rewrite Lh; exact H1).
    rewrite Lh in Hi.
    destruct (Nat.lt_ge_cases (i - humans) bots) as [H2|H2].
    + rewrite nth_error_app1 in Hi by (rewrite Lb; exact H2).
      apply nth_error_map_seq in Hi. destruct Hi as [_ ->]. simpl.
      repeat split; try reflexivity; try lia.
    + rewrite nth_error_app2 in Hi by (rewrite Lb; exact H2).
      rewrite Lb in Hi.
      apply nth_error_map_seq in Hi. destruct Hi as [_ ->]. simpl.
      replace (humans + bots + (i - humans - bots))%nat with i by lia.
      repeat split; try reflexivity; try lia.
Qed.

(** X3. [new Game(playerNames, botCount)] fills the lanes in order:
    the humans first, then the bots, then, while fewer than three lanes
    are taken, bots that never react ([errorRate = 1.0]).  The game has
    [max 3 (names + bots)] players, more than its three lanes when more
    are asked for, while [playerCount] stays [names + bots]; the player
    at index [i] has lane [i], three lives and is not out; the humans
    keep their names and the bots are named by their number or lane. *)
Theorem new_match_lanes (draws : nat -> Q) (names : list string)
    (bots : nat) (cw : Q) (n : nat) :
  let humans := List.length names in
  let g := game (startGame draws names bots cw n) in
  Game.players g
  = humanPlayers names ++ botPlayers humans bots
    ++ fillerPlayers (humans + bots) (3 - (humans + bots)) /\
  Game.playerCount g = (humans + bots)%nat /\
  List.length (Game.players g) = Nat.max 3 (humans + bots) /\
  forall i p,
    nth_error (Game.players g) i = Some p ->
    Player.lane p = i /\ Player.lives p = 3%Z /\ Player.out p = false /\
    ((i < humans)%nat ->
     Player.isBot p = false /\ nth_error names i = Some (Player.name p)) /\
    ((humans <= i < humans + bots)%nat ->
     Player.isBot p = true /\ Player.errorRate p = 0.05 /\
     Player.name p = ("Bot " ++ decimal (i - humans + 1))%string) /\
    ((humans + bots <= i)%nat ->
     Player.isBot p = true /\ Player.errorRate p = 1.0 /\
     Player.name p = ("Bot " ++ decimal (i + 1))%string).
Proof.
  intros humans g.
  destruct (startGame_players draws names bots cw n) as [E1 E2].
  destruct (startGame_lanes draws names bots cw n) as [E3 E4].
  split; [exact E1|]. split; [exact E2|]. split; [exact E3|exact E4].
Qed.

(** ** Culling *)

Lemma cull_split (l : list Obstacle.t) :
  exists gone,
    l = gone ++ Game.cull l /\ Forall off_screen gone /\
    (forall o rest, Game.cull l = o :: rest ->
                    0 <= Obstacle.x o + Obstacle.width o).
Proof.
  induction l as [|o l (gone & IH1 & IH2 & IH3)]; simpl.
  - exists []. repeat split; [constructor|discriminate].
  - destruct (Qlt_bool (Obstacle.x o + Obstacle.width o) 0) eqn:E;
      reflect_cmp.
    + exists (o :: gone). split; [simpl; congruence|].
      split; [constructor; assumption|exact IH3].
    + exists []. split; [reflexivity|]. split; [constructor|].
      intros o' rest H. injection H as <- _. exact E.
Qed.

(** X4. The culling loop of [update] removes from the front of the
    obstacle list exactly the leading run of obstacles that lie wholly
    left of the screen: what is left is the rest of the list, in order,
    and starts with an obstacle still on screen.  An obstacle off screen
    behind one still on screen stays; culling twice changes nothing
    more. *)
Theorem cull_leading_run (l : list Obstacle.t) :
  (exists gone,
     l = gone ++ Game.cull l /\ Forall off_screen gone /\
     (forall o rest, Game.cull l = o :: rest ->
                     0 <= Obstacle.x o + Obstacle.width o)) /\
  (forall o rest, 0 <= Obstacle.x o + Obstacle.width o ->
                  Game.cull (o :: rest) = o :: rest) /\
  Game.cull (Game.cull l) = Game.cull l.
Proof.
  split; [apply cull_split|]. split.
  - intros o rest H. simpl. apply Qlt_bool_false in H. rewrite H.
    reflexivity.
  - destruct (cull_split l) as (gone & _ & _ & H).
    destruct (Game.cull l) as [|o rest] eqn:E; [reflexivity|].
    simpl. specialize (H o rest eq_refl). apply Qlt_bool_false in H.
    rewrite H. reflexivity.
Qed.

(** ** The difficulty ladder *)

Lemma threshold_value (k : nat) :
  threshold k == 5 * (inject_Z (Z.of_nat k) + 1).
Proof.
  unfold threshold. induction k as [|k IH].
  - reflexivity.
  - rewrite inject_nat_S, Nat.iter_succ.
    set (x := Nat.iter k (fun t => t + 5) 5) in *.
    set (y := inject_Z (Z.of_nat k)) in *. lra.
Qed.

Lemma bumps_S (k : nat) : bumps (S k) = bumps k * 1.3.
Proof. unfold bumps. apply Nat.iter_succ. Qed.

Lemma bumps_ge (k : nat) : 400 <= bumps k.
Proof.
  induction k as [|k IH]; [unfold bumps; simpl; lra|].
  rewrite bumps_S. lra.
Qed.

Lemma bumps_grow (k : nat) : 400 <= bumps k /\ bumps k <= bumps (S k).
Proof.
  pose proof (bumps_ge k). split; [assumption|]. rewrite bumps_S. lra.
Qed.

Lemma handle_speed (draws : nat -> Q) (fuel : nat) (e : event)
    (w w' : World) :
  unit_draws draws -> game_ok (game w) ->
  handle draws fuel e w = Normal w' ->
  (Game.speed (game w') = Game.speed (game w) /\
   Game.nextSpeedIncreaseAt (game w')
   = Game.nextSpeedIncreaseAt (game w)) \/
  (Game.speed (game w') = Game.speed (game w) * 1.3 /\
   Game.nextSpeedIncreaseAt (game w')
   = Game.nextSpeedIncreaseAt (game w) + 5 /\
   exists ts, e = Frame ts /\
     Game.nextSpeedIncreaseAt (game w)
     <= Game.elapsedTime (game w) + Game.frameDt ts (game w)).
Proof.
  intros Hd Hok H. destruct e as [ts| |width].
  - destruct (handle_frame _ _ _ _ _ H) as [Hu _].
    destruct (Game.gameOver (game w)) eqn:Hover.
    + rewrite update_gameOver in Hu by exact Hover.
      injection Hu as <- _. left. split; reflexivity.
    + destruct (frame_fields _ _ _ _ _ _ _ _ Hd Hok Hover Hu)
        as (_ & _ & _ & Hs & Hn & _).
      assert (Hf : Game.speedIncreaseFactor (game w) = 1.3) by apply Hok.
      destruct (difficulty_cases (Game.frameDt ts (game w)) (game w))
        as [(Hc & Es & En)|(_ & Es & En)]; rewrite Es in Hs;
        rewrite En in Hn.
      * right. rewrite Hf in Hs. split; [exact Hs|]. split; [exact Hn|].
        exists ts. split; [reflexivity|exact Hc].
      * left. split; assumption.
  - simpl in H. injection H as <-. left. split; reflexivity.
  - simpl in H.
    pose proof (initBackgroundRadii_spec draws width (game w) (cursor w))
      as (Hf & _).
    destruct (Game.initBackgroundRadii _ _ _ _) as [g' n'].
    injection H as <-. simpl in *.
    field_eq Hf Game.speed as E1.
    field_eq Hf Game.nextSpeedIncreaseAt as E2.
    left. split; assumption.
Qed.

Lemma reachable_ladder (draws : nat -> Q) (w : World) :
  unit_draws draws -> reachable draws w ->
  exists k,
    Game.speed (game w) = bumps k /\
    Game.nextSpeedIncreaseAt (game w) = threshold k.
Proof.
  intros Hd Hr. pattern w. revert w Hr. apply reachable_induction.
  - intros names bots width n.
    destruct (startGame_spec draws names bots width n Hd)
      as (_ & _ & _ & Hs & _ & Hn & _).
    exists 0%nat. split; assumption.
  - intros w fuel e w' Hr (k & Hs & Hn) H.
    destruct (handle_speed _ _ _ _ _ Hd (reachable_ok draws w Hd Hr) H)
      as [[Es En]|(Es & En & _)].
    + exists k. split; congruence.
    + exists (S k). rewrite Es, En, Hs, Hn. split; reflexivity.
Qed.

(** X5. In every state of a match the speed is 400 multiplied by 1.3
    once per increase so far, and [nextSpeedIncreaseAt] is 5 s past the
    threshold of the last increase: after [k] increases it is
    [5 * (k + 1)].  No event lowers the speed: a handler leaves both
    fields alone or, in a frame whose elapsed time has reached the
    threshold, multiplies the speed by 1.3 and moves the threshold by
    5 s. *)
Theorem speed_ladder (draws : nat -> Q) (w : World) :
  unit_draws draws -> reachable draws w ->
  (exists k,
     Game.speed (game w) = bumps k /\
     Game.nextSpeedIncreaseAt (game w) = threshold k /\
     Game.nextSpeedIncreaseAt (game w)
     == 5 * (inject_Z (Z.of_nat k) + 1)) /\
  400 <= Game.speed (game w) /\
  (forall fuel e w',
     handle draws fuel e w = Normal w' ->
     Game.speed (game w) <= Game.speed (game w') /\
     ((Game.speed (game w') = Game.speed (game w) /\
       Game.nextSpeedIncreaseAt (game w')
       = Game.nextSpeedIncreaseAt (game w)) \/
      (Game.speed (game w') = Game.speed (game w) * 1.3 /\
       Game.nextSpeedIncreaseAt (game w')
       = Game.nextSpeedIncreaseAt (game w) + 5 /\
       exists ts, e = Frame ts /\
         Game.nextSpeedIncreaseAt (game w)
         <= Game.elapsedTime (game w) + Game.frameDt ts (game w)))).
Proof.
  intros Hd Hr. destruct (reachable_ladder draws w Hd Hr) as (k & Hs & Hn).
  pose proof (bumps_grow k) as [Hk _].
  split.
  { exists k. split; [exact Hs|]. split; [exact Hn|].
    rewrite Hn. apply threshold_value. }
  split; [rewrite Hs; exact Hk|].
  intros fuel e w' H.
  pose proof (handle_speed _ _ _ _ _ Hd (reachable_ok draws w Hd Hr) H)
    as Hcase.
  split; [|exact Hcase].
  destruct Hcase as [[Es _]|(Es & _)]; rewrite Es, Hs; lra.
Qed.

(** The sample match at four seconds, before any increase. *)
Lemma speed_ladder_witness :
  (exists k,
     Game.speed (game w_4s) = bumps k /\
     Game.nextSpeedIncreaseAt (game w_4s) = threshold k /\
     Game.nextSpeedIncreaseAt (game w_4s)
     == 5 * (inject_Z (Z.of_nat k) + 1)) /\
  400 <= Game.speed (game w_4s).
Proof.
  destruct (speed_ladder half w_4s) as (H1 & H2 & _).
  - intros k. unfold half. split; lra.
  - apply (replay_reachable half 100 [Frame 1000; Frame 5000]
             ["Player"%string] 2 800 0).
    vm_compute. reflexivity.
  - split; assumption.
Defined.

(** ** The first frame *)


Lemma startGame_at_rest (draws : nat -> Q) (names : list string)
    (bots : nat) (cw : Q) (n : nat) :
  Forall at_rest (Game.players (game (startGame draws names bots cw n))).
Proof.
  destruct (startGame_players draws names bots cw n) as [-> _].
  assert (H : forall name lane isBot errorRate,
            at_rest (Player.constructor name lane isBot errorRate)).
  { intros. unfold at_rest. simpl. repeat split; reflexivity. }
  repeat rewrite Forall_app. unfold humanPlayers, botPlayers, fillerPlayers.
  repeat split; apply Forall_map, Forall_forall; intros x _;
    try destruct x; apply H.
Qed.






(** ** Players over a match *)

Lemma jump_identity (p : Player.t) : identity (Player.jump p) = identity p.
Proof. rewrite jump_frame. reflexivity. Qed.

Lemma updatePhysics_identity (dt : Q) (p : Player.t) :
  identity (Player.updatePhysics dt p) = identity p.
Proof.
  unfold Player.updatePhysics. destruct (Player.out p); [reflexivity|].
  simpl. destruct (Qlt_bool _ _); simpl;
    destruct (Player.invulnerable p); simpl;
    try destruct (Qle_bool _ _); reflexivity.
Qed.

Lemma hit_identity (p : Player.t) : identity (Game.hit p) = identity p.
Proof.
  unfold Game.hit. simpl. destruct (_ <=? _)%Z; reflexivity.
Qed.

Lemma moved_identity (draws : nat -> Q) (g' : Game.t) (p p' : Player.t) :
  moved draws g' p p' -> identity p' = identity p.
Proof.
  intros [[->| ->]|[dt Ht]]; [reflexivity|apply jump_identity|].
  destruct (ticked_cases _ _ _ _ _ Ht) as [[_ ->]|(_ & pb & Hpb & Hq)];
    [reflexivity|].
  cbv zeta in Hq.
  assert (Eb : identity pb = identity p).
  { destruct Hpb as [->|[_ ->]]; [reflexivity|apply jump_identity]. }
  rewrite <- Eb, <- (updatePhysics_identity dt pb).
  destruct Hq as [[_ ->]|[_ ->]]; [reflexivity|].
  destruct (collide_cases (Game.obstacles g') (Player.updatePhysics dt pb))
    as [->|(-> & _)]; [reflexivity|apply hit_identity].
Qed.

Lemma Forall2_map_eq (A B : Type) (f : A -> B) (l l' : list A) :
  Forall2 (fun a a' => f a' = f a) l l' -> map f l' = map f l.
Proof.
  induction 1 as [|a a' l l' E _ IH]; simpl; [reflexivity|].
  rewrite E, IH. reflexivity.
Qed.

Lemma handle_identity (draws : nat -> Q) (fuel : nat) (e : event)
    (w w' : World) :
  unit_draws draws -> game_ok (game w) ->
  handle draws fuel e w = Normal w' ->
  map identity (Game.players (game w'))
  = map identity (Game.players (game w)).
Proof.
  intros Hd Hok H. apply Forall2_map_eq.
  eapply Forall2_impl; [|eapply handle_players; eassumption].
  intros p p' Hm. eapply moved_identity. exact Hm.
Qed.

Lemma steps_identity (draws : nat -> Q) (w0 w : World) :
  unit_draws draws -> game_ok (game w0) ->
  clos_refl_trans World (step draws) w0 w ->
  game_ok (game w) /\
  map identity (Game.players (game w))
  = map identity (Game.players (game w0)).
Proof.
  intros Hd H0 Hr. apply clos_rt_rtn1 in Hr.
  induction Hr as [|w1 w2 (fuel & e & Hs) _ [IHok IH]];
    [split; [exact H0|reflexivity]|].
  split; [eapply handle_ok; eassumption|].
  rewrite <- IH. eapply handle_identity; eassumption.
Qed.

Lemma body_identity (i : nat) (p q : Player.t) :
  identity p = identity q -> body i q -> body i p.
Proof.
  unfold identity, body. intros E. injection E as _ -> _ _ -> -> -> -> -> ->.
  exact (fun H => H).
Qed.

Lemma startGame_body (draws : nat -> Q) (names : list string)
    (bots : nat) (cw : Q) (n : nat) (i : nat) (p : Player.t) :
  nth_error (Game.players (game (startGame draws names bots cw n))) i
  = Some p ->
  body i p.
Proof.
  intros Hi.
  destruct (startGame_lanes draws names bots cw n) as [_ Hlanes].
  destruct (Hlanes i p Hi) as (Hl & _).
  pose proof (startGame_players draws names bots cw n) as [E _].
  apply nth_error_In in Hi. rewrite E in Hi.
  assert (Hc : exists name lane isBot errorRate,
            p = Player.constructor name lane isBot errorRate).
  { unfold humanPlayers, botPlayers, fillerPlayers in Hi.
    repeat (apply in_app_or in Hi; destruct Hi as [Hi|Hi]);
      apply in_map_iff in Hi; destruct Hi as (x & <- & _);
      try destruct x; repeat eexists. }
  destruct Hc as (name & lane & isBot & errorRate & ->).
  unfold body. simpl in *. repeat split; try reflexivity. exact Hl.
Qed.

Lemma reachable_body (draws : nat -> Q) (w : World) :
  unit_draws draws -> reachable draws w ->
  forall i p, nth_error (Game.players (game w)) i = Some p -> body i p.
Proof.
  intros Hd (names & bots & cw & n & Hr).
  pose proof (proj1 (startGame_spec draws names bots cw n Hd)) as H0.
  cbv zeta in H0.
  destruct (steps_identity _ _ _ Hd H0 Hr) as [_ E].
  intros i p Hi.
  pose proof (map_nth_error identity _ _ Hi) as Hm. rewrite E in Hm.
  rewrite nth_error_map in Hm.
  destruct (nth_error (Game.players (game (startGame draws names bots cw
                                             n))) i)
    as [q|] eqn:Hq; [|discriminate].
  assert (Eq : identity q = identity p).
  { simpl in Hm.
    exact (f_equal (fun o => match o with
                             | Some t => t
                             | None => identity p
                             end) Hm). }
  apply (body_identity i p q); [symmetry; exact Eq|].
  eapply startGame_body. exact Hq.
Qed.

(** X7. No event of a match touches what the constructor fixed of a
    player: in every reachable state the player at index [i] runs in
    lane [i] at [x = 150], 60 wide and 40 high, under gravity 2000 with
    jump velocity 700, and its [passedObstacles] is still 0 (nothing
    ever counts them); and every handled event leaves the list of
    players with the same names, roles and error rates, in the same
    order. *)
Theorem players_keep_identity (draws : nat -> Q) (w : World) :
  unit_draws draws -> reachable draws w ->
  (forall i p, nth_error (Game.players (game w)) i = Some p -> body i p) /\
  (forall w', step draws w w' ->
     map identity (Game.players (game w'))
     = map identity (Game.players (game w)) /\
     List.length (Game.players (game w'))
     = List.length (Game.players (game w))).
Proof.
  intros Hd Hr. split; [apply (reachable_body draws); assumption|].
  intros w' (fuel & e & Hs).
  pose proof (handle_identity _ _ _ _ _ Hd (reachable_ok _ _ Hd Hr) Hs)
    as E.
  split; [exact E|].
  rewrite <- (length_map identity), E. apply length_map.
Qed.

(** The sample match after two jumps and a landing. *)
Lemma players_keep_identity_witness :
  (forall i p, nth_error (Game.players (game w_landed)) i = Some p ->
               body i p) /\
  (forall w', step half w_landed w' ->
     map identity (Game.players (game w'))
     = map identity (Game.players (game w_landed)) /\
     List.length (Game.players (game w'))
     = List.length (Game.players (game w_landed))).
Proof.
  apply (players_keep_identity half w_landed).
  - intros k. unfold half. split; lra.
  - apply (replay_reachable half 100
             [Frame 1000; Press; Frame 1210; Press; Frame 1630]
             ["Player"%string] 2 800 0).
    vm_compute. reflexivity.
Defined.

(** ** Key presses and taps *)

Lemma jump_jump (p : Player.t) : Player.jump (Player.jump p) = Player.jump p.
Proof.
  destruct p as [name lane isBot errorRate x y vy width height gravity
                 jumpVelocity dja lives inv timer time out passed].
  unfold Player.jump. simpl.
  destruct out; simpl; [reflexivity|].
  destruct (Qeq_bool y 0) eqn:E; simpl; rewrite ?E; [reflexivity|].
  destruct dja; simpl; rewrite ?E; reflexivity.
Qed.

Lemma jump_isBot (p : Player.t) : Player.isBot (Player.jump p) = Player.isBot p.
Proof. rewrite jump_frame. reflexivity. Qed.

Lemma jumpFirstHuman_twice (players : list Player.t) :
  jumpFirstHuman (jumpFirstHuman players) = jumpFirstHuman players.
Proof.
  induction players as [|p rest IH]; simpl; [reflexivity|].
  destruct (negb (Player.isBot p)) eqn:E; simpl.
  - rewrite jump_isBot, E, jump_jump. reflexivity.
  - rewrite E, IH. reflexivity.
Qed.

(** X8. A jump request repeated before the next frame counts once:
    [jump()] called twice in a row leaves the player as one call does
    (on the ground the second call sets the same velocity again, in the
    air the first call spends the double jump and the second finds
    none), and so a key press or touch of [startGame] handled twice
    leaves the match where the first one left it. *)
Theorem jump_request_repeated (draws : nat -> Q) (fuel fuel' : nat)
    (w : World) :
  (forall p, Player.jump (Player.jump p) = Player.jump p) /\
  bind (handle draws fuel Press w) (handle draws fuel' Press)
  = handle draws fuel Press w.
Proof.
  split; [exact jump_jump|].
  simpl. rewrite jumpFirstHuman_twice. reflexivity.
Qed.

Lemma jumpFirstHuman_bots (players : list Player.t) :
  Forall (fun p => Player.isBot p = true) players ->
  jumpFirstHuman players = players.
Proof.
  induction 1 as [|p rest Hp _ IH]; simpl; [reflexivity|].
  rewrite Hp, IH. reflexivity.
Qed.

Lemma jumpFirstHuman_split (bots : list Player.t) (h : Player.t)
    (rest : list Player.t) :
  Forall (fun p => Player.isBot p = true) bots -> Player.isBot h = false ->
  jumpFirstHuman (bots ++ h :: rest) = bots ++ Player.jump h :: rest.
Proof.
  intros Hb Hh. induction Hb as [|p l Hp _ IH]; simpl.
  - rewrite Hh. reflexivity.
  - rewrite Hp, IH. reflexivity.
Qed.

Lemma identity_isBot (l l' : list Player.t) :
  map identity l' = map identity l ->
  map Player.isBot l' = map Player.isBot l /\
  map Player.name l' = map Player.name l.
Proof.
  intros E.
  assert (Hb : forall l0, map Player.isBot l0
               = map (fun t => snd (fst (fst (fst (fst (fst (fst (fst t))))))))
                   (map identity l0)).
  { intros l0. rewrite map_map. apply map_ext. reflexivity. }
  assert (Hn : forall l0, map Player.name l0
               = map (fun t => fst (fst (fst (fst (fst (fst (fst (fst
                                (fst t)))))))))
                   (map identity l0)).
  { intros l0. rewrite map_map. apply map_ext. reflexivity. }
  rewrite (Hb l'), (Hb l), (Hn l'), (Hn l), E. split; reflexivity.
Qed.

Lemma set_players_same (w : World) :
  mkWorld (Game.set_players (Game.players (game w)) (game w))
    (canvasWidth w) (cursor w) = w.
Proof. destruct w as [g cw n]. destruct g. reflexivity. Qed.

(** X9. The key and touch handler of [startGame] looks for the first
    player that is not a bot: it makes that one jump and touches nobody
    else, and does nothing when every player is a bot.  In a match
    started with at least one name, the first player is the first human
    at every moment, under the first name given, so that the handler
    makes [players[0]] jump and leaves the others as they are; in a
    match started without names it changes nothing. *)
Theorem press_reaches_first_human (draws : nat -> Q) (names : list string)
    (bots : nat) (cw : Q) (n fuel : nat) (w : World) :
  unit_draws draws ->
  clos_refl_trans World (step draws) (startGame draws names bots cw n) w ->
  (forall front h rest,
     Forall (fun p => Player.isBot p = true) front ->
     Player.isBot h = false ->
     jumpFirstHuman (front ++ h :: rest) = front ++ Player.jump h :: rest) /\
  (forall name others,
     names = name :: others ->
     exists p rest,
       Game.players (game w) = p :: rest /\
       Player.isBot p = false /\ Player.name p = name /\
       handle draws fuel Press w
       = Normal (mkWorld (Game.set_players (Player.jump p :: rest) (game w))
                   (canvasWidth w) (cursor w))) /\
  (names = [] -> handle draws fuel Press w = Normal w).
Proof.
  intros Hd Hr. split; [exact jumpFirstHuman_split|].
  pose proof (proj1 (startGame_spec draws names bots cw n Hd)) as H0.
  cbv zeta in H0.
  destruct (steps_identity _ _ _ Hd H0 Hr) as [_ E].
  destruct (identity_isBot _ _ E) as [Eb En].
  destruct (startGame_players draws names bots cw n) as [Ep _].
  rewrite Ep in Eb, En. split.
  - intros name others ->.
    unfold humanPlayers in Eb, En. simpl in Eb, En.
    destruct (Game.players (game w)) as [|p rest] eqn:Ew; [discriminate|].
    simpl in Eb, En. injection Eb as Hb _. injection En as Hn _.
    exists p, rest. split; [reflexivity|]. split; [exact Hb|].
    split; [exact Hn|].
    simpl. rewrite Ew. simpl. rewrite Hb. reflexivity.
  - intros ->. simpl. rewrite jumpFirstHuman_bots;
      [f_equal; apply set_players_same|].
    apply Forall_forall. intros p Hp.
    apply (in_map Player.isBot) in Hp. rewrite Eb in Hp.
    apply in_map_iff in Hp. destruct Hp as (q & <- & Hq).
    unfold humanPlayers, botPlayers, fillerPlayers in Hq. simpl in Hq.
    apply in_app_or in Hq. destruct Hq as [Hq|Hq];
      apply in_map_iff in Hq; destruct Hq as (x & <- & _); reflexivity.
Qed.

(** The sample match, started with one name, in the air. *)
Lemma press_reaches_first_human_witness :
  exists p rest,
    Game.players (game w_landed) = p :: rest /\
    Player.isBot p = false /\ Player.name p = "Player"%string /\
    handle half 0 Press w_landed
    = Normal (mkWorld (Game.set_players (Player.jump p :: rest)
                         (game w_landed))
                (canvasWidth w_landed) (cursor w_landed)).
Proof.
  refine (proj1 (proj2 (press_reaches_first_human half ["Player"%string] 2
                          800 0 0 w_landed _ _))
            "Player"%string [] eq_refl).
  - intros k. unfold half. split; lra.
  - apply (replay_steps half 100
             [Frame 1000; Press; Frame 1210; Press; Frame 1630]).
    vm_compute. reflexivity.
Defined.
(** ** The invulnerability timer *)

Lemma updatePhysics_timer (dt : Q) (p : Player.t) :
  Player.out p = false ->
  let p' := Player.updatePhysics dt p in
  (Player.invulnerable p = false ->
   Player.invulnerable p' = false /\
   Player.invulnTimer p' = Player.invulnTimer p) /\
  (Player.invulnerable p = true ->
   Player.invulnTimer p' = Player.invulnTimer p - dt /\
   Player.invulnerable p' = negb (Qle_bool (Player.invulnTimer p - dt) 0)).
Proof.
  intros Ho. unfold Player.updatePhysics. rewrite Ho. simpl.
  destruct (Qlt_bool _ _); simpl; split; intros Hi; rewrite Hi; simpl;
    try (split; [exact Hi|reflexivity]);
    destruct (Qle_bool _ _); simpl; rewrite ?Hi; split; reflexivity.
Qed.

Lemma updatePhysics_timer_runs (dt : Q) (p : Player.t) :
  timer_runs p -> timer_runs (Player.updatePhysics dt p).
Proof.
  intros Hp. destruct (Player.out p) eqn:Ho;
    [rewrite updatePhysics_out by exact Ho; exact Hp|].
  destruct (updatePhysics_timer dt p Ho) as [Hv Hi]. unfold timer_runs.
  destruct (Player.invulnerable p).
  - destruct (Hi eq_refl) as [-> ->]. intros H.
    apply Bool.negb_true_iff, Qle_bool_false in H. exact H.
  - destruct (Hv eq_refl) as [-> _]. discriminate.
Qed.

Lemma jump_timer_runs (p : Player.t) :
  timer_runs p -> timer_runs (Player.jump p).
Proof.
  unfold timer_runs. destruct (jump_invulnerable p) as [-> ->]. auto.
Qed.

Lemma moved_timer_runs (draws : nat -> Q) (g' : Game.t) (p p' : Player.t) :
  moved draws g' p p' -> timer_runs p -> timer_runs p'.
Proof.
  intros [[->| ->]|[dt Ht]] Hp; [exact Hp|apply jump_timer_runs; exact Hp|].
  destruct (ticked_cases _ _ _ _ _ Ht) as [[_ ->]|(_ & pb & Hpb & Hq)];
    [exact Hp|].
  cbv zeta in Hq.
  assert (Hb : timer_runs pb).
  { destruct Hpb as [->|[_ ->]]; [exact Hp|apply jump_timer_runs; exact Hp]. }
  pose proof (updatePhysics_timer_runs dt pb Hb) as Hq'.
  destruct Hq as [[_ ->]|[_ ->]]; [exact Hq'|].
  destruct (collide_cases (Game.obstacles g') (Player.updatePhysics dt pb))
    as [->|(-> & _)]; [exact Hq'|].
  intros _. destruct (hit_lives (Player.updatePhysics dt pb))
    as (_ & _ & -> & _). reflexivity.
Qed.

(** X10. A player is invulnerable only while its timer runs: in every
    reachable state, a player with [invulnerable] set has a positive
    [invulnTimer], and a player that is not out and not invulnerable
    is as exposed as at the start of the match: the physics of the next
    frame leave it vulnerable, whatever [dt]. *)
Theorem invulnerable_only_while_timer_runs (draws : nat -> Q) (w : World) :
  unit_draws draws -> reachable draws w ->
  forall p, In p (Game.players (game w)) ->
    (Player.invulnerable p = true -> 0 < Player.invulnTimer p) /\
    (Player.out p = false -> Player.invulnerable p = false ->
     forall g dt n,
       Player.invulnerable (after_physics draws g dt p n) = false).
Proof.
  intros Hd Hr.
  assert (Hinv : Forall timer_runs (Game.players (game w))).
  { revert w Hr. apply reachable_induction.
    - intros names bots cw n.
      eapply Forall_impl; [|apply startGame_at_rest].
      intros p (_ & _ & _ & _ & _ & Hi & _). unfold timer_runs.
      rewrite Hi. discriminate.
    - intros w fuel e w' Hr IH Hs.
      pose proof (handle_players _ _ _ _ _ Hd (reachable_ok _ _ Hd Hr) Hs)
        as HF.
      clear -HF IH. induction HF as [|p p' l l' Hm _ IHF]; [constructor|].
      inversion IH; subst. constructor; [|apply IHF; assumption].
      eapply moved_timer_runs; eassumption. }
  intros p Hp. split; [exact (proj1 (Forall_forall _ _) Hinv p Hp)|].
  intros Ho Hi g dt n. unfold after_physics.
  assert (H : forall pb, pb = p \/ pb = Player.jump p ->
            Player.invulnerable (Player.updatePhysics dt pb) = false).
  { intros pb Hpb.
    assert (Hob : Player.out pb = false).
    { destruct Hpb as [->| ->]; [|rewrite jump_out_same]; exact Ho. }
    assert (Hib : Player.invulnerable pb = false).
    { destruct Hpb as [->| ->]; [exact Hi|].
      destruct (jump_invulnerable p) as [-> _]. exact Hi. }
    apply (updatePhysics_timer dt pb Hob). exact Hib. }
  apply H. destruct (Player.isBot p); [|left; reflexivity].
  unfold Game.handleBot.
  destruct (handleBotScan_cases draws (Game.obstacles g) (Game.speed g) p n)
    as [[n1 ->]|(-> & _)]; [left|right]; reflexivity.
Qed.

(** The first bot of the match of three bots, just hit: its timer
    stands at 0.7. *)
Lemma invulnerable_only_while_timer_runs_witness :
  Player.invulnerable bot_after_hit = true /\
  0 < Player.invulnTimer bot_after_hit.
Proof.
  split; [vm_compute; reflexivity|].
  refine (proj1 (invulnerable_only_while_timer_runs half w_bots_hit _ _
                   bot_after_hit _) _).
  - intros k. unfold half. split; lra.
  - apply (replay_reachable half 100 (frames 1000 500 13) [] 0 800 0).
    vm_compute. reflexivity.
  - vm_compute. left. reflexivity.
  - vm_compute. reflexivity.
Defined.

(** X11. The frame in which the timer runs out ends the window: for a
    player that is not out and invulnerable with [invulnTimer <= dt],
    the physics clear [invulnerable] and leave the timer at
    [invulnTimer - dt] (zero or below; it is not reset), and the
    collision check of that same frame already counts: on the ground
    over an obstacle the player is hit, in the air it is not. *)
Theorem window_closes (draws : nat -> Q) (g : Game.t) (dt : Q)
    (p : Player.t) (n : nat) :
  Player.out p = false -> Player.invulnerable p = true ->
  Player.invulnTimer p <= dt ->
  let q := after_physics draws g dt p n in
  let p' := fst (Game.playerTick draws g dt p n) in
  Player.invulnerable q = false /\
  Player.invulnTimer q = Player.invulnTimer p - dt /\
  (0 <= Player.y q ->
   (exists obs, In obs (Game.obstacles g) /\ Game.overlaps obs q = true) ->
   p' = Game.hit q /\ Player.lives p' = (Player.lives p - 1)%Z /\
   Player.invulnTimer p' = 0.7) /\
  (Player.y q < 0 -> p' = q).
Proof.
  intros Ho Hi Hdt q p'.
  assert (Hq : Player.invulnerable q = false /\
               Player.invulnTimer q = Player.invulnTimer p - dt).
  { unfold q, after_physics.
    assert (H : forall pb, pb = p \/ pb = Player.jump p ->
              Player.invulnerable (Player.updatePhysics dt pb) = false /\
              Player.invulnTimer (Player.updatePhysics dt pb)
              = Player.invulnTimer p - dt).
    { intros pb Hpb.
      assert (Hob : Player.out pb = false).
      { destruct Hpb as [->| ->]; [|rewrite jump_out_same]; exact Ho. }
      assert (Hib : Player.invulnerable pb = true).
      { destruct Hpb as [->| ->]; [exact Hi|].
        destruct (jump_invulnerable p) as [-> _]. exact Hi. }
      assert (Htb : Player.invulnTimer pb = Player.invulnTimer p).
      { destruct Hpb as [->| ->]; [reflexivity|].
        apply jump_invulnerable. }
      destruct (updatePhysics_timer dt pb Hob) as [_ H].
      destruct (H Hib) as [-> ->]. rewrite Htb.
      split; [|reflexivity]. apply Bool.negb_false_iff, Qle_bool_iff. lra. }
    apply H. destruct (Player.isBot p); [|left; reflexivity].
    unfold Game.handleBot.
    destruct (handleBotScan_cases draws (Game.obstacles g) (Game.speed g) p
                n) as [[n1 ->]|(-> & _)]; [left|right]; reflexivity. }
  destruct Hq as [Hqi Hqt].
  assert (Ep : p' = Game.collide (Game.obstacles g) q).
  { unfold p'. rewrite playerTick_after_physics by exact Ho.
    cbv zeta. fold q. rewrite Hqi. reflexivity. }
  split; [exact Hqi|]. split; [exact Hqt|]. split.
  - intros Hy Hobs. rewrite Ep, (collide_hit _ _ Hy Hobs).
    destruct (hit_lives q) as (-> & _ & -> & _).
    unfold q. rewrite after_physics_lives. repeat split; reflexivity.
  - intros Hy. rewrite Ep. apply collide_miss. exact Hy.
Qed.

(** The bot that was just hit, in a frame of 0.7 s. *)
Lemma window_closes_witness :
  Player.invulnTimer bot_after_hit = 0.7 /\
  let q := after_physics half (game w_bots_hit) 0.7 bot_after_hit 0 in
  Player.invulnerable q = false /\
  Player.invulnTimer q = Player.invulnTimer bot_after_hit - 0.7.
Proof.
  split; [vm_compute; reflexivity|].
  destruct (window_closes half (game w_bots_hit) 0.7 bot_after_hit 0)
    as (H1 & H2 & _).
  - vm_compute. reflexivity.
  - vm_compute. reflexivity.
  - vm_compute. discriminate.
  - split; [exact H1|exact H2].
Defined.

(** ** Survival time *)

Lemma handle_clock (draws : nat -> Q) (fuel : nat) (e : event)
    (w w' : World) :
  unit_draws draws -> game_ok (game w) ->
  handle draws fuel e w = Normal w' ->
  exists dt,
    Game.elapsedTime (game w') == Game.elapsedTime (game w) + dt /\
    Forall2 (fun p p' =>
               (Player.out p = false -> Player.time p' == Player.time p + dt)
               /\ (Player.out p' = false -> Player.out p = false))
      (Game.players (game w)) (Game.players (game w')).
Proof.
  intros Hd Hok H.
  assert (Hpress : forall l l', Forall2 pressed l l' ->
            Forall2 (fun p p' =>
               (Player.out p = false -> Player.time p' == Player.time p + 0)
               /\ (Player.out p' = false -> Player.out p = false)) l l').
  { intros l l' HF. eapply Forall2_impl; [|exact HF].
    intros p p' [->| ->]; split; intros Ho;
      rewrite ?jump_time, ?jump_out_same in *; try exact Ho; ring. }
  destruct e as [ts| |width].
  - destruct (handle_frame _ _ _ _ _ H) as [Hu _].
    destruct (Game.gameOver (game w)) eqn:Hover.
    + rewrite update_gameOver in Hu by exact Hover.
      injection Hu as <- _. exists 0. split; [ring|].
      apply Hpress, Forall2_same. intros p. left. reflexivity.
    + destruct (frame_fields _ _ _ _ _ _ _ _ Hd Hok Hover Hu)
        as (_ & _ & He & _ & _ & _ & _ & _ & HF & _).
      exists (Game.frameDt ts (game w)). split; [rewrite He; reflexivity|].
      eapply Forall2_impl; [|exact HF].
      intros p p' Ht. split.
      * intros Ho.
        destruct (ticked_running _ _ _ _ _ Ht Ho)
          as (q & _ & _ & _ & Hq & _ & _ & [->|(-> & _)]).
        -- rewrite Hq. reflexivity.
        -- destruct (hit_lives q) as (_ & _ & _ & -> & _).
           rewrite Hq. reflexivity.
      * intros Ho'. destruct (Player.out p) eqn:Ho; [|reflexivity].
        destruct (ticked_cases _ _ _ _ _ Ht) as [[_ ->]|[Hc _]]; congruence.
  - simpl in H. injection H as <-. simpl. exists 0. split; [ring|].
    apply Hpress, jumpFirstHuman_pressed.
  - simpl in H.
    pose proof (initBackgroundRadii_spec draws width (game w) (cursor w))
      as (Hf & _).
    destruct (Game.initBackgroundRadii _ _ _ _) as [g' n'].
    injection H as <-. simpl in *. field_eq Hf Game.players as E.
    field_eq Hf Game.elapsedTime as E'.
    rewrite E, E'. exists 0. split; [ring|].
    apply Hpress, Forall2_same. intros p. left. reflexivity.
Qed.

Lemma handle_on_clock (draws : nat -> Q) (fuel : nat) (e : event)
    (w w' : World) :
  unit_draws draws -> game_ok (game w) ->
  handle draws fuel e w = Normal w' ->
  Forall (on_clock (game w)) (Game.players (game w)) ->
  Forall2 (fun p p' =>
             Player.out p = false ->
             Player.time p' == Game.elapsedTime (game w'))
    (Game.players (game w)) (Game.players (game w')) /\
  Forall (on_clock (game w')) (Game.players (game w')).
Proof.
  intros Hd Hok H Hc.
  destruct (handle_clock _ _ _ _ _ Hd Hok H) as (dt & He & HF).
  revert Hc. unfold on_clock.
  induction HF as [|p p' l l' [Hp Hp'] _ IH]; intros Hc;
    [split; constructor|].
  inversion Hc as [|? ? Hcp Hcl]; subst.
  destruct (IH Hcl) as [IH1 IH2]. split; constructor; try assumption.
  - intros Ho. rewrite (Hp Ho), (Hcp Ho), He. reflexivity.
  - intros Ho'. pose proof (Hp' Ho') as Ho.
    rewrite (Hp Ho), (Hcp Ho), He. reflexivity.
Qed.

(** X12. The survival time of a player is the clock of the match for as
    long as the player is in: in every reachable state, [time] of a
    player that is not out equals [elapsedTime]; and a player that was
    in before an event has the [elapsedTime] after the event as its
    [time], also when that event is the frame that puts it out, so
    that its final [time] is the clock at the end of that frame. *)
Theorem survival_time_is_match_clock (draws : nat -> Q) (w : World) :
  unit_draws draws -> reachable draws w ->
  (forall p, In p (Game.players (game w)) -> Player.out p = false ->
             Player.time p == Game.elapsedTime (game w)) /\
  (forall w' i p p',
     step draws w w' ->
     nth_error (Game.players (game w)) i = Some p ->
     nth_error (Game.players (game w')) i = Some p' ->
     Player.out p = false ->
     Player.time p' == Game.elapsedTime (game w')).
Proof.
  intros Hd Hr.
  assert (Hinv : Forall (on_clock (game w)) (Game.players (game w))).
  { revert w Hr. apply reachable_induction.
    - intros names bots cw n.
      destruct (startGame_spec draws names bots cw n Hd)
        as (_ & _ & _ & _ & He & _).
      eapply Forall_impl; [|apply startGame_at_rest].
      intros p (_ & _ & Ht & _) _. rewrite He, Ht. reflexivity.
    - intros w fuel e w' Hr IH Hs.
      eapply handle_on_clock; try eassumption.
      apply (reachable_ok draws); assumption. }
  split.
  - intros p Hp. exact (proj1 (Forall_forall _ _) Hinv p Hp).
  - intros w' i p p' (fuel & e & Hs) Hi Hi' Ho.
    destruct (handle_on_clock _ _ _ _ _ Hd (reachable_ok _ _ Hd Hr) Hs Hinv)
      as [HF _].
    destruct (Forall2_nth _ _ _ _ _ HF i p Hi) as (b & Hb & Hpb).
    rewrite Hi' in Hb. injection Hb as <-. exact (Hpb Ho).
Qed.

(** The sample match after four seconds: everybody is in, with four
    seconds on the clock. *)
Lemma survival_time_is_match_clock_witness :
  Game.elapsedTime (game w_4s) == 4 /\
  forall p, In p (Game.players (game w_4s)) -> Player.out p = false ->
            Player.time p == Game.elapsedTime (game w_4s).
Proof.
  split; [vm_compute; reflexivity|].
  apply (survival_time_is_match_clock half w_4s).
  - intros k. unfold half. split; lra.
  - apply (replay_reachable half 100 [Frame 1000; Frame 5000]
             ["Player"%string] 2 800 0).
    vm_compute. reflexivity.
Defined.
(** ** The final results *)

Lemma insertByTime_perm (e : entry) (l : list entry) :
  Permutation (insertByTime e l) (e :: l).
Proof.
  induction l as [|x rest IH]; simpl; [apply Permutation_refl|].
  destruct (Qlt_bool _ _); [|apply Permutation_refl].
  apply perm_trans with (x :: e :: rest);
    [apply perm_skip; exact IH|apply perm_swap].
Qed.

Lemma sortByTime_perm (l : list entry) : Permutation (sortByTime l) l.
Proof.
  induction l as [|e rest IH]; simpl; [apply perm_nil|].
  apply perm_trans with (e :: sortByTime rest);
    [apply insertByTime_perm|apply perm_skip; exact IH].
Qed.

Lemma insertByTime_sorted (e : entry) (l : list entry) :
  StronglySorted listed_before l ->
  Forall (fun x => (idx e < idx x)%nat) l ->
  StronglySorted listed_before (insertByTime e l).
Proof.
  intros Hs Hi. induction Hs as [|x rest Hs IH Hx]; simpl.
  - constructor; constructor.
  - inversion Hi as [|? ? Hix Hir]; subst.
    destruct (Qlt_bool (entryTime e) (entryTime x)) eqn:E.
    + reflect_cmp. constructor; [apply IH; exact Hir|].
      eapply Permutation_Forall;
        [apply Permutation_sym, insertByTime_perm|].
      constructor; [left; exact E|exact Hx].
    + assert (Hxe : entryTime x <= entryTime e).
      { unfold Qlt_bool in E. apply Bool.negb_false_iff in E.
        apply Qle_bool_iff. exact E. }
      constructor; [constructor; assumption|].
      assert (H : forall y, (idx e < idx y)%nat ->
                            entryTime y <= entryTime x ->
                            listed_before e y).
      { intros y Hiy Hy. unfold listed_before.
        destruct (Qlt_le_dec (entryTime y) (entryTime e)) as [Hlt|Hle];
          [left; exact Hlt|right]. split; [lra|exact Hiy]. }
      constructor; [apply H; [exact Hix|lra]|].
      rewrite Forall_forall in Hx, Hir. apply Forall_forall.
      intros y Hy. apply H; [apply Hir; exact Hy|].
      destruct (Hx y Hy) as [Hlt|[Heq _]]; lra.
Qed.

Lemma entries_idx (players : list Player.t) :
  forall i, Forall (fun x => (i <= idx x)%nat) (entries i players).
Proof.
  induction players as [|p rest IH]; intros i; simpl; constructor;
    [simpl; lia|].
  eapply Forall_impl; [|apply (IH (S i))]. simpl. intros x Hx. lia.
Qed.

Lemma entries_sorted (players : list Player.t) :
  forall i, StronglySorted listed_before (sortByTime (entries i players)).
Proof.
  induction players as [|p rest IH]; intros i; simpl; [constructor|].
  apply insertByTime_sorted; [apply IH|].
  eapply Permutation_Forall;
    [apply Permutation_sym, sortByTime_perm|].
  eapply Forall_impl; [|apply (entries_idx rest (S i))].
  simpl. intros x Hx. lia.
Qed.

Lemma entries_nth (players : list Player.t) :
  forall i k x,
    nth_error (entries i players) k = Some x ->
    idx x = (i + k)%nat /\
    exists p, nth_error players k = Some p /\
              entryName x = Player.name p /\ entryTime x = Player.time p.
Proof.
  induction players as [|p rest IH]; intros i k x Hk;
    [destruct k; discriminate|].
  destruct k as [|k]; simpl in Hk.
  - injection Hk as <-. simpl. split; [lia|].
    exists p. repeat split; reflexivity.
  - destruct (IH (S i) k x Hk) as (Hi & q & Hq & Hn & Ht).
    split; [lia|]. exists q. repeat split; assumption.
Qed.

Lemma entries_length (players : list Player.t) :
  forall i, List.length (entries i players) = List.length players.
Proof.
  induction players as [|p rest IH]; intros i; simpl;
    [reflexivity|rewrite IH; reflexivity].
Qed.

Lemma entries_nth_some (players : list Player.t) :
  forall i k p,
    nth_error players k = Some p ->
    nth_error (entries i players) k
    = Some (mkEntry (i + k) (Player.name p) (Player.time p)).
Proof.
  induction players as [|q rest IH]; intros i k p Hk;
    [destruct k; discriminate|].
  destruct k as [|k]; simpl in *.
  - injection Hk as <-. rewrite Nat.add_0_r. reflexivity.
  - rewrite (IH (S i) k p Hk). do 2 f_equal. lia.
Qed.

(** The first row of the sorted list is the first of the rows with the
    longest time. *)
Lemma sortByTime_head (l : list entry) :
  l <> [] ->
  exists k x,
    nth_error l k = Some x /\ hd_error (sortByTime l) = Some x /\
    (forall j y, nth_error l j = Some y -> entryTime y <= entryTime x) /\
    (forall j y, (j < k)%nat -> nth_error l j = Some y ->
                 entryTime y < entryTime x).
Proof.
  induction l as [|e rest IH]; intros Hne; [contradiction|].
  destruct rest as [|e' rest'].
  - exists 0%nat, e. simpl. repeat split; try reflexivity.
    + intros [|[|j]] y Hy; try discriminate. injection Hy as <-. lra.
    + intros j y Hj. lia.
  - destruct IH as (k & x & Hk & Hh & Hall & Hbefore); [discriminate|].
    set (rest := e' :: rest') in *.
    change (sortByTime (e :: rest)) with (insertByTime e (sortByTime rest)).
    destruct (sortByTime rest) as [|x0 s]; [discriminate|].
    simpl in Hh. injection Hh as ->.
    simpl. destruct (Qlt_bool (entryTime e) (entryTime x)) eqn:E.
    + reflect_cmp. exists (S k), x. split; [exact Hk|].
      split; [reflexivity|]. split.
      * intros [|j] y Hy; simpl in Hy;
          [injection Hy as <-; lra|eapply Hall; exact Hy].
      * intros [|j] y Hj Hy; simpl in Hy;
          [injection Hy as <-; exact E|].
        apply (Hbefore j); [lia|exact Hy].
    + assert (Hxe : entryTime x <= entryTime e).
      { unfold Qlt_bool in E. apply Bool.negb_false_iff in E.
        apply Qle_bool_iff. exact E. }
      exists 0%nat, e. split; [reflexivity|]. split; [reflexivity|].
      split.
      * intros [|j] y Hy; simpl in Hy; [injection Hy as <-; lra|].
        specialize (Hall j y Hy). lra.
      * intros j y Hj. lia.
Qed.

Lemma first_longest_unique (players : list Player.t) (k k' : nat) :
  first_longest players k -> first_longest players k' -> k = k'.
Proof.
  intros (p & Hp & Hall & Hbef) (p' & Hp' & Hall' & Hbef').
  destruct (Nat.lt_total k k') as [H|[H|H]]; [exfalso|exact H|exfalso].
  - pose proof (Hbef' k p H Hp). pose proof (Hall k' p' Hp'). lra.
  - pose proof (Hbef k' p' H Hp'). pose proof (Hall' k p Hp). lra.
Qed.

Lemma entries_NoDup (players : list Player.t) :
  forall i, NoDup (map idx (entries i players)).
Proof.
  induction players as [|p rest IH]; intros i; simpl; constructor;
    [|apply IH].
  intros Hin. apply in_map_iff in Hin. destruct Hin as (x & Hx & Hin).
  pose proof (proj1 (Forall_forall _ _) (entries_idx rest (S i)) x Hin).
  simpl in *. lia.
Qed.

(** The top of the final list is the winner of [endGame]. *)
Lemma ranking_top (players : list Player.t) (k : nat) :
  first_longest players k ->
  exists e rest,
    sortByTime (entries 0 players) = e :: rest /\ idx e = k /\
    Forall (fun x => idx x <> k) rest.
Proof.
  intros Hk.
  assert (Hne : entries 0 players <> []).
  { destruct Hk as (p & Hp & _). destruct players;
      [destruct k; discriminate|discriminate]. }
  destruct (sortByTime_head _ Hne) as (k' & x & Hx & Hh & Hall & Hbef).
  destruct (sortByTime (entries 0 players)) as [|e rest] eqn:Es;
    [discriminate|].
  simpl in Hh. injection Hh as ->.
  destruct (entries_nth players 0 k' x Hx) as (Hi & px & Hpx & _ & Htx).
  assert (Hk' : first_longest players k').
  { exists px. split; [exact Hpx|]. split.
    - intros j q Hq. rewrite <- Htx.
      apply (Hall j (mkEntry (0 + j) (Player.name q) (Player.time q))).
      apply entries_nth_some. exact Hq.
    - intros j q Hj Hq. rewrite <- Htx.
      apply (Hbef j (mkEntry (0 + j) (Player.name q) (Player.time q)) Hj).
      apply entries_nth_some. exact Hq. }
  pose proof (first_longest_unique _ _ _ Hk Hk') as ->.
  exists x, rest. split; [reflexivity|]. split; [exact Hi|].
  pose proof (entries_NoDup players 0) as Hnd.
  assert (Hp : Permutation (map idx (x :: rest))
                 (map idx (entries 0 players))).
  { apply Permutation_map. rewrite <- Es. apply sortByTime_perm. }
  apply Permutation_sym in Hp.
  pose proof (Permutation_NoDup Hp Hnd) as Hnd'.
  simpl in Hnd'. inversion Hnd' as [|? ? Hnot _]; subst.
  apply Forall_forall. intros y Hy E. apply Hnot.
  rewrite Hi. simpl. rewrite <- E. apply in_map. exact Hy.
Qed.

(** After the end of the match nothing changes a survival time. *)
Lemma handle_over_times (draws : nat -> Q) (fuel : nat) (e : event)
    (w w' : World) :
  Game.gameOver (game w) = true ->
  handle draws fuel e w = Normal w' ->
  map Player.time (Game.players (game w'))
  = map Player.time (Game.players (game w)).
Proof.
  intros Hover H.
  assert (Hpress : forall l l', Forall2 pressed l l' ->
            map Player.time l' = map Player.time l).
  { intros l l' HF. apply Forall2_map_eq.
    eapply Forall2_impl; [|exact HF].
    intros p p' [->| ->]; [reflexivity|apply jump_time]. }
  destruct e as [ts| |width].
  - destruct (handle_frame _ _ _ _ _ H) as [Hu _].
    rewrite update_gameOver in Hu by exact Hover.
    injection Hu as <- _. reflexivity.
  - simpl in H. injection H as <-. simpl.
    apply Hpress, jumpFirstHuman_pressed.
  - simpl in H.
    pose proof (initBackgroundRadii_spec draws width (game w) (cursor w))
      as (Hf & _).
    destruct (Game.initBackgroundRadii _ _ _ _) as [g' n'].
    injection H as <-. simpl in *. field_eq Hf Game.players as E.
    rewrite E. reflexivity.
Qed.

Lemma first_longest_times (l l' : list Player.t) (k : nat) :
  map Player.time l' = map Player.time l ->
  first_longest l k -> first_longest l' k.
Proof.
  intros E (p & Hp & Hall & Hbef).
  assert (Hnth : forall j q, nth_error l' j = Some q ->
            exists q', nth_error l j = Some q' /\
                       Player.time q' = Player.time q).
  { intros j q Hq. pose proof (map_nth_error Player.time _ _ Hq) as Hm.
    rewrite E, nth_error_map in Hm.
    destruct (nth_error l j) as [q'|]; [|discriminate].
    exists q'. split; [reflexivity|]. simpl in Hm. congruence. }
  assert (Hp' : exists p', nth_error l' k = Some p' /\
                           Player.time p' = Player.time p).
  { pose proof (map_nth_error Player.time _ _ Hp) as Hm.
    rewrite <- E, nth_error_map in Hm.
    destruct (nth_error l' k) as [p'|]; [|discriminate].
    exists p'. split; [reflexivity|]. simpl in Hm. congruence. }
  destruct Hp' as (p' & Hp' & Et). exists p'. split; [exact Hp'|].
  rewrite Et. split.
  - intros j q Hq. destruct (Hnth j q Hq) as (q' & Hq' & <-).
    eapply Hall. exact Hq'.
  - intros j q Hj Hq. destruct (Hnth j q Hq) as (q' & Hq' & <-).
    eapply Hbef; eassumption.
Qed.

Lemma over_winner (draws : nat -> Q) (w : World) :
  unit_draws draws -> reachable draws w ->
  Game.gameOver (game w) = true ->
  exists k, Game.winnerIndex (game w) = Some (Z.of_nat k) /\
            first_longest (Game.players (game w)) k.
Proof.
  intros Hd Hr. revert w Hr.
  apply (reachable_induction draws
           (fun w => Game.gameOver (game w) = true ->
                     exists k,
                       Game.winnerIndex (game w) = Some (Z.of_nat k) /\
                       first_longest (Game.players (game w)) k)).
  - intros names bots cw n Hover.
    destruct (startGame_spec draws names bots cw n Hd) as (_ & _ & H & _).
    congruence.
  - intros w fuel e w' Hr IH Hs Hover'.
    destruct (Game.gameOver (game w)) eqn:Hover.
    + destruct (IH eq_refl) as (k & Hk & Hfl). exists k.
      destruct (handle_result_kept _ _ _ _ _ Hs (or_introl Hover))
        as [_ ->].
      split; [exact Hk|].
      eapply first_longest_times; [|exact Hfl].
      eapply handle_over_times; eassumption.
    + destruct e as [ts| |width];
        try (destruct (handle_result_kept _ _ _ _ _ Hs) as [Hg _];
             [right; intros ts; discriminate|congruence]).
      destruct (handle_frame _ _ _ _ _ Hs) as [Hu _].
      pose proof (reachable_ok _ _ Hd Hr) as Hok.
      destruct (frame_fields _ _ _ _ _ _ _ _ Hd Hok Hover Hu)
        as (_ & _ & _ & _ & _ & _ & _ & _ & HF & _ & Hw).
      rewrite Hover' in Hw.
      destruct (endGame_winner (Game.players (game w'))) as (k & Ek & Hk).
      * apply Forall2_length in HF.
        destruct Hok as (_ & _ & _ & _ & _ & _ & _ & _ & _ & Hlen & _).
        intros E. rewrite E in HF. simpl in HF. lia.
      * exists k. rewrite Hw, Ek. split; [reflexivity|exact Hk].
Qed.

(** X13. The final list shows every player once, longest time first,
    players of equal time in lane order (the sort is stable).  Once a
    match is over, its top row is the row with the trophy and no other
    row has one: the winner search of [endGame], which keeps the first
    of the longest times, and the sort agree on ties. *)
Theorem final_list_top_has_trophy (draws : nat -> Q) (w : World) :
  unit_draws draws -> reachable draws w ->
  Permutation (finalRanking (game w)) (entries 0 (Game.players (game w))) /\
  StronglySorted listed_before (finalRanking (game w)) /\
  (Game.gameOver (game w) = true ->
   exists top rest,
     finalRanking (game w) = top :: rest /\
     hasTrophy (game w) top = true /\
     Forall (fun e => hasTrophy (game w) e = false) rest).
Proof.
  intros Hd Hr. split; [apply sortByTime_perm|].
  split; [apply entries_sorted|].
  intros Hover.
  destruct (over_winner draws w Hd Hr Hover) as (k & Hw & Hk).
  destruct (ranking_top _ _ Hk) as (e & rest & Es & Ei & Hrest).
  exists e, rest. split; [exact Es|]. unfold hasTrophy. rewrite Hw.
  split; [rewrite Ei; apply Z.eqb_refl|].
  eapply Forall_impl; [|exact Hrest].
  intros x Hx. cbv beta in Hx. apply Z.eqb_neq. intros E. apply Hx.
  apply Nat2Z.inj. exact E.
Qed.

(** The match of the three bots, over: they went out together, and the
    first of them is on top with the trophy. *)
Lemma final_list_top_has_trophy_witness :
  Game.gameOver (game w_bots_over) = true /\
  exists top rest,
    finalRanking (game w_bots_over) = top :: rest /\
    hasTrophy (game w_bots_over) top = true /\
    Forall (fun e => hasTrophy (game w_bots_over) e = false) rest.
Proof.
  split; [vm_compute; reflexivity|].
  refine (proj2 (proj2 (final_list_top_has_trophy half w_bots_over _ _)) _).
  - intros k. unfold half. split; lra.
  - apply (replay_reachable half 100 (frames 1000 500 18) [] 0 800 0).
    vm_compute. reflexivity.
  - vm_compute. reflexivity.
Defined.
(** ** The hearts of the scoreboard *)

Lemma hearts_row (A : Type) (a b : A) (k : nat) :
  forall n s,
    map (fun i => if (i <? k)%nat then a else b) (seq s n)
    = repeat a (Nat.min n (k - s)) ++ repeat b (n - (k - s)).
Proof.
  induction n as [|n IH]; intros s; [reflexivity|].
  cbn [seq map]. rewrite IH.
  destruct (s <? k)%nat eqn:E.
  - apply Nat.ltb_lt in E.
    replace (k - s)%nat with (S (k - S s)) by lia. reflexivity.
  - apply Nat.ltb_ge in E.
    replace (k - s)%nat with 0%nat by lia.
    replace (k - S s)%nat with 0%nat by lia.
    rewrite Nat.min_0_r, !Nat.sub_0_r. reflexivity.
Qed.

Lemma heartColours_row (hearts : nat) (p : Player.t) :
  let lives := Z.to_nat (Player.lives p) in
  heartColours hearts p
  = repeat "red"%string (Nat.min hearts lives)
    ++ repeat "#ccc"%string (hearts - lives).
Proof.
  cbv zeta. unfold heartColours.
  rewrite <- (Nat.sub_0_r (Z.to_nat (Player.lives p))) at 1 2.
  rewrite <- hearts_row. apply map_ext. intros i.
  destruct (Z.of_nat i <? Player.lives p)%Z eqn:E1;
    destruct (i <? Z.to_nat (Player.lives p))%nat eqn:E2;
    try reflexivity; exfalso.
  - apply Z.ltb_lt in E1. apply Nat.ltb_ge in E2. lia.
  - apply Z.ltb_ge in E1. apply Nat.ltb_lt in E2. lia.
Qed.

(** X14. The scoreboard shows the lives of a player as red hearts: for
    every player of a reachable state, the three hearts are [lives] red
    ones followed by grey ones, so the number of red hearts is [lives],
    and all three are grey exactly when the player is out.  (Outside a
    match the row is cut at the number of heart elements: more lives
    than hearts show as all red.) *)
Theorem hearts_show_lives (draws : nat -> Q) (w : World) (p : Player.t) :
  unit_draws draws -> reachable draws w ->
  In p (Game.players (game w)) ->
  heartColours heartCount p
  = repeat "red"%string (Z.to_nat (Player.lives p))
    ++ repeat "#ccc"%string (3 - Z.to_nat (Player.lives p)) /\
  Z.of_nat (count_occ string_dec (heartColours heartCount p) "red"%string)
  = Player.lives p /\
  (Player.out p = true <->
   heartColours heartCount p = repeat "#ccc"%string 3) /\
  (forall hearts q,
     heartColours hearts q
     = repeat "red"%string (Nat.min hearts (Z.to_nat (Player.lives q)))
       ++ repeat "#ccc"%string (hearts - Z.to_nat (Player.lives q))).
Proof.
  intros Hd Hr Hp.
  pose proof (reachable_ok _ _ Hd Hr) as Hok.
  destruct Hok as (_ & _ & _ & _ & _ & _ & _ & _ & _ & _ & Hps & _).
  destruct (proj1 (Forall_forall _ _) Hps p Hp) as (Hl & Ho & _).
  pose proof (heartColours_row heartCount p) as E. cbv zeta in E.
  unfold heartCount in *.
  replace (Nat.min 3 (Z.to_nat (Player.lives p)))
    with (Z.to_nat (Player.lives p)) in E by lia.
  split; [exact E|]. split; [|split; [|exact heartColours_row]].
  - rewrite E, count_occ_app, count_occ_repeat_eq by reflexivity.
    rewrite count_occ_repeat_neq by discriminate. lia.
  - rewrite E, Ho. split.
    + intros ->. reflexivity.
    + intros H.
      destruct (Z.to_nat (Player.lives p)) as [|k] eqn:Ek; [lia|].
      simpl in H. discriminate.
Qed.

(** The first bot of the match of three bots, just hit: two red hearts
    and a grey one. *)
Lemma hearts_show_lives_witness :
  heartColours heartCount bot_after_hit
  = ["red"; "red"; "#ccc"]%string /\
  Z.of_nat (count_occ string_dec (heartColours heartCount bot_after_hit)
              "red"%string)
  = Player.lives bot_after_hit.
Proof.
  split; [vm_compute; reflexivity|].
  refine (proj1 (proj2 (hearts_show_lives half w_bots_hit bot_after_hit
                          _ _ _))).
  - intros k. unfold half. split; lra.
  - apply (replay_reachable half 100 (frames 1000 500 13) [] 0 800 0).
    vm_compute. reflexivity.
  - vm_compute. left. reflexivity.
Defined.

(** ** Room codes *)

Lemma letters_app (a b : string) :
  letters (a ++ b) = letters a ++ letters b.
Proof.
  unfold letters. induction a as [|c a IH]; simpl; [reflexivity|].
  rewrite IH. reflexivity.
Qed.

Lemma letters_length (s : string) :
  List.length (letters s) = String.length s.
Proof.
  unfold letters. induction s as [|c s IH]; simpl;
    [reflexivity|rewrite IH; reflexivity].
Qed.

Lemma get_letters (s : string) :
  forall i, String.get i s = nth_error (letters s) i.
Proof.
  unfold letters. induction s as [|c s IH]; intros [|i]; simpl;
    try reflexivity. apply IH.
Qed.

(** [charAt] returns at most one character, of the string; exactly one
    inside the string. *)
Lemma charAt_letters (s : string) (i : Z) :
  (List.length (letters (charAt s i)) <= 1)%nat /\
  Forall (fun c => In c (letters s)) (letters (charAt s i)) /\
  ((0 <= i < Z.of_nat (String.length s))%Z ->
   List.length (letters (charAt s i)) = 1%nat).
Proof.
  unfold charAt. destruct (i <? 0)%Z eqn:E.
  - apply Z.ltb_lt in E. simpl. repeat split; [lia|constructor|lia].
  - apply Z.ltb_ge in E. rewrite get_letters.
    destruct (nth_error (letters s) (Z.to_nat i)) as [c|] eqn:Eg.
    + simpl. repeat split; [lia|].
      constructor; [|constructor]. eapply nth_error_In. exact Eg.
    + simpl. repeat split; [lia|constructor|].
      intros Hi. apply nth_error_None in Eg.
      rewrite letters_length in Eg. lia.
Qed.

Lemma chars_index (r : Q) :
  0 <= r -> r < 1 ->
  (0 <= Qfloor (r * inject_Z (Z.of_nat (String.length chars)))
   < Z.of_nat (String.length chars))%Z.
Proof.
  intros H0 H1.
  change (Z.of_nat (String.length chars)) with 62%Z.
  change (inject_Z 62) with 62.
  pose proof (Qfloor_le (r * 62)) as Hle.
  pose proof (Qlt_floor (r * 62)) as Hlt.
  rewrite inject_Z_plus in Hlt. change (inject_Z 1) with 1 in Hlt.
  split.
  - assert (H : (-1 < Qfloor (r * 62))%Z).
    { rewrite Zlt_Qlt. change (inject_Z (-1)) with (-1). lra. }
    lia.
  - rewrite Zlt_Qlt. change (inject_Z 62) with 62. lra.
Qed.

Lemma randomStringLoop_spec (draws : nat -> Q) (todo : nat) :
  forall result n,
    let out := randomStringLoop draws todo result n in
    snd out = (n + todo)%nat /\
    (exists drawn,
       letters (fst out) = letters result ++ drawn /\
       (List.length drawn <= todo)%nat /\
       Forall (fun c => In c (letters chars)) drawn /\
       (unit_draws draws -> List.length drawn = todo)).
Proof.
  induction todo as [|todo IH]; intros result n; cbv zeta.
  - simpl. split; [lia|]. exists []. rewrite app_nil_r.
    split; [reflexivity|]. split; [simpl; lia|].
    split; [constructor|reflexivity].
  - cbn [randomStringLoop]. unfold random. cbv zeta.
    set (index := Qfloor (draws n
                          * inject_Z (Z.of_nat (String.length chars)))).
    destruct (IH (result ++ charAt chars index)%string (S n))
      as (Hn & drawn & Hl & Hlen & Hin & Hu).
    cbv zeta in *. split; [rewrite Hn; lia|].
    destruct (charAt_letters chars index) as (H1 & H2 & H3).
    exists (letters (charAt chars index) ++ drawn).
    rewrite Hl, letters_app, <- app_assoc. split; [reflexivity|].
    rewrite length_app. split; [lia|].
    split; [apply Forall_app; split; assumption|].
    intros Hd. rewrite (Hu Hd), H3; [reflexivity|].
    destruct (Hd n) as [H0 H1']. apply chars_index; assumption.
Qed.

(** X15. [randomString(length)] consumes exactly [length] draws and
    returns only letters and digits of its alphabet, at most [length]
    of them; with draws in [0, 1) every index falls inside the
    alphabet and the code has exactly [length] characters.  (A draw
    outside that range would index past the alphabet, where [charAt]
    gives the empty string, and shorten the code.) *)
Theorem room_code_length (draws : nat -> Q) (length n : nat) :
  let code := fst (randomString draws length n) in
  snd (randomString draws length n) = (n + length)%nat /\
  (String.length code <= length)%nat /\
  Forall (fun c => In c (letters chars)) (letters code) /\
  (unit_draws draws -> String.length code = length).
Proof.
  cbv zeta. unfold randomString.
  destruct (randomStringLoop_spec draws length EmptyString n)
    as (Hn & drawn & Hl & Hlen & Hin & Hu).
  cbv zeta in *. simpl in Hl. split; [exact Hn|].
  rewrite <- letters_length, Hl. split; [exact Hlen|].
  split; [exact Hin|exact Hu].
Qed.

(** A room code of six characters from the source that always draws
    one half. *)
Lemma room_code_length_witness :
  String.length (fst (randomString half 6 0)) = 6%nat.
Proof.
  refine (proj2 (proj2 (proj2 (room_code_length half 6 0))) _).
  intros k. unfold half. split; lra.
Defined.
(** ** The background *)

Lemma new_dune (r : Q) : 0 <= r -> r < 1 -> dune (60 * (0.7 + r * 0.8)).
Proof. intros H0 H1. unfold dune. split; lra. Qed.

Lemma row_ok_scrolled (k : nat) (row : list Q) (r : Q) :
  row_ok k row -> dune r -> row_ok k (tl row ++ [r]).
Proof.
  intros [HF Hl] Hr. split.
  - apply Forall_app. split; [|constructor; [exact Hr|constructor]].
    destruct HF; [constructor|assumption].
  - rewrite length_app. destruct row as [|a row];
      cbn [tl List.length] in *; lia.
Qed.

Lemma bgScroll_spec (draws : nat -> Q) (width : Q) (k : nat) :
  unit_draws draws ->
  forall fuel offset radii n offset' radii' n',
    Game.bgScroll draws fuel width 60 offset radii n
    = Normal (offset', radii', n') ->
    - width < offset' /\ (row_ok k radii -> row_ok k radii').
Proof.
  intros Hd. induction fuel as [|fuel IH];
    intros offset radii n offset' radii' n' H; simpl in H;
    destruct (Qle_bool offset (- width)) eqn:E; try discriminate.
  - injection H as <- <- _. apply Qle_bool_false in E. split; auto.
  - apply IH in H. destruct H as [Ho Hr]. split; [exact Ho|].
    intros Hrow. apply Hr. apply row_ok_scrolled; [exact Hrow|].
    destruct (Hd n). apply new_dune; assumption.
  - injection H as <- <- _. apply Qle_bool_false in E. split; auto.
Qed.

Lemma assign_same {A : Type} (i : nat) (v x : A) (l : list A) :
  nth_error (assign i v l) i = Some x -> x = v.
Proof.
  revert i. induction l as [|a l IH]; intros [|i] H; simpl in H;
    try discriminate; [congruence|eapply IH; exact H].
Qed.

Lemma assign_Forall {A : Type} (P : A -> Prop) (i : nat) (v : A)
    (l : list A) :
  Forall P l -> (forall a, nth_error l i = Some a -> P a -> P v) ->
  Forall P (assign i v l).
Proof.
  revert i. induction l as [|a l IH]; intros [|i] HF Hv; simpl;
    try constructor; inversion HF; subst; auto.
  apply (Hv a); [reflexivity|assumption].
Qed.

Lemma bgLanes_spec (draws : nat -> Q) (fuel : nat) (dt : Q) (k : nat) :
  unit_draws draws ->
  forall todo laneIndex g n g' n',
    Game.bgBaseRadius g = 60 ->
    Game.bgLanes draws fuel todo laneIndex dt g n = Normal (g', n') ->
    (forall j offset,
       nth_error (Game.bgOffsets g') j = Some offset ->
       ((laneIndex <= j < laneIndex + todo)%nat ->
        - Game.bgPatternWidth g < offset) /\
       (~ (laneIndex <= j < laneIndex + todo)%nat ->
        nth_error (Game.bgOffsets g) j = Some offset)) /\
    (Forall (row_ok k) (Game.bgRadii g) ->
     Forall (row_ok k) (Game.bgRadii g')).
Proof.
  intros Hd. induction todo as [|todo IH];
    intros laneIndex g n g' n' Hbase H; simpl in H.
  - injection H as <- <-. split; [|auto].
    intros j offset Hj. split; [lia|intros _; exact Hj].
  - destruct (nth_error (Game.bgRadii g) laneIndex) as [radii|] eqn:Er;
      [|discriminate].
    destruct (nth_error (Game.bgOffsets g) laneIndex) as [offset0|] eqn:Eo;
      [|discriminate].
    rewrite Hbase in H.
    destruct (Game.bgScroll _ _ _ _ _ _ _) as [[[offset' radii'] n1]| |]
      eqn:Es; simpl in H; try discriminate.
    destruct (bgScroll_spec draws _ k Hd _ _ _ _ _ _ _ Es) as [Ho Hrow].
    apply IH in H; [|exact Hbase]. simpl in H. destruct H as [Hoff Hrad].
    split.
    + intros j offset Hj. destruct (Hoff j offset Hj) as [Hin Hout].
      destruct (Nat.eq_dec j laneIndex) as [->|Hne].
      * split; [intros _|lia].
        assert (E : nth_error (assign laneIndex offset' (Game.bgOffsets g))
                      laneIndex = Some offset) by (apply Hout; lia).
        apply assign_same in E. rewrite E. exact Ho.
      * split; [intros Hr; apply Hin; lia|].
        intros Hr. rewrite <- (assign_other laneIndex j offset') by lia.
        apply Hout. lia.
    + intros HF. apply Hrad. apply assign_Forall; [exact HF|].
      intros a Ha Hok. rewrite Er in Ha. injection Ha as <-.
      apply Hrow. exact Hok.
Qed.

Lemma radiiRow_spec (draws : nat -> Q) (segs : nat) :
  unit_draws draws ->
  forall n, row_ok segs (fst (Game.radiiRow draws segs 60 n)).
Proof.
  intros Hd n.
  assert (H : Forall dune (fst (Game.radiiRow draws segs 60 n)) /\
              List.length (fst (Game.radiiRow draws segs 60 n)) = segs).
  { revert n. induction segs as [|segs IH]; intros n; simpl.
    - split; [constructor|reflexivity].
    - specialize (IH (S n)).
      destruct (Game.radiiRow draws segs 60 (S n)) as [rest n1].
      simpl in *. destruct IH as [HF Hl].
      split; [|rewrite Hl; reflexivity].
      constructor; [|exact HF]. destruct (Hd n). apply new_dune; assumption. }
  destruct H as [HF Hl]. split; [exact HF|left; exact Hl].
Qed.

Lemma radiiRows_spec (draws : nat -> Q) (segs : nat) :
  unit_draws draws ->
  forall lanes n,
    Forall (row_ok segs) (fst (Game.radiiRows draws lanes segs 60 n)).
Proof.
  intros Hd. induction lanes as [|lanes IH]; intros n; simpl;
    [constructor|].
  pose proof (radiiRow_spec draws segs Hd n) as Hrow.
  destruct (Game.radiiRow draws segs 60 n) as [radii n1].
  specialize (IH n1).
  destruct (Game.radiiRows draws lanes segs 60 n1) as [rest n2].
  constructor; assumption.
Qed.

Lemma initBackgroundRadii_dunes (draws : nat -> Q) (cw : Q) (g : Game.t)
    (n : nat) :
  unit_draws draws ->
  Game.bgBaseRadius g = 60 -> Game.bgPatternWidth g = 300 ->
  Forall (row_ok (segments cw))
    (Game.bgRadii (fst (Game.initBackgroundRadii draws cw g n))).
Proof.
  intros Hd Hb Hw. unfold Game.initBackgroundRadii. rewrite Hb, Hw.
  pose proof (radiiRows_spec draws (segments cw) Hd (Game.laneCount g) n)
    as H.
  unfold segments in *.
  destruct (Game.radiiRows _ _ _ _ _) as [rows n1]. exact H.
Qed.

Lemma startGame_dunes (draws : nat -> Q) (names : list string)
    (bots : nat) (cw : Q) (n : nat) :
  unit_draws draws -> dunes_ok (startGame draws names bots cw n).
Proof.
  intros Hd. unfold startGame, Game.constructor.
  rewrite randomSpawnInterval_eq. cbv zeta.
  match goal with |- context [Game.initBackgroundRadii ?d ?c ?g0 ?k] =>
    pose proof (initBackgroundRadii_spec d c g0 k) as Hbg;
    pose proof (initBackgroundRadii_dunes d c g0 k Hd eq_refl eq_refl)
      as Hrows;
    destruct (Game.initBackgroundRadii d c g0 k) as [g1 n1] end.
  cbv zeta in Hbg. simpl fst in Hbg, Hrows. destruct Hbg as (Hf & Ho & _).
  unfold Game.start. rewrite randomSpawnInterval_eq.
  unfold dunes_ok.
  cbn [game canvasWidth Game.bgBaseRadius Game.bgOffsets Game.bgRadii
       Game.set_nextSpawnInterval Game.set_spawnTimer].
  field_eq Hf Game.bgBaseRadius as E.
  split; [exact E|]. split; [|exact Hrows].
  rewrite Ho. simpl. repeat constructor.
Qed.

Lemma handle_dunes (draws : nat -> Q) (fuel : nat) (e : event)
    (w w' : World) :
  unit_draws draws -> game_ok (game w) ->
  handle draws fuel e w = Normal w' -> dunes_ok w -> dunes_ok w'.
Proof.
  intros Hd Hok H (Hb & Ho & Hr).
  destruct e as [ts| |width].
  - destruct (handle_frame _ _ _ _ _ H) as [Hu Hcw].
    destruct (Game.gameOver (game w)) eqn:Hover.
    + rewrite update_gameOver in Hu by exact Hover.
      injection Hu as Eg _. unfold dunes_ok. rewrite Hcw, <- Eg. auto.
    + destruct (update_inv _ _ _ _ _ _ _ _ Hover Hu)
        as (gb & nb & gs & ns & players & outCount & Hbg & Hs & _ & Eg).
      cbv zeta in Hbg.
      pose proof (before_bg_frame ts (game w)) as Hgd.
      field_eq Hgd Game.bgBaseRadius as E1.
      field_eq Hgd Game.bgOffsets as E2. field_eq Hgd Game.bgRadii as E3.
      field_eq Hgd Game.bgPatternWidth as E4.
      field_eq Hgd Game.laneCount as E5.
      destruct (bgLanes_spec draws fuel _ (segments (canvasWidth w)) Hd
                  _ _ _ _ _ _ ltac:(rewrite E1; exact Hb) Hbg)
        as [Hoff Hrad].
      pose proof (bgLanes_lengths _ _ _ _ _ _ _ _ _ Hbg) as [Hl _].
      pose proof (bgLanes_frame _ _ _ _ _ _ _ _ _ Hbg) as Hfb.
      field_eq Hfb Game.bgBaseRadius as B1.
      apply spawnLoop_frame in Hs. rewrite no_spawn_before_spawn in Hs.
      field_eq Hs Game.bgBaseRadius as S1.
      field_eq Hs Game.bgOffsets as S2. field_eq Hs Game.bgRadii as S3.
      pose proof (after_players_frame players outCount gs) as Ha.
      rewrite <- Eg in Ha.
      field_eq Ha Game.bgBaseRadius as A1.
      field_eq Ha Game.bgOffsets as A2. field_eq Ha Game.bgRadii as A3.
      unfold dunes_ok. rewrite Hcw, A1, A2, A3, S1, S2, S3, B1, E1.
      split; [exact Hb|]. split.
      * apply Forall_forall. intros offset Hin.
        apply In_nth_error in Hin. destruct Hin as [j Hj].
        destruct (Hoff j offset Hj) as [Hin _].
        rewrite E4 in Hin.
        assert (Hw : Game.bgPatternWidth (game w) = 300) by apply Hok.
        rewrite Hw in Hin. apply Hin.
        assert (Hlt : (j < List.length (Game.bgOffsets gb))%nat).
        { apply nth_error_Some. rewrite Hj. discriminate. }
        rewrite Hl, E2 in Hlt. rewrite E5.
        destruct Hok as (_ & _ & _ & _ & _ & Hlen & _).
        rewrite Hlen in Hlt. lia.
      * apply Hrad. rewrite E3. exact Hr.
  - simpl in H. injection H as <-. exact (conj Hb (conj Ho Hr)).
  - simpl in H.
    pose proof (initBackgroundRadii_spec draws width (game w) (cursor w))
      as (Hf & Ho' & _).
    assert (Hw : Game.bgPatternWidth (game w) = 300) by apply Hok.
    pose proof (initBackgroundRadii_dunes draws width (game w) (cursor w)
                  Hd Hb Hw) as Hrows.
    destruct (Game.initBackgroundRadii _ _ _ _) as [g' n'].
    injection H as <-. simpl in *. field_eq Hf Game.bgBaseRadius as E.
    unfold dunes_ok. simpl. rewrite E, Ho'. auto.
Qed.

(** X17. The dunes of the background stay in order all through a
    match: every lane offset stays above one pattern width to the left
    (-300), every radius lies between 70% and 150% of the base radius
    (from 42 to 90), and every lane keeps the number of dunes that the
    last [initBackgroundRadii] gave it for the width of the canvas,
    scrolling by dropping its first dune for a fresh last one. *)
Theorem dunes_in_order (draws : nat -> Q) (w : World) :
  unit_draws draws -> reachable draws w ->
  Forall (fun offset => - (300) < offset) (Game.bgOffsets (game w)) /\
  Forall (Forall (fun r => 42 <= r /\ r <= 90)) (Game.bgRadii (game w)) /\
  Forall (fun row =>
            List.length row = segments (canvasWidth w) \/
            (segments (canvasWidth w) = 0%nat /\ List.length row = 1%nat))
    (Game.bgRadii (game w)).
Proof.
  intros Hd Hr.
  assert (H : dunes_ok w).
  { revert w Hr. apply reachable_induction.
    - intros names bots cw n. apply startGame_dunes. exact Hd.
    - intros w fuel e w' Hr IH Hs.
      eapply handle_dunes; try eassumption.
      apply (reachable_ok draws); assumption. }
  destruct H as (_ & Ho & Hrows). split; [exact Ho|].
  split; (eapply Forall_impl; [|exact Hrows]); intros row [H1 H2];
    assumption.
Qed.

(** The sample match after four seconds, on a canvas 800 wide: five
    dunes per lane. *)
Lemma dunes_in_order_witness :
  segments (canvasWidth w_4s) = 5%nat /\
  Forall (fun offset => - (300) < offset) (Game.bgOffsets (game w_4s)) /\
  Forall (Forall (fun r => 42 <= r /\ r <= 90)) (Game.bgRadii (game w_4s)) /\
  Forall (fun row =>
            List.length row = segments (canvasWidth w_4s) \/
            (segments (canvasWidth w_4s) = 0%nat /\
             List.length row = 1%nat))
    (Game.bgRadii (game w_4s)).
Proof.
  split; [vm_compute; reflexivity|].
  apply (dunes_in_order half w_4s).
  - intros k. unfold half. split; lra.
  - apply (replay_reachable half 100 [Frame 1000; Frame 5000]
             ["Player"%string] 2 800 0).
    vm_compute. reflexivity.
Defined.
(** ** Flight *)

Lemma after_physics_cases (draws : nat -> Q) (g : Game.t) (dt : Q)
    (p : Player.t) (n : nat) :
  exists pb,
    (pb = p \/ pb = Player.jump p) /\
    after_physics draws g dt p n = Player.updatePhysics dt pb.
Proof.
  unfold after_physics. destruct (Player.isBot p);
    [|exists p; split; [left|]; reflexivity].
  unfold Game.handleBot.
  destruct (handleBotScan_cases draws (Game.obstacles g) (Game.speed g) p n)
    as [[n1 ->]|(-> & _)];
    [exists p|exists (Player.jump p)]; split; auto.
Qed.

Lemma after_physics_identity (draws : nat -> Q) (g : Game.t) (dt : Q)
    (p : Player.t) (n : nat) :
  identity (after_physics draws g dt p n) = identity p.
Proof.
  destruct (after_physics_cases draws g dt p n) as (pb & Hpb & ->).
  rewrite updatePhysics_identity.
  destruct Hpb as [->| ->]; [reflexivity|apply jump_identity].
Qed.

Lemma after_physics_y_le (draws : nat -> Q) (g : Game.t) (dt : Q)
    (p : Player.t) (n : nat) :
  Player.out p = false -> Player.y (after_physics draws g dt p n) <= 0.
Proof.
  intros Ho. destruct (after_physics_cases draws g dt p n) as (pb & Hpb & ->).
  apply updatePhysics_y_le.
  destruct Hpb as [->| ->]; [|rewrite jump_out_same]; exact Ho.
Qed.

Lemma overlaps_strip (obs : Obstacle.t) (q : Player.t) :
  Player.x q = 150 -> Player.width q = 60 ->
  Game.overlaps obs q = true <-> in_strip obs.
Proof.
  intros Hx Hw. unfold Game.overlaps, in_strip. rewrite Hx, Hw.
  rewrite Bool.andb_true_iff, !Qlt_bool_iff. split; intros [H1 H2];
    split; lra.
Qed.

(** X18. What a hit depends on.  Every player stands in the same strip
    of the track, from 150 to 210, and the obstacles are shared by all
    lanes: in a frame, a player that is not out loses a life exactly
    when the physics leave it vulnerable and on the ground ([y = 0])
    while some obstacle reaches into that strip; the lane of the
    player and the type and height of the obstacle play no part. *)
Theorem hit_iff_in_strip (draws : nat -> Q) (g : Game.t) (dt : Q)
    (p : Player.t) (n i : nat) :
  body i p -> Player.out p = false ->
  let q := after_physics draws g dt p n in
  let p' := fst (Game.playerTick draws g dt p n) in
  (Player.lives p' = Player.lives p \/
   Player.lives p' = (Player.lives p - 1)%Z) /\
  (Player.lives p' = (Player.lives p - 1)%Z <->
   Player.invulnerable q = false /\ Player.y q == 0 /\
   exists obs, In obs (Game.obstacles g) /\ in_strip obs).
Proof.
  intros Hb Ho q p'.
  assert (Ep : p' = if negb (Player.invulnerable q)
                    then Game.collide (Game.obstacles g) q else q).
  { unfold p'. rewrite playerTick_after_physics by exact Ho. reflexivity. }
  pose proof (after_physics_lives draws g dt p n) as Hl. fold q in Hl.
  pose proof (after_physics_y_le draws g dt p n Ho) as Hy. fold q in Hy.
  pose proof (after_physics_identity draws g dt p n) as Hi. fold q in Hi.
  assert (Hq : body i q) by (eapply body_identity; eassumption).
  destruct Hq as (_ & Hx & Hw & _).
  destruct (hit_lives q) as (Hhl & _).
  destruct (Player.invulnerable q) eqn:Einv; simpl in Ep.
  - rewrite Ep, Hl. split; [left; reflexivity|].
    split; [lia|intros [H _]; discriminate].
  - destruct (collide_cases (Game.obstacles g) q)
      as [Ec|(Ec & Hy0 & obs & Hin & Hov)]; rewrite Ec in Ep; rewrite Ep.
    + rewrite Hl. split; [left; reflexivity|].
      split; [lia|]. intros (_ & Hy0 & obs & Hin & Hs). exfalso.
      assert (Hh : Game.collide (Game.obstacles g) q = Game.hit q).
      { apply collide_hit; [lra|]. exists obs. split; [exact Hin|].
        apply overlaps_strip; assumption. }
      rewrite Ec in Hh. apply (f_equal Player.lives) in Hh.
      rewrite Hhl in Hh. lia.
    + rewrite Hhl, Hl. split; [right; reflexivity|].
      split; [|reflexivity]. intros _. split; [reflexivity|].
      split; [lra|]. exists obs. split; [exact Hin|].
      apply (overlaps_strip obs q Hx Hw). exact Hov.
Qed.

(** The first bot of the match of three bots in the frame in which
    the first obstacle reaches it. *)
Lemma hit_iff_in_strip_witness :
  Player.lives (fst (Game.playerTick half (game w_bots_hit) 0.5
                       bot_before_hit 0))
  = (Player.lives bot_before_hit - 1)%Z <->
  Player.invulnerable
    (after_physics half (game w_bots_hit) 0.5 bot_before_hit 0) = false /\
  Player.y (after_physics half (game w_bots_hit) 0.5 bot_before_hit 0) == 0
  /\ exists obs, In obs (Game.obstacles (game w_bots_hit)) /\ in_strip obs.
Proof.
  refine (proj2 (hit_iff_in_strip half (game w_bots_hit) 0.5 bot_before_hit
                   0 0 _ _)).
  - vm_compute. repeat split; reflexivity.
  - vm_compute. reflexivity.
Defined.

Lemma square_nonneg (a : Q) : 0 <= a * a.
Proof. nra. Qed.

Lemma apex_le_y (p : Player.t) : apex p <= 4000 * Player.y p.
Proof.
  unfold apex. pose proof (square_nonneg (Player.vy p)). lra.
Qed.

Lemma jump_flight (p : Player.t) :
  Player.jumpVelocity p = 700 -> flight_ok p -> flight_ok (Player.jump p).
Proof.
  intros Hj [Hlow Hd].
  destruct (Player.out p) eqn:Ho;
    [rewrite jump_out by exact Ho; split; assumption|].
  destruct (Qeq_dec (Player.y p) 0) as [Hy|Hy].
  - rewrite jump_grounded by assumption. unfold flight_ok, apex. simpl.
    rewrite Hj. split; [|intros _]; lra.
  - destruct (Player.doubleJumpAvailable p) eqn:Ed.
    + rewrite jump_double by assumption. unfold flight_ok, apex. simpl.
      rewrite Hj. pose proof (apex_le_y p). specialize (Hd eq_refl).
      split; [lra|discriminate].
    + rewrite jump_spent by assumption. split; [exact Hlow|].
      rewrite Ed. discriminate.
Qed.

Lemma updatePhysics_flight (dt : Q) (p : Player.t) :
  Player.gravity p = 2000 -> flight_ok p ->
  flight_ok (Player.updatePhysics dt p).
Proof.
  intros Hg [Hlow Hd].
  destruct (Player.out p) eqn:Ho;
    [rewrite updatePhysics_out by exact Ho; split; assumption|].
  destruct (Qlt_le_dec 0 (integrated_y dt p)) as [H|H].
  - destruct (updatePhysics_clamped dt p Ho H) as (E1 & E2 & E3).
    unfold flight_ok, apex. rewrite E1, E2. split; [|intros _]; lra.
  - destruct (updatePhysics_free dt p Ho H) as (E1 & E2 & E3).
    unfold flight_ok, apex in *. rewrite E1, E2, E3.
    unfold integrated_y. rewrite Hg.
    pose proof (square_nonneg dt).
    split; [|intros Hdj; specialize (Hd Hdj)]; nra.
Qed.

Lemma hit_flight (p : Player.t) : flight_ok p -> flight_ok (Game.hit p).
Proof.
  unfold flight_ok, apex, Game.hit. simpl.
  destruct (_ <=? _)%Z; simpl; exact (fun H => H).
Qed.

Lemma moved_flight (draws : nat -> Q) (g' : Game.t) (p p' : Player.t) :
  moved draws g' p p' ->
  Player.gravity p = 2000 -> Player.jumpVelocity p = 700 ->
  flight_ok p -> flight_ok p'.
Proof.
  intros [[->| ->]|[dt Ht]] Hg Hj Hp;
    [exact Hp|apply jump_flight; assumption|].
  destruct (ticked_cases _ _ _ _ _ Ht) as [[_ ->]|(_ & pb & Hpb & Hq)];
    [exact Hp|].
  cbv zeta in Hq.
  assert (Hb : flight_ok pb /\ Player.gravity pb = 2000).
  { destruct Hpb as [->|[_ ->]]; [split; assumption|].
    split; [apply jump_flight; assumption|].
    rewrite jump_frame. exact Hg. }
  destruct Hb as [Hfb Hgb].
  pose proof (updatePhysics_flight dt pb Hgb Hfb) as Hq'.
  destruct Hq as [[_ ->]|[_ ->]]; [exact Hq'|].
  destruct (collide_cases (Game.obstacles g') (Player.updatePhysics dt pb))
    as [->|(-> & _)]; [exact Hq'|apply hit_flight; exact Hq'].
Qed.

(** X19. No player ever rises above two jumps: in every reachable
    state the height of a player is at most 245 (twice
    [700² / (2 * 2000)]), and at most 122.5 while its double jump is
    still available, whatever the lengths of the frames, since a frame
    of the physics never lowers the apex that position and velocity
    predict. *)
Theorem jump_height_bounded (draws : nat -> Q) (w : World) :
  unit_draws draws -> reachable draws w ->
  forall p, In p (Game.players (game w)) ->
    - (245) <= Player.y p /\ Player.y p <= 0 /\
    (Player.doubleJumpAvailable p = true -> - (245 / 2) <= Player.y p).
Proof.
  intros Hd Hr.
  assert (Hinv : Forall flight_ok (Game.players (game w))).
  { revert w Hr. apply reachable_induction.
    - intros names bots cw n.
      eapply Forall_impl; [|apply startGame_at_rest].
      intros p (Hy & Hv & _). unfold flight_ok, apex.
      split; [|intros _]; nra.
    - intros w fuel e w' Hr IH Hs.
      pose proof (reachable_ok _ _ Hd Hr) as Hok.
      pose proof (handle_players _ _ _ _ _ Hd Hok Hs) as HF.
      pose proof (reachable_body draws w Hd Hr) as Hbody.
      apply Forall_forall. intros p' Hp'.
      apply In_nth_error in Hp'. destruct Hp' as [i Hi].
      apply Forall2_flip in HF.
      destruct (Forall2_nth _ _ _ _ _ HF i p' Hi) as (p & Hp & Hm).
      destruct (Hbody i p Hp) as (_ & _ & _ & _ & Hg & Hj & _).
      apply (moved_flight draws (game w') p p' Hm Hg Hj).
      apply (proj1 (Forall_forall _ _) IH). eapply nth_error_In. exact Hp. }
  intros p Hp.
  destruct (proj1 (Forall_forall _ _) Hinv p Hp) as [Hlow Hdj].
  pose proof (apex_le_y p) as Ha.
  pose proof (reachable_ok _ _ Hd Hr) as Hok.
  destruct Hok as (_ & _ & _ & _ & _ & _ & _ & _ & _ & _ & Hps & _).
  destruct (proj1 (Forall_forall _ _) Hps p Hp) as (_ & _ & Hy & _).
  split; [lra|]. split; [exact Hy|].
  intros Ed. specialize (Hdj Ed).
  change (245 / 2) with (245 * (1 # 2)). lra.
Qed.

(** The human player of the sample match after two jumps, 0.63 s after
    the first. *)
Lemma jump_height_bounded_witness :
  - (245) <= Player.y human_landed /\ Player.y human_landed <= 0 /\
  (Player.doubleJumpAvailable human_landed = true ->
   - (245 / 2) <= Player.y human_landed).
Proof.
  apply (jump_height_bounded half w_landed).
  - intros k. unfold half. split; lra.
  - apply (replay_reachable half 100
             [Frame 1000; Press; Frame 1210; Press; Frame 1630]
             ["Player"%string] 2 800 0).
    vm_compute. reflexivity.
  - vm_compute. left. reflexivity.
Defined.
(** ** Frames with a negative [dt] *)

Lemma startGame_ready (draws : nat -> Q) (names : list string)
    (bots : nat) (cw : Q) (n : nat) :
  unit_draws draws -> frame_ready (startGame draws names bots cw n).
Proof.
  intros Hd.
  destruct (startGame_spec draws names bots cw n Hd)
    as (Hok & _ & _ & _ & _ & _ & _ & Ht & _).
  destruct Hok as (_ & Hmin & _ & [Hlo _] & _).
  split; [|rewrite Ht, Hmin in *; base_times; lra].
  unfold startGame, Game.constructor.
  rewrite randomSpawnInterval_eq. cbv zeta.
  match goal with |- context [Game.initBackgroundRadii ?d ?c ?g0 ?k] =>
    pose proof (initBackgroundRadii_spec d c g0 k) as Hbg;
    destruct (Game.initBackgroundRadii d c g0 k) as [g1 n1] end.
  cbv zeta in Hbg. simpl fst in Hbg. destruct Hbg as (Hf & _).
  unfold Game.start. rewrite randomSpawnInterval_eq.
  cbn [game Game.bgSpeedFactor Game.set_nextSpawnInterval
       Game.set_spawnTimer].
  field_eq Hf Game.bgSpeedFactor as E. exact E.
Qed.

Lemma handle_ready (draws : nat -> Q) (fuel : nat) (e : event)
    (w w' : World) :
  unit_draws draws -> game_ok (game w) ->
  handle draws fuel e w = Normal w' -> frame_ready w -> frame_ready w'.
Proof.
  intros Hd Hok H [Hf Ht]. destruct e as [ts| |width].
  - destruct (handle_frame _ _ _ _ _ H) as [Hu _].
    destruct (Game.gameOver (game w)) eqn:Hover.
    + rewrite update_gameOver in Hu by exact Hover.
      injection Hu as Eg _. unfold frame_ready. rewrite <- Eg. auto.
    + destruct (frame_fields _ _ _ _ _ _ _ _ Hd Hok Hover Hu)
        as (Hc & _ & _ & _ & _ & _ & _ & (intervals & news & Hsp) & _).
      field_eq Hc Game.bgSpeedFactor as E.
      destruct Hsp as (_ & _ & _ & _ & _ & _ & _ & _ & Hshort & _).
      split; [congruence|exact Hshort].
  - simpl in H. injection H as <-. exact (conj Hf Ht).
  - simpl in H.
    pose proof (initBackgroundRadii_spec draws width (game w) (cursor w))
      as (Hv & _).
    destruct (Game.initBackgroundRadii _ _ _ _) as [g' n'].
    injection H as <-. simpl in *.
    field_eq Hv Game.bgSpeedFactor as E1. field_eq Hv Game.spawnTimer as E2.
    field_eq Hv Game.nextSpawnInterval as E3.
    unfold frame_ready. simpl. rewrite E1, E2, E3. auto.
Qed.

Lemma reachable_ready (draws : nat -> Q) (w : World) :
  unit_draws draws -> reachable draws w -> frame_ready w /\ dunes_ok w.
Proof.
  intros Hd Hr. revert w Hr. apply reachable_induction.
  - intros names bots cw n.
    split; [apply startGame_ready|apply startGame_dunes]; exact Hd.
  - intros w fuel e w' Hr [IH1 IH2] Hs.
    pose proof (reachable_ok draws w Hd Hr) as Hok.
    split; [eapply handle_ready|eapply handle_dunes]; eassumption.
Qed.

(** A frame of a running game whose [dt] is negative enters neither
    the background loop nor the spawn loop: it returns whatever the
    fuel. *)
Lemma update_backwards (draws : nat -> Q) (fuel : nat) (ts cw : Q)
    (g : Game.t) (n : nat) :
  game_ok g -> Game.gameOver g = false ->
  Game.bgSpeedFactor g = 0.6 ->
  Forall (fun offset => - (300) < offset) (Game.bgOffsets g) ->
  Game.spawnTimer g < Game.nextSpawnInterval g ->
  Game.frameDt ts g < 0 ->
  exists g' n',
    Game.update draws fuel ts cw g n = Normal (g', n') /\
    Game.obstacles g'
    = Game.cull (map (Game.advance (Game.speed g') (Game.frameDt ts g))
                   (Game.obstacles g)) /\
    Game.spawnTimer g' = Game.spawnTimer g + Game.frameDt ts g /\
    Game.nextSpawnInterval g' = Game.nextSpawnInterval g.
Proof.
  intros Hok Hover Hfac Hoff Hshort Hdt.
  set (dt := Game.frameDt ts g) in *. set (gd := before_bg ts g).
  pose proof (before_bg_frame ts g) as Hgd. fold gd in Hgd.
  field_eq Hgd Game.bgPatternWidth as Ew. field_eq Hgd Game.bgOffsets as Eo.
  field_eq Hgd Game.bgRadii as Er. field_eq Hgd Game.laneCount as El.
  field_eq Hgd Game.bgSpeedFactor as Ef.
  field_eq Hgd Game.obstacles as Eobs.
  field_eq Hgd Game.spawnTimer as Etimer.
  field_eq Hgd Game.nextSpawnInterval as Enext.
  destruct Hok as (Hl & _ & _ & _ & Hw & Hlo & Hlr & Hsf & Hs & _).
  assert (Hsd : 0 < Game.speed gd).
  { unfold gd, before_bg. fold dt.
    destruct (difficulty_cases dt (Game.set_lastTime (Some ts) g))
      as [(_ & E & _)|(_ & E & _)]; rewrite E; simpl; [rewrite Hsf|];
      lra. }
  destruct (bgLanes_total draws fuel dt (Game.laneCount gd) 0 gd n)
    as (gb & nb & Hb).
  { rewrite Ew, Hw. reflexivity. }
  { rewrite Eo, El, Hlo. apply Nat.le_refl. }
  { rewrite Er, El, Hlr. apply Nat.le_refl. }
  { intros j offset _ Hj. rewrite Eo in Hj.
    pose proof (proj1 (Forall_forall _ _) Hoff offset
                  (nth_error_In _ _ Hj)) as Hlow.
    cbv beta in Hlow. unfold scroll_fuel. rewrite Ew, Hw, Ef, Hfac.
    pose proof (inject_nat_nonneg fuel). nra. }
  pose proof (bgLanes_frame _ _ _ _ _ _ _ _ _ Hb) as Hfb.
  field_eq Hfb Game.spawnTimer as Btimer.
  field_eq Hfb Game.nextSpawnInterval as Bnext.
  field_eq Hfb Game.obstacles as Bobs.
  assert (Hs0 : Game.spawnLoop draws fuel cw (before_spawn dt gb) nb
                = Normal (before_spawn dt gb, nb)).
  { apply spawnLoop_done. apply Qle_bool_false. simpl.
    rewrite Btimer, Bnext, Etimer, Enext. lra. }
  destruct (Game.updatePlayers draws (before_spawn dt gb) dt
              (Game.players (before_spawn dt gb)) nb 0)
    as [[players n'] outCount] eqn:Hp.
  pose proof (update_eq _ _ _ _ _ _ _ _ _ _ _ _ _ Hover Hb Hs0 Hp) as Hu.
  exists (after_players players outCount (before_spawn dt gb)), n'.
  split; [exact Hu|].
  pose proof (after_players_frame players outCount (before_spawn dt gb))
    as Ha.
  field_eq Ha Game.obstacles as A1. field_eq Ha Game.spawnTimer as A2.
  field_eq Ha Game.nextSpawnInterval as A3. field_eq Ha Game.speed as A4.
  rewrite A1, A2, A3, A4, Bobs, Btimer, Bnext, Eobs, Etimer, Enext.
  repeat split; reflexivity.
Qed.

(** C2, as the code has it.  The frame handler does not look at the
    sign of [dt].  A frame of a running game whose timestamp lies
    before the previous one ([dt < 0]) signals nothing: whatever the
    fuel, it returns, having entered neither of its loops, and it
    applies [dt] like any other value: [elapsedTime], the spawn timer
    and the time of every player that is not out move back by [dt], and
    the obstacles move to the right. *)
Theorem negative_dt_is_applied (draws : nat -> Q) (ts : Q) (w : World)
    (fuel : nat) :
  unit_draws draws -> reachable draws w ->
  Game.gameOver (game w) = false ->
  Game.frameDt ts (game w) < 0 ->
  let dt := Game.frameDt ts (game w) in
  exists w',
    handle draws fuel (Frame ts) w = Normal w' /\
    Game.lastTime (game w') = Some ts /\
    Game.elapsedTime (game w') = Game.elapsedTime (game w) + dt /\
    Game.spawnTimer (game w') = Game.spawnTimer (game w) + dt /\
    Game.obstacles (game w')
    = Game.cull (map (Game.advance (Game.speed (game w')) dt)
                   (Game.obstacles (game w))) /\
    Forall2 (fun p p' => Player.out p = false ->
                         Player.time p' = Player.time p + dt)
      (Game.players (game w)) (Game.players (game w')).
Proof.
  intros Hd Hr Hover Hdt dt.
  pose proof (reachable_ok draws w Hd Hr) as Hok.
  destruct (reachable_ready draws w Hd Hr) as [[Hfac Hshort] (_ & Hoff & _)].
  destruct (update_backwards draws fuel ts (canvasWidth w) (game w)
              (cursor w) Hok Hover Hfac Hoff Hshort Hdt)
    as (g' & n' & Hu & Hobs & Htimer & _).
  exists (mkWorld g' (canvasWidth w) n').
  assert (H : handle draws fuel (Frame ts) w
              = Normal (mkWorld g' (canvasWidth w) n')).
  { simpl. rewrite Hu. reflexivity. }
  split; [exact H|].
  destruct (frame_fields _ _ _ _ _ _ _ _ Hd Hok Hover Hu)
    as (_ & Hl & He & _ & _ & _ & _ & _ & HF & _).
  cbn [game]. split; [exact Hl|]. split; [exact He|].
  split; [exact Htimer|]. split; [exact Hobs|].
  eapply Forall2_impl; [|exact HF].
  intros p p' Ht Ho. eapply ticked_time; eassumption.
Qed.

(** The sample match takes a frame whose timestamp lies one second
    before the previous one, with no fuel at all. *)
Lemma negative_dt_is_applied_witness :
  Game.frameDt 0 (game w_first) == -1 /\
  exists w',
    handle half 0 (Frame 0) w_first = Normal w' /\
    Game.lastTime (game w') = Some 0 /\
    Game.elapsedTime (game w')
    = Game.elapsedTime (game w_first) + Game.frameDt 0 (game w_first) /\
    Game.spawnTimer (game w')
    = Game.spawnTimer (game w_first) + Game.frameDt 0 (game w_first) /\
    Game.obstacles (game w')
    = Game.cull (map (Game.advance (Game.speed (game w'))
                        (Game.frameDt 0 (game w_first)))
                   (Game.obstacles (game w_first))) /\
    Forall2 (fun p p' => Player.out p = false ->
                         Player.time p' = Player.time p
                                          + Game.frameDt 0 (game w_first))
      (Game.players (game w_first)) (Game.players (game w')).
Proof.
  split; [vm_compute; reflexivity|].
  apply (negative_dt_is_applied half 0 w_first 0).
  - intros k. unfold half. split; lra.
  - apply (replay_reachable half 100 [Frame 1000] ["Player"%string] 2 800 0).
    vm_compute. reflexivity.
  - vm_compute. reflexivity.
  - vm_compute. reflexivity.
Defined.
(** ** The spawn scheduler against its design *)








